(** * One season of the "All Stars 10" format: src/formats/allstars10.js

    A shallow embedding of [simulateAllStars10] and of the helpers it is
    built from, followed by the properties of the season pipeline.

    Conventions of the embedding.
    - The random source [rng] is a function that is called with no argument
      and answers with a number.  It is modelled by the sequence of its
      answers, [rng : nat -> Q], and a cursor counting the calls made so far.
      The answers are finite numbers; [isDouble] says of a rational that it is
      an IEEE 754 double, and the contract of the source asks it of every
      answer.
    - JavaScript multiplies in binary64: [v * n] is the exact product rounded
      to the nearest double, ties to the even significand ([times], on top of
      [roundDouble]).  Array lengths are integers below 2^32, which are
      doubles, and [Math.floor], the comparison with [0.5] and [i + 1] on such
      integers are exact.
    - Loops with a fixed trip count are structural recursions.  The two loops
      whose trip count depends on the draws ([do ... while] in
      [chooseTwoWinners], [while] in the finale) spend one unit of [fuel] per
      iteration and end the run with [OutOfFuel] when none is left.
    - A JavaScript object used as a map from names to points is an
      association list of its own properties in insertion order, with unique
      keys.  An assignment to the name [__proto__] reaches the setter that
      every object inherits and stores nothing. *)

From Stdlib Require Import ZArith QArith Qround Qabs Lqa String Ascii DecimalString Bool
  Arith List Lia Permutation Sorted.
Import ListNotations.

Local Open Scope string_scope.
Local Open Scope list_scope.
Local Open Scope Z_scope.

(** ** Outcomes of a run *)

Inductive exn : Type :=
| Error (msg : string)   (* [throw new Error(msg)] *)
| TypeError.             (* a property read on [undefined] *)

(** [Undefined]: an array or an object was read where it has no entry and the
    code goes on to use the value as a name or as a number.  JavaScript
    carries on with [undefined] and [NaN]; the embedding stops the run there.
    [no_undefined] below shows that no run whose draws stay in [0,1) gets
    there. *)
Inductive outcome (A : Type) : Type :=
| Return (a : A)
| Throw (e : exn)
| Undefined
| OutOfFuel.

Arguments Return {A} a.
Arguments Throw {A} e.
Arguments Undefined {A}.
Arguments OutOfFuel {A}.

Definition name := string.

(** ** Numbers *)

(** The integer nearest to [q], the even one of two that are equally near. *)
Definition roundHalfEven (q : Q) : Z :=
  let f := Qfloor q in
  match (q - inject_Z f ?= 1 # 2)%Q with
  | Lt => f
  | Gt => f + 1
  | Eq => if Z.even f then f else f + 1
  end.

(** The double nearest to [x >= 0].  The doubles are the multiples of
    [2^-1074] with a significand of 53 bits: counted in units of [2^-1074],
    a number whose integer part has [l + 1] bits is rounded to a multiple of
    [2^(l - 52)], and to an integer when it has 53 bits or fewer (the
    subnormal numbers).  Numbers from [2^1024] on, where binary64 answers
    [Infinity], are out of the reach of a draw times an array length. *)
Definition roundMagnitude (x : Q) : Q :=
  let scaled := (x * inject_Z (2 ^ 1074))%Q in
  let s := Z.max 0 (Z.log2 (Qfloor scaled) - 52) in
  (inject_Z (roundHalfEven (scaled / inject_Z (2 ^ s)) * 2 ^ s) / inject_Z (2 ^ 1074))%Q.

Definition roundDouble (x : Q) : Q :=
  if Qle_bool 0 x then roundMagnitude x else (- roundMagnitude (- x))%Q.

(** A rational is a double when rounding leaves it as it is and it lies
    below [2^1024]. *)
Definition isDouble (x : Q) : Prop :=
  (roundDouble x == x)%Q /\ (Qabs x < inject_Z (2 ^ 1024))%Q.

(** [a * b] on numbers. *)
Definition times (a b : Q) : Q := roundDouble (a * b).

(** ** Arrays *)

(** [arr[i]] for a number [i] that is an integer. *)
Definition item {A : Type} (arr : list A) (i : Z) : option A :=
  if i <? 0 then None else nth_error arr (Z.to_nat i).

(** [arr[i] = x] for [i] inside the array. *)
Fixpoint assign {A : Type} (arr : list A) (i : nat) (x : A) : list A :=
  match arr, i with
  | [], _ => []
  | _ :: rest, O => x :: rest
  | y :: rest, S i' => y :: assign rest i' x
  end.

(** [arr.splice(start, 1)]: the removed elements and the array that is left.
    A negative [start] counts from the end, a [start] past the end removes
    nothing. *)
Definition splice1 {A : Type} (arr : list A) (start : Z) : list A * list A :=
  let len := Z.of_nat (length arr) in
  let k := Z.to_nat (if start <? 0 then Z.max (len + start) 0 else Z.min start len) in
  (firstn 1 (skipn k arr), firstn k arr ++ skipn (S k) arr).

(** [arr.includes(q)] on an array of strings. *)
Definition includes (arr : list name) (q : name) : bool :=
  existsb (String.eqb q) arr.

(** ** The computation monad: fuel, a cursor into the draws, an outcome *)

Definition M (A : Type) : Type := nat -> nat -> outcome A * nat.

Definition ret {A : Type} (a : A) : M A := fun _ c => (Return a, c).

Definition bind {A B : Type} (m : M A) (k : A -> M B) : M B :=
  fun fuel c =>
    match m fuel c with
    | (Return a, c') => k a fuel c'
    | (Throw e, c') => (Throw e, c')
    | (Undefined, c') => (Undefined, c')
    | (OutOfFuel, c') => (OutOfFuel, c')
    end.

Definition throw {A : Type} (e : exn) : M A := fun _ c => (Throw e, c).
Definition undefined {A : Type} : M A := fun _ c => (Undefined, c).
Definition outOfFuel {A : Type} : M A := fun _ c => (OutOfFuel, c).

(** A value that has to be there for the run to go on. *)
Definition defined {A : Type} (o : option A) : M A :=
  match o with
  | Some a => ret a
  | None => undefined
  end.

Declare Scope monad_scope.
Delimit Scope monad_scope with monad.
Notation "x <- m ;; k" := (bind m (fun x => k))
  (at level 61, m at next level, right associativity) : monad_scope.
Notation "' p <- m ;; k" := (bind m (fun x => match x with p => k end))
  (at level 61, p pattern, m at next level, right associativity) : monad_scope.
Local Open Scope monad_scope.

(** [arr.forEach] and counted [for] loops whose body draws: a left fold. *)
Fixpoint foldM {A S : Type} (body : S -> A -> M S) (l : list A) (s : S) : M S :=
  match l with
  | [] => ret s
  | x :: rest => s' <- body s x ;; foldM body rest s'
  end.

(** ** Points objects *)

Definition pointsObj := list (name * Z).

Fixpoint get (o : pointsObj) (k : name) : option Z :=
  match o with
  | [] => None
  | (k', v) :: rest => if String.eqb k k' then Some v else get rest k
  end.

(** [o[k]] for a key [k] of the object. *)
Definition pointsOf (o : pointsObj) (k : name) : Z :=
  match get o k with Some v => v | None => 0 end.

(** [Object.hasOwn(o, k)] *)
Definition hasOwn (o : pointsObj) (k : name) : bool :=
  match get o k with Some _ => true | None => false end.

(** The names an assignment can store on an object that does not have them
    yet: every string but [__proto__]. *)
Definition storable (k : name) : bool := negb (String.eqb k "__proto__").

(** Storing an own property: an existing key keeps its place, a new key
    goes last. *)
Fixpoint setOwn (o : pointsObj) (k : name) (v : Z) : pointsObj :=
  match o with
  | [] => [(k, v)]
  | (k', v') :: rest =>
      if String.eqb k k' then (k', v) :: rest else (k', v') :: setOwn rest k v
  end.

(** [o[k] = v] for a number [v].  An object inherits [__proto__] from
    [Object.prototype] as an accessor whose setter ignores numbers and
    strings: unless the object has an own property of that name the
    assignment stores nothing. *)
Definition set (o : pointsObj) (k : name) (v : Z) : pointsObj :=
  match get o k with
  | Some _ => setOwn o k v
  | None => if storable k then setOwn o k v else o
  end.

(** [o[k] += d].  On a name that is not there JavaScript computes with
    [undefined]; the run ends with [Undefined].  [__proto__] where it is not
    an own property reads as the prototype, an object: the sum is a string,
    and the assignment stores nothing. *)
Definition addTo (o : pointsObj) (k : name) (d : Z) : M pointsObj :=
  match get o k with
  | Some v => ret (set o k (v + d))
  | None => if storable k then undefined else ret o
  end.

(** [qs.forEach(q => points[q] = 0)] on a fresh object. *)
Definition zeroPoints (qs : list name) : pointsObj :=
  fold_left (fun o q => set o q 0) qs [].

(** *** Enumeration order of the keys *)

Definition digitValue (a : ascii) : option N :=
  let n := N_of_ascii a in
  if ((48 <=? n) && (n <=? 57))%N then Some (n - 48)%N else None.

Fixpoint decimalValue (s : string) (acc : N) : option N :=
  match s with
  | EmptyString => Some acc
  | String a rest =>
      match digitValue a with
      | Some d => decimalValue rest (10 * acc + d)%N
      | None => None
      end
  end.

(** A key is an array index when it is the canonical decimal numeral of an
    integer below 2^32 - 1; such keys are enumerated first, by value. *)
Definition arrayIndex (s : string) : option N :=
  match s with
  | EmptyString => None
  | String "0" EmptyString => Some 0%N
  | String "0" _ => None
  | _ => match decimalValue s 0 with
         | Some n => if (n <? 4294967295)%N then Some n else None
         | None => None
         end
  end.

Definition isArrayIndex (e : name * Z) : bool :=
  match arrayIndex (fst e) with Some _ => true | None => false end.

Definition indexValue (e : name * Z) : Z :=
  match arrayIndex (fst e) with Some n => Z.of_N n | None => 0 end.

(** ** Sorting *)

(** [Array.prototype.sort] is stable, and on a consistent comparator its
    result is the one sorted arrangement that keeps equal elements in their
    original order.  Insertion from the right computes it. *)
Fixpoint insertBy {A : Type} (cmp : A -> A -> Z) (x : A) (l : list A) : list A :=
  match l with
  | [] => [x]
  | y :: rest => if 0 <? cmp x y then y :: insertBy cmp x rest else x :: l
  end.

Definition sortBy {A : Type} (cmp : A -> A -> Z) (l : list A) : list A :=
  fold_right (insertBy cmp) [] l.

(** The own properties of an object in the order [Object.keys] lists them. *)
Definition ownProperties (o : pointsObj) : pointsObj :=
  sortBy (fun a b => indexValue a - indexValue b) (filter isArrayIndex o)
  ++ filter (fun e => negb (isArrayIndex e)) o.

Definition Object_keys (o : pointsObj) : list name := map fst (ownProperties o).

(** ** The records of a season *)

Module Standing.
Record t : Type := { name : string; points : Z }.
End Standing.

Module Mvq.
Record t : Type := { from : string; to : string }.
End Mvq.

Module Detail.
Record t : Type :=
  { winners : list string; lipSyncWinner : string; mvqAssignments : list Mvq.t }.
End Detail.

Module EpisodeRes.
Record t : Type := { points : pointsObj; detail : Detail.t }.
End EpisodeRes.

Module EpRecord.
Record t : Type :=
  { bracket : nat;
    episodeNumberInBracket : nat;
    episodeGlobalNumber : nat;
    queens : list string;
    pointsThisEpisode : pointsObj;
    detail : Detail.t }.
End EpRecord.

Module BracketResult.
Record t : Type :=
  { bracketIndex : nat;
    queens : list string;
    points : pointsObj;
    standings : list Standing.t;
    episodes : list EpRecord.t }.
End BracketResult.

(** A pairing of the finale: [b] is [None] for [null], and [bye] is set on
    the pairing of a contestant who advances without a lip-sync. *)
Module Pairing.
Record t : Type := { a : string; b : option string; winner : string; bye : bool }.
End Pairing.

Module Meta.
Record t : Type := { format : string; generatedAt : string }.
End Meta.

(** [semiEliminations] and [champion] hold [None] where the code stores
    [undefined] (an elimination from an empty pool, no finalist at all). *)
Module Season.
Record t : Type :=
  { meta : Meta.t;
    brackets : list BracketResult.t;
    episodes : list EpRecord.t;
    top9 : list string;
    semiEliminations : list (option string);
    finalists : list string;
    finaleRounds : list (list Pairing.t);
    champion : option string }.
End Season.

(** A queen is given by name or by an object with a [name] property. *)
Inductive queen : Type :=
| QueenName (s : string)
| QueenObject (name : string).

(** The recognised options; [rng] is the sequence of draws below. *)
Record options : Type :=
  { bracketCount : option nat; bracketSize : option nat }.

Definition defaultOptions : options :=
  {| bracketCount := None; bracketSize := None |}.

(** [o || d] on a count: absent and 0 both give the default. *)
Definition orDefault (o : option nat) (d : nat) : nat :=
  match o with
  | Some (S n) => S n
  | _ => d
  end.

Definition decimal (n : nat) : string := NilZero.string_of_uint (Nat.to_uint n).

Definition countMessage (expected actual : nat) : string :=
  ("AllStars10 expects exactly " ++ decimal expected
   ++ " queens by default (currently got " ++ decimal actual ++ ").")%string.

(** ** Helpers that do not draw *)

Definition rankCompare (localeCompare : string -> string -> Z) (a b : Standing.t) : Z :=
  let d := Standing.points b - Standing.points a in
  if d =? 0 then localeCompare (Standing.name a) (Standing.name b) else d.

Definition rankByPoints (localeCompare : string -> string -> Z) (pointsObj : pointsObj)
  : list Standing.t :=
  sortBy (rankCompare localeCompare)
    (map (fun name => {| Standing.name := name; Standing.points := pointsOf pointsObj name |})
       (Object_keys pointsObj)).

(** The loop of [sliceIntoBrackets].  With [bracketCount = 0] the index
    [i % 0] is [NaN] and [brackets] is empty: there as here the read finds
    nothing and [push] on it is a [TypeError]. *)
Fixpoint sliceLoop (i : nat) (queens : list string) (bracketCount : nat)
  (brackets : list (list string)) : outcome (list (list string)) :=
  match queens with
  | [] => Return brackets
  | q :: rest =>
      match nth_error brackets (i mod bracketCount) with
      | Some b =>
          sliceLoop (S i) rest bracketCount
            (assign brackets (i mod bracketCount) (b ++ [q]))
      | None => Throw TypeError
      end
  end.

Definition sliceIntoBrackets (queens : list string) (bracketCount : nat)
  : outcome (list (list string)) :=
  sliceLoop 0 queens bracketCount (repeat [] bracketCount).

Definition lift {A : Type} (o : outcome A) : M A := fun _ c => (o, c).

Definition Qltb (x y : Q) : bool := negb (Qle_bool y x).

(** ** The simulation *)

Section Simulation.

(** [String.prototype.localeCompare] belongs to the host, not to this
    repository: negative, zero or positive as its first argument sorts
    before, with or after the second. *)
Variable localeCompare : string -> string -> Z.

(** [rng n] is the answer of the random source to its [n]-th call. *)
Variable rng : nat -> Q.

(** [rng()] *)
Definition next : M Q := fun _ c => (Return (rng c), S c).

Definition pickRandomIndex {A : Type} (arr : list A) : M Z :=
  v <- next ;; ret (Qfloor (times v (inject_Z (Z.of_nat (length arr))))).

(** [do { b = pickRandomIndex(queenNames, rng); } while (b === a);] *)
Fixpoint redrawLoop (n : nat) (queenNames : list string) (a : Z) : M Z :=
  match n with
  | O => outOfFuel
  | S n' =>
      b <- pickRandomIndex queenNames ;;
      if b =? a then redrawLoop n' queenNames a else ret b
  end.

Definition redraw (queenNames : list string) (a : Z) : M Z :=
  fun fuel => redrawLoop fuel queenNames a fuel.

Definition chooseTwoWinners (queenNames : list string) : M (list string) :=
  if (length queenNames <? 2)%nat then ret queenNames
  else
    a <- pickRandomIndex queenNames ;;
    b <- redraw queenNames a ;;
    wa <- defined (item queenNames a) ;;
    wb <- defined (item queenNames b) ;;
    ret [wa; wb].

(** The body of [remaining.forEach(from => ...)]. *)
Definition giveMvq (queensInEpisode : list string)
  (acc : pointsObj * list Mvq.t) (from : string) : M (pointsObj * list Mvq.t) :=
  let '(points, mvqAssignments) := acc in
  let possible := filter (fun x => negb (String.eqb x from)) queensInEpisode in
  i <- pickRandomIndex possible ;;
  recipient <- defined (item possible i) ;;
  points <- addTo points recipient 1 ;;
  ret (points, mvqAssignments ++ [{| Mvq.from := from; Mvq.to := recipient |}]).

Definition runEpisodeSix (queensInEpisode : list string) : M EpisodeRes.t :=
  let points := zeroPoints queensInEpisode in
  winners <- chooseTwoWinners queensInEpisode ;;
  points <- foldM (fun p w => addTo p w 2) winners points ;;
  lipIndex <- pickRandomIndex winners ;;
  lipWinner <- defined (item winners lipIndex) ;;
  points <- addTo points lipWinner 1 ;;
  let remaining := filter (fun q => negb (includes winners q)) queensInEpisode in
  '(points, mvqAssignments) <- foldM (giveMvq queensInEpisode) remaining (points, []) ;;
  ret {| EpisodeRes.points := points;
         EpisodeRes.detail :=
           {| Detail.winners := winners;
              Detail.lipSyncWinner := lipWinner;
              Detail.mvqAssignments := mvqAssignments |} |}.

(** The body of [for (let ep = 1; ep <= 3; ep++)] in one bracket: the state
    is [bracketPoints], [bracketEpisodeDetails] and the season's [episodes]. *)
Definition runBracketEpisode (bracketQueens : list string) (bracketIndex : nat)
  (acc : pointsObj * list EpRecord.t * list EpRecord.t) (ep : nat)
  : M (pointsObj * list EpRecord.t * list EpRecord.t) :=
  let '(bracketPoints, bracketEpisodeDetails, episodes) := acc in
  episodeRes <- runEpisodeSix bracketQueens ;;
  bracketPoints <-
    foldM (fun bp q => d <- defined (get (EpisodeRes.points episodeRes) q) ;; addTo bp q d)
      (Object_keys (EpisodeRes.points episodeRes)) bracketPoints ;;
  let epRecord :=
    {| EpRecord.bracket := (bracketIndex + 1)%nat;
       EpRecord.episodeNumberInBracket := ep;
       EpRecord.episodeGlobalNumber := (bracketIndex * 3 + ep)%nat;
       EpRecord.queens := bracketQueens;
       EpRecord.pointsThisEpisode := EpisodeRes.points episodeRes;
       EpRecord.detail := EpisodeRes.detail episodeRes |} in
  ret (bracketPoints, bracketEpisodeDetails ++ [epRecord], episodes ++ [epRecord]).

(** The body of [brackets.forEach((bracketQueens, bracketIndex) => ...)]. *)
Definition runBracket (acc : list BracketResult.t * list EpRecord.t)
  (indexed : nat * list string) : M (list BracketResult.t * list EpRecord.t) :=
  let '(bracketResults, episodes) := acc in
  let '(bracketIndex, bracketQueens) := indexed in
  '(bracketPoints, bracketEpisodeDetails, episodes) <-
    foldM (runBracketEpisode bracketQueens bracketIndex) [1; 2; 3]%nat
      (zeroPoints bracketQueens, [], episodes) ;;
  let standing := rankByPoints localeCompare bracketPoints in
  ret (bracketResults ++
         [{| BracketResult.bracketIndex := (bracketIndex + 1)%nat;
             BracketResult.queens := bracketQueens;
             BracketResult.points := bracketPoints;
             BracketResult.standings := standing;
             BracketResult.episodes := bracketEpisodeDetails |}],
       episodes).

Definition top3 (br : BracketResult.t) : list string :=
  map Standing.name (firstn 3 (BracketResult.standings br)).

(** The body of the semifinal loop: one elimination. *)
Definition eliminate (acc : list (option string) * list string) (i : nat)
  : M (list (option string) * list string) :=
  let '(semiElims, semiPool) := acc in
  elimIndex <- pickRandomIndex semiPool ;;
  let '(removed, semiPool) := splice1 semiPool elimIndex in
  ret (semiElims ++ [nth_error removed 0], semiPool).

(** [shuffle]: the loop variable [i] runs from [arr.length - 1] down to 1. *)
Fixpoint shuffleLoop (i : nat) (arr : list string) : M (list string) :=
  match i with
  | O => ret arr
  | S i' =>
      v <- next ;;
      let j := Qfloor (times v (inject_Z (Z.of_nat i + 1))) in
      ai <- defined (item arr (Z.of_nat i)) ;;
      aj <- defined (item arr j) ;;
      shuffleLoop i' (assign (assign arr i aj) (Z.to_nat j) ai)
  end.

Definition shuffle (arr : list string) : M (list string) :=
  shuffleLoop (length arr - 1) arr.

(** One round of the finale: the [for] loop over consecutive pairs. *)
Fixpoint playRound (finalContestants : list string) : M (list string * list Pairing.t) :=
  match finalContestants with
  | a :: b :: rest =>
      v <- next ;;
      let winner := if Qltb v (1 # 2) then a else b in
      '(nextRound, roundPairs) <- playRound rest ;;
      ret (winner :: nextRound,
           {| Pairing.a := a; Pairing.b := Some b;
              Pairing.winner := winner; Pairing.bye := false |} :: roundPairs)
  | [a] =>
      ret ([a], [{| Pairing.a := a; Pairing.b := None;
                    Pairing.winner := a; Pairing.bye := true |}])
  | [] => ret ([], [])
  end.

(** [while (finalContestants.length > 1) { ... }] *)
Fixpoint finaleLoop (n : nat) (finalContestants : list string)
  (finaleRounds : list (list Pairing.t)) : M (list string * list (list Pairing.t)) :=
  if (1 <? length finalContestants)%nat then
    match n with
    | O => outOfFuel
    | S n' =>
        '(nextRound, roundPairs) <- playRound finalContestants ;;
        finaleLoop n' nextRound (finaleRounds ++ [roundPairs])
    end
  else ret (finalContestants, finaleRounds).

Definition finale (finalContestants : list string)
  : M (list string * list (list Pairing.t)) :=
  fun fuel => finaleLoop fuel finalContestants [] fuel.

Definition queenName (q : queen) : string :=
  match q with
  | QueenName s => s
  | QueenObject name => name
  end.

(** [clock] is what [new Date().toISOString()] answers when the result is
    built. *)
Definition simulateAllStars10 (initialQueens : list queen) (opts : options)
  (clock : string) : M Season.t :=
  let bracketCount := orDefault (bracketCount opts) 3 in
  let bracketSize := orDefault (bracketSize opts) 6 in
  let queenNames := map queenName initialQueens in
  if negb (length queenNames =? bracketCount * bracketSize)%nat then
    throw (Error (countMessage (bracketCount * bracketSize) (length queenNames)))
  else
    brackets <- lift (sliceIntoBrackets queenNames bracketCount) ;;
    '(bracketResults, episodes) <-
      foldM runBracket (combine (seq 0 (length brackets)) brackets) ([], []) ;;
    let top9 := flat_map top3 bracketResults in
    '(semiElims, semiPool) <- foldM eliminate [0; 1]%nat ([], top9) ;;
    let finalists := semiPool in
    finalContestants <- shuffle finalists ;;
    '(finalContestants, finaleRounds) <- finale finalContestants ;;
    let champion := nth_error finalContestants 0 in
    ret {| Season.meta :=
             {| Meta.format := "All Stars 10 (custom)"; Meta.generatedAt := clock |};
           Season.brackets := bracketResults;
           Season.episodes := episodes;
           Season.top9 := top9;
           Season.semiEliminations := semiElims;
           Season.finalists := finalists;
           Season.finaleRounds := finaleRounds;
           Season.champion := champion |}.

End Simulation.

(** ** Vocabulary of the statements *)

(** The contract of the random source: every answer is a double in [0,1). *)
Definition contract (rng : nat -> Q) : Prop :=
  forall n, isDouble (rng n) /\ (0 <= rng n)%Q /\ (rng n < 1)%Q.

(** The index the [q]-th answer selects in an array of [n] entries. *)
Definition indexAt (rng : nat -> Q) (n q : nat) : Z :=
  Qfloor (times (rng q) (inject_Z (Z.of_nat n))).

(** From every call on, some later answer selects an index other than any
    given one: the answers do not select one index of [n] for ever. *)
Definition fair (rng : nat -> Q) (n : nat) : Prop :=
  forall (c : nat) (a : Z), exists q, (c <= q)%nat /\ indexAt rng n q <> a.

(** Two readings of "the computation [m], started at call [c], ends in a
    result that satisfies [Q]": for every fuel it does so unless the fuel runs
    out ([Partial]); from some fuel on it does so with one and the same
    result ([Total]).  Neither allows an exception or [Undefined]. *)
Inductive mode : Type := Partial | Total.

Definition spec (md : mode) {A : Type} (m : M A) (c : nat) (Q : A -> nat -> Prop) : Prop :=
  match md with
  | Partial =>
      forall fuel,
        match m fuel c with
        | (Return a, c') => Q a c'
        | (OutOfFuel, _) => True
        | _ => False
        end
  | Total =>
      exists a c' f0,
        Q a c' /\ forall fuel, (f0 <= fuel)%nat -> m fuel c = (Return a, c')
  end.

(** The sum of the values of a points object, and of the points of a list
    of queens in it. *)
Definition sumValues (o : pointsObj) : Z :=
  fold_right (fun e acc => snd e + acc) 0 o.

Definition sumOver (o : pointsObj) (qs : list string) : Z :=
  fold_right (fun q acc => pointsOf o q + acc) 0 qs.

(** The object after [o[k] += d] on a name that is there or cannot be
    stored. *)
Definition credit (o : pointsObj) (k : name) (d : Z) : pointsObj :=
  match get o k with Some v => set o k (v + d) | None => o end.

(** The number of peer awards a queen receives in an episode. *)
Definition received (mvqs : list Mvq.t) (q : string) : Z :=
  Z.of_nat (length (filter (fun m => String.eqb (Mvq.to m) q) mvqs)).

(** The number of contestants in a round of the finale, and of byes. *)
Definition participants (round : list Pairing.t) : nat :=
  fold_right (fun p acc => (match Pairing.b p with Some _ => 2 | None => 1 end + acc)%nat)
    0%nat round.

Definition byes (round : list Pairing.t) : nat :=
  length (filter Pairing.bye round).

(** The sizes of the rounds of a single-elimination tournament that starts
    with [n] contestants: [n], half of it rounded up, and so on down to 2. *)
Fixpoint roundSizesFrom (k n : nat) : list nat :=
  match k with
  | O => []
  | S k' => if (1 <? n)%nat then n :: roundSizesFrom k' ((n + 1) / 2) else []
  end.

Definition roundSizes (n : nat) : list nat := roundSizesFrom n n.

(** The members of bracket [k]: the queens whose index in the input leaves
    the remainder [k] when it is divided by [bracketCount], in input order. *)
Definition bracketMembers (queens : list string) (bracketCount k : nat) : list string :=
  map snd
    (filter (fun p => (fst p mod bracketCount =? k)%nat)
       (combine (seq 0 (length queens)) queens)).

(** The result with the timestamp blanked. *)
Definition withoutTimestamp (r : outcome Season.t * nat) : outcome Season.t * nat :=
  match r with
  | (Return s, c) =>
      (Return {| Season.meta := {| Meta.format := Meta.format (Season.meta s);
                                   Meta.generatedAt := "" |};
                 Season.brackets := Season.brackets s;
                 Season.episodes := Season.episodes s;
                 Season.top9 := Season.top9 s;
                 Season.semiEliminations := Season.semiEliminations s;
                 Season.finalists := Season.finalists s;
                 Season.finaleRounds := Season.finaleRounds s;
                 Season.champion := Season.champion s |}, c)
  | other => other
  end.

(** Orders on names.  [codePointCompare] is the lexicographic order of the
    code points.  [lettersCompare] is what [localeCompare] answers on names
    written in ASCII letters under the root collation of ICU: alphabetical
    order first, ignoring case, and between names that differ in case only,
    lower case before upper case. *)
Definition signOf (c : comparison) : Z :=
  match c with Lt => -1 | Eq => 0 | Gt => 1 end.

Definition codePointCompare (a b : string) : Z := signOf (String.compare a b).

Definition lowerOf (c : ascii) : ascii :=
  let n := nat_of_ascii c in
  if ((65 <=? n) && (n <=? 90))%nat then ascii_of_nat (n + 32) else c.

Definition swapCase (c : ascii) : ascii :=
  let n := nat_of_ascii c in
  if ((65 <=? n) && (n <=? 90))%nat then ascii_of_nat (n + 32)
  else if ((97 <=? n) && (n <=? 122))%nat then ascii_of_nat (n - 32)
  else c.

Fixpoint mapString (f : ascii -> ascii) (s : string) : string :=
  match s with
  | EmptyString => EmptyString
  | String c rest => String (f c) (mapString f rest)
  end.

Definition lettersCompare (a b : string) : Z :=
  match String.compare (mapString lowerOf a) (mapString lowerOf b) with
  | Eq => signOf (String.compare (mapString swapCase a) (mapString swapCase b))
  | c => signOf c
  end.

(** What [chooseTwoWinners] answers: the whole group when it has fewer than
    two members, else the queens at two different positions. *)
Definition twoWinners (qs ws : list string) : Prop :=
  ((length qs < 2)%nat /\ ws = qs) \/
  (exists a b wa wb,
      a <> b /\ nth_error qs a = Some wa /\ nth_error qs b = Some wb /\ ws = [wa; wb]).

(** The points of a queen before the peer awards: 2 for each win of the
    maxi challenge, 1 more for the lip-sync. *)
Definition basePoints (d : Detail.t) (q : string) : Z :=
  2 * Z.of_nat (count_occ string_dec (Detail.winners d) q)
  + (if String.eqb (Detail.lipSyncWinner d) q then 1 else 0).

(** What an episode on the group [qs] answers.  The points object has the
    names that it can store as keys; an award to the name [__proto__] is
    recorded in the detail and lost from the points. *)
Record episodeSpec (qs : list string) (r : EpisodeRes.t) : Prop :=
  { es_keys : map fst (EpisodeRes.points r) = map fst (zeroPoints qs);
    es_winners : twoWinners qs (Detail.winners (EpisodeRes.detail r));
    es_lip : In (Detail.lipSyncWinner (EpisodeRes.detail r))
               (Detail.winners (EpisodeRes.detail r));
    es_from : map Mvq.from (Detail.mvqAssignments (EpisodeRes.detail r))
              = filter (fun q => negb (includes (Detail.winners (EpisodeRes.detail r)) q)) qs;
    es_to : forall m, In m (Detail.mvqAssignments (EpisodeRes.detail r)) ->
              Mvq.to m <> Mvq.from m /\ In (Mvq.to m) qs;
    es_points : forall q, In q qs -> storable q = true ->
              get (EpisodeRes.points r) q
              = Some (basePoints (EpisodeRes.detail r) q
                      + received (Detail.mvqAssignments (EpisodeRes.detail r)) q);
    es_sum : sumValues (EpisodeRes.points r)
             = 2 * Z.of_nat (length (filter storable
                                       (Detail.winners (EpisodeRes.detail r))))
               + Z.of_nat (length (filter storable
                                     [Detail.lipSyncWinner (EpisodeRes.detail r)]))
               + Z.of_nat (length (filter (fun m => storable (Mvq.to m))
                                     (Detail.mvqAssignments (EpisodeRes.detail r)))) }.

Definition entryOf (s : Standing.t) : string * Z := (Standing.name s, Standing.points s).

(** The array without its entry at position [k]. *)
Definition removeAt {A : Type} (k : nat) (l : list A) : list A :=
  firstn k l ++ skipn (S k) l.

(** What the record of an episode of bracket number [index] (from 0) on the
    group [qs] holds. *)
Record recordSpec (index : nat) (qs : list string) (rec : EpRecord.t) : Prop :=
  { rs_bracket : EpRecord.bracket rec = (index + 1)%nat;
    rs_global : EpRecord.episodeGlobalNumber rec
                = (index * 3 + EpRecord.episodeNumberInBracket rec)%nat;
    rs_queens : EpRecord.queens rec = qs;
    rs_episode : episodeSpec qs
                   {| EpisodeRes.points := EpRecord.pointsThisEpisode rec;
                      EpisodeRes.detail := EpRecord.detail rec |} }.

(** What the result of bracket number [index] (from 0) on the group [qs]
    holds. *)
Record bracketSpec (lc : string -> string -> Z) (index : nat) (qs : list string)
  (br : BracketResult.t) : Prop :=
  { bs_index : BracketResult.bracketIndex br = (index + 1)%nat;
    bs_queens : BracketResult.queens br = qs;
    bs_keys : map fst (BracketResult.points br) = map fst (zeroPoints qs);
    bs_standings : BracketResult.standings br = rankByPoints lc (BracketResult.points br);
    bs_numbers : map EpRecord.episodeNumberInBracket (BracketResult.episodes br)
                 = [1; 2; 3]%nat;
    bs_records : Forall (recordSpec index qs) (BracketResult.episodes br) }.

(** The semifinal on the pool [pool]: two eliminations, each of the queen
    at some position of what is left. *)
Record semifinalSpec (pool : list string) (elims : list (option string))
  (finalists : list string) : Prop :=
  { sf_two : length elims = 2%nat;
    sf_left : length finalists = (length pool - 2)%nat;
    sf_cut : (2 <= length pool)%nat ->
             exists i1 i2 x1 x2,
               nth_error pool i1 = Some x1 /\
               nth_error (removeAt i1 pool) i2 = Some x2 /\
               elims = [Some x1; Some x2] /\
               finalists = removeAt i2 (removeAt i1 pool) }.

(** The finale on the contestants [cs], in their order after the shuffle. *)
Record finaleSpec (cs fc : list string) (rounds : list (list Pairing.t)) : Prop :=
  { fs_one : length fc = Nat.min 1 (length cs);
    fs_from : incl fc cs;
    fs_sizes : map participants rounds = roundSizes (length cs);
    fs_byes : map byes rounds = map (fun n => n mod 2)%nat (roundSizes (length cs)) }.

(** What a season on the names [names] in [count] brackets holds. *)
Record seasonSpec (lc : string -> string -> Z) (names : list string) (count : nat)
  (clock : string) (r : Season.t) : Prop :=
  { ss_meta : Season.meta r
              = {| Meta.format := "All Stars 10 (custom)"; Meta.generatedAt := clock |};
    ss_brackets : exists bs,
        sliceIntoBrackets names count = Return bs /\
        Forall2 (fun iq br => bracketSpec lc (fst iq) (snd iq) br)
          (combine (seq 0 (length bs)) bs) (Season.brackets r);
    ss_episodes : Season.episodes r
                  = flat_map BracketResult.episodes (Season.brackets r);
    ss_top9 : Season.top9 r = flat_map top3 (Season.brackets r);
    ss_semifinal : semifinalSpec (Season.top9 r) (Season.semiEliminations r)
                     (Season.finalists r);
    ss_finale : exists shuffled fc,
        Permutation shuffled (Season.finalists r) /\
        finaleSpec shuffled fc (Season.finaleRounds r) /\
        Season.champion r = nth_error fc 0 }.

(** Properties of the results of a computation, whatever the call it starts
    at: [onReturn] speaks of every run that does not run out of fuel and
    rules out exceptions and [Undefined]; [returnsWith] says that with enough
    fuel there is a result, and that it has the property. *)
Definition onReturn {A : Type} (m : M A) (P : A -> Prop) : Prop :=
  forall fuel c,
    match m fuel c with
    | (Return a, _) => P a
    | (OutOfFuel, _) => True
    | _ => False
    end.

Definition returnsWith {A : Type} (m : M A) (P : A -> Prop) : Prop :=
  forall c, exists fuel a c', m fuel c = (Return a, c') /\ P a.


(** The order of two standings: more points first, and on equal points the
    name that [lc] puts first. *)
Definition rankedBefore (lc : string -> string -> Z) (a b : Standing.t) : Prop :=
  Standing.points b < Standing.points a \/
  (Standing.points a = Standing.points b /\ lc (Standing.name a) (Standing.name b) <= 0).

(** The points of the two winners of an episode: 3 and 2 plus the peer
    awards each receives. *)
Definition winnersPoints (r : EpisodeRes.t) : Prop :=
  exists w1 w2,
    Detail.winners (EpisodeRes.detail r) = [w1; w2] /\ w1 <> w2 /\
    let lip := Detail.lipSyncWinner (EpisodeRes.detail r) in
    let other := if String.eqb lip w1 then w2 else w1 in
    let mvqs := Detail.mvqAssignments (EpisodeRes.detail r) in
    (lip = w1 \/ lip = w2) /\
    pointsOf (EpisodeRes.points r) lip = 3 + received mvqs lip /\
    pointsOf (EpisodeRes.points r) other = 2 + received mvqs other.

(** One winner ends the episode with exactly 3 points and the other with
    exactly 2. *)
Definition winnersThreeAndTwo (r : EpisodeRes.t) : Prop :=
  exists w1 w2,
    Detail.winners (EpisodeRes.detail r) = [w1; w2] /\
    ((pointsOf (EpisodeRes.points r) w1 = 3 /\ pointsOf (EpisodeRes.points r) w2 = 2) \/
     (pointsOf (EpisodeRes.points r) w1 = 2 /\ pointsOf (EpisodeRes.points r) w2 = 3)).

Definition noSelfAward (qs : list string) (r : EpisodeRes.t) : Prop :=
  forall m, In m (Detail.mvqAssignments (EpisodeRes.detail r)) ->
    Mvq.from m <> Mvq.to m /\ In (Mvq.from m) qs /\ In (Mvq.to m) qs.

(** The shape of a season of 18 queens in 3 brackets of 6. *)
Record defaultShape (names : list string) (r : Season.t) : Prop :=
  { ds_brackets : length (Season.brackets r) = 3%nat;
    ds_records : Forall (fun br => length (BracketResult.episodes br) = 3%nat)
                   (Season.brackets r);
    ds_episodes : length (Season.episodes r) = 9%nat;
    ds_top9 : length (Season.top9 r) = 9%nat;
    ds_semi : length (Season.semiEliminations r) = 2%nat;
    ds_finalists : length (Season.finalists r) = 7%nat;
    ds_rounds : map participants (Season.finaleRounds r) = [7; 4; 2]%nat;
    ds_byes : map byes (Season.finaleRounds r) = [1; 0; 0]%nat;
    ds_champion : exists ch, Season.champion r = Some ch /\ In ch names }.


(** ** Sample inputs *)

Definition sixQueens : list string := ["A"; "B"; "C"; "D"; "E"; "F"].

Definition eighteenQueens : list queen :=
  map QueenName
    ["A"; "B"; "C"; "D"; "E"; "F"; "G"; "H"; "I";
     "J"; "K"; "L"; "M"; "N"; "O"; "P"; "Q"; "R"].

(** A source that answers 0 and 0.5 in turn, and one that answers 0 always. *)
Definition alternating (n : nat) : Q := if Nat.even n then 0 else 1 # 2.

Definition alwaysZero (n : nat) : Q := 0.

(** ** Further vocabulary *)

(** The entries of an array that are not [undefined]. *)
Definition definedOnes {A : Type} (l : list (option A)) : list A :=
  flat_map (fun o => match o with Some a => [a] | None => [] end) l.

(** The contestants of a pairing, and what a recorded pairing has to look
    like: the winner is one of the two, or the only one when it is a bye. *)
Definition contestantsOf (p : Pairing.t) : list string :=
  Pairing.a p :: match Pairing.b p with Some b => [b] | None => [] end.

Definition soundPairing (p : Pairing.t) : Prop :=
  match Pairing.b p with
  | Some b => (Pairing.winner p = Pairing.a p \/ Pairing.winner p = b) /\ Pairing.bye p = false
  | None => Pairing.winner p = Pairing.a p /\ Pairing.bye p = true
  end.

(** A tournament from the contestants [cs] to the survivors [fc]: every
    round pairs the contestants it gets in their order, and its winners, in
    the order of the pairings, are the contestants of the next round. *)
Fixpoint tournament (cs : list string) (rounds : list (list Pairing.t))
  (fc : list string) : Prop :=
  match rounds with
  | [] => fc = cs /\ (length cs <= 1)%nat
  | pairs :: rest =>
      (1 < length cs)%nat /\
      flat_map contestantsOf pairs = cs /\
      Forall soundPairing pairs /\
      tournament (map Pairing.winner pairs) rest fc
  end.

(** The points of a queen, and of all queens, over a list of episodes. *)
Definition episodePointsOf (q : string) (eps : list EpRecord.t) : Z :=
  fold_right (fun rec acc => pointsOf (EpRecord.pointsThisEpisode rec) q + acc) 0 eps.

Definition episodeTotals (eps : list EpRecord.t) : Z :=
  fold_right (fun rec acc => sumValues (EpRecord.pointsThisEpisode rec) + acc) 0 eps.

(** The points of a bracket are those of its episodes, name by name of
    the points object and in total. *)
Record bracketLedger (br : BracketResult.t) : Prop :=
  { bl_queen : forall q, In q (Object_keys (BracketResult.points br)) ->
      pointsOf (BracketResult.points br) q = episodePointsOf q (BracketResult.episodes br);
    bl_total : sumValues (BracketResult.points br)
               = episodeTotals (BracketResult.episodes br) }.

(** The numbers the records of a season of [count] brackets carry: the
    brackets are numbered from 1, the episodes from 1 through the season,
    three to a bracket. *)
Record seasonNumbering (count : nat) (r : Season.t) : Prop :=
  { sn_brackets : map BracketResult.bracketIndex (Season.brackets r) = seq 1 count;
    sn_global : map EpRecord.episodeGlobalNumber (Season.episodes r) = seq 1 (3 * count);
    sn_local : Forall (fun rec =>
                 EpRecord.bracket rec = ((EpRecord.episodeGlobalNumber rec - 1) / 3 + 1)%nat /\
                 EpRecord.episodeNumberInBracket rec
                 = ((EpRecord.episodeGlobalNumber rec - 1) mod 3 + 1)%nat)
                 (Season.episodes r) }.

(** No queen of the standings outside the three leaders has more points
    than one of the three. *)
Definition leadersAhead (br : BracketResult.t) : Prop :=
  forall q q',
    In q (top3 br) -> In q' (map Standing.name (BracketResult.standings br)) ->
    ~ In q' (top3 br) ->
    pointsOf (BracketResult.points br) q' <= pointsOf (BracketResult.points br) q.

(** The champion is a finalist that the semifinal did not eliminate; there
    is none only when there is no finalist. *)
Definition championStands (r : Season.t) : Prop :=
  match Season.champion r with
  | Some ch => In ch (Season.finalists r) /\ ~ In (Some ch) (Season.semiEliminations r)
  | None => Season.finalists r = []
  end.

(** Every bracket of the season keeps the ledger of its episodes. *)
Definition seasonLedger (r : Season.t) : Prop :=
  Forall bracketLedger (Season.brackets r).

(** The finale of the season is a tournament on its finalists in some
    order, and the champion is its survivor. *)
Definition seasonFinale (r : Season.t) : Prop :=
  exists shuffled fc,
    Permutation shuffled (Season.finalists r) /\
    tournament shuffled (Season.finaleRounds r) fc /\
    Season.champion r = nth_error fc 0.

(** The champion wins a pairing in every round of the finale; without
    champion no round is played. *)
Definition championWinsThrough (r : Season.t) : Prop :=
  match Season.champion r with
  | Some ch =>
      Forall (fun pairs => exists p, In p pairs /\ Pairing.winner p = ch)
        (Season.finaleRounds r)
  | None => Season.finaleRounds r = []
  end.

(** * Properties *)

(** ** Rounding to the nearest double *)

Lemma roundHalfEven_bounds (q : Q) :
  (q - (1 # 2) <= inject_Z (roundHalfEven q) <= q + (1 # 2))%Q.
Proof.
  unfold roundHalfEven.
  pose proof (Qfloor_le q) as Hlo. pose proof (Qlt_floor q) as Hhi.
  rewrite inject_Z_plus in Hhi. change (inject_Z 1) with 1%Q in Hhi.
  destruct (Qcompare_spec (q - inject_Z (Qfloor q)) (1 # 2)) as [E | E | E].
  - destruct (Z.even (Qfloor q)); [ | rewrite inject_Z_plus; change (inject_Z 1) with 1%Q ];
      lra.
  - lra.
  - rewrite inject_Z_plus. change (inject_Z 1) with 1%Q. lra.
Qed.

Lemma roundHalfEven_nonneg (q : Q) : (0 <= q)%Q -> 0 <= roundHalfEven q.
Proof.
  intros Hq. assert (H : 0 <= Qfloor q).
  { change 0 with (Qfloor 0). apply Qfloor_resp_le. exact Hq. }
  unfold roundHalfEven.
  destruct (q - inject_Z (Qfloor q) ?= 1 # 2)%Q; [destruct (Z.even (Qfloor q)) | | ]; lia.
Qed.

Lemma roundHalfEven_comp (p q : Q) : (p == q)%Q -> roundHalfEven p = roundHalfEven q.
Proof.
  intros E. unfold roundHalfEven. rewrite (Qfloor_comp p q E).
  assert (E' : (p - inject_Z (Qfloor q) == q - inject_Z (Qfloor q))%Q) by (rewrite E; reflexivity).
  rewrite (Qcompare_comp _ _ E' (1 # 2) (1 # 2) (Qeq_refl _)). reflexivity.
Qed.

Lemma pow2_pos (s : Z) : 0 <= s -> (0 < inject_Z (2 ^ s))%Q.
Proof.
  intros Hs. change 0%Q with (inject_Z 0). rewrite <- Zlt_Qlt. apply Z.pow_pos_nonneg; lia.
Qed.

Lemma roundMagnitude_comp (x y : Q) : (x == y)%Q -> (roundMagnitude x == roundMagnitude y)%Q.
Proof.
  intros E. unfold roundMagnitude.
  assert (Es : (x * inject_Z (2 ^ 1074) == y * inject_Z (2 ^ 1074))%Q) by (rewrite E; reflexivity).
  rewrite (Qfloor_comp _ _ Es).
  set (s := Z.max 0 (Z.log2 (Qfloor (y * inject_Z (2 ^ 1074))) - 52)).
  rewrite (roundHalfEven_comp (x * inject_Z (2 ^ 1074) / inject_Z (2 ^ s))
             (y * inject_Z (2 ^ 1074) / inject_Z (2 ^ s))); [reflexivity | ].
  rewrite Es. reflexivity.
Qed.

Lemma roundDouble_comp (x y : Q) : (x == y)%Q -> (roundDouble x == roundDouble y)%Q.
Proof.
  intros E. unfold roundDouble. rewrite (Qleb_comp 0%Q 0%Q (Qeq_refl 0%Q) x y E).
  destruct (Qle_bool 0 y).
  - apply roundMagnitude_comp. exact E.
  - apply Qopp_comp. apply roundMagnitude_comp. rewrite E. reflexivity.
Qed.

Lemma roundMagnitude_nonneg (x : Q) : (0 <= x)%Q -> (0 <= roundMagnitude x)%Q.
Proof.
  intros Hx. unfold roundMagnitude.
  set (scaled := (x * inject_Z (2 ^ 1074))%Q).
  set (s := Z.max 0 (Z.log2 (Qfloor scaled) - 52)).
  pose proof (pow2_pos 1074 ltac:(lia)) as HS.
  pose proof (pow2_pos s ltac:(lia)) as HP.
  apply Qle_shift_div_l; [exact HS | ]. rewrite Qmult_0_l.
  change 0%Q with (inject_Z 0). rewrite <- Zle_Qle.
  apply Z.mul_nonneg_nonneg; [ | apply Z.pow_nonneg; lia ].
  apply roundHalfEven_nonneg. apply Qle_shift_div_l; [exact HP | ].
  rewrite Qmult_0_l. unfold scaled. apply Qmult_le_0_compat; [exact Hx | lra].
Qed.

(** Rounding adds at most half a unit in the last place: a relative error of
    2^-53, or 2^-1075 among the subnormal numbers. *)
Lemma roundMagnitude_upper (x : Q) :
  (0 <= x)%Q ->
  (roundMagnitude x <= x + x * (1 # 2 ^ 53) + (1 # 2 ^ 1075))%Q.
Proof.
  intros Hx. unfold roundMagnitude.
  set (W := inject_Z (2 ^ 1074)).
  set (scaled := (x * W)%Q).
  set (s := Z.max 0 (Z.log2 (Qfloor scaled) - 52)).
  set (P := inject_Z (2 ^ s)).
  assert (HS : (0 < W)%Q) by (apply pow2_pos; lia).
  assert (HP : (0 < P)%Q) by (apply pow2_pos; lia).
  assert (Hscaled : (0 <= scaled)%Q) by (apply Qmult_le_0_compat; [exact Hx | lra]).
  destruct (roundHalfEven_bounds (scaled / P)) as [_ Hk].
  set (k := roundHalfEven (scaled / P)) in *.
  rewrite inject_Z_mult. fold P.
  (* k * P <= scaled + P / 2 *)
  assert (H1 : (inject_Z k * P <= scaled + P * (1 # 2))%Q).
  { assert (E : (scaled == scaled / P * P)%Q) by (field; lra).
    rewrite E at 1. 
    setoid_replace (scaled / P * P + P * (1 # 2))%Q with ((scaled / P + (1 # 2)) * P)%Q by ring.
    apply Qmult_le_compat_r; lra. }
  (* P / 2 <= scaled / 2^53 + 1/2 *)
  assert (H2 : (P * (1 # 2) <= scaled * (1 # 2 ^ 53) + (1 # 2))%Q).
  { destruct (Z.max_spec 0 (Z.log2 (Qfloor scaled) - 52)) as [[Hlt E] | [Hge E]]; fold s in E.
    - assert (Hf : 0 < Qfloor scaled).
      { destruct (Z.lt_trichotomy 0 (Qfloor scaled)) as [H | [H | H]]; [exact H | | ].
        - rewrite <- H in Hlt. cbn in Hlt. lia.
        - rewrite Z.log2_nonpos in Hlt by lia. lia. }
      pose proof (Z.log2_spec _ Hf) as [Hlog _].
      replace (Z.log2 (Qfloor scaled)) with (s + 52) in Hlog by lia.
      rewrite Z.pow_add_r in Hlog by lia.
      assert (HQ : (P * inject_Z (2 ^ 52) <= scaled)%Q).
      { eapply Qle_trans; [ | apply Qfloor_le ]. unfold P. rewrite <- inject_Z_mult.
        rewrite <- Zle_Qle. exact Hlog. }
      assert (E52 : (inject_Z (2 ^ 52) == 4503599627370496)%Q) by reflexivity.
      rewrite E52 in HQ.
      change (2 ^ 53)%positive with 9007199254740992%positive. lra.
    - unfold P. rewrite E. change (inject_Z (2 ^ 0)) with 1%Q.
      change (2 ^ 53)%positive with 9007199254740992%positive. lra. }
  apply Qle_shift_div_r; [exact HS | ].
  assert (E75 : ((1 # 2 ^ 1075) * W == 1 # 2)%Q) by reflexivity.
  setoid_replace ((x + x * (1 # 2 ^ 53) + (1 # 2 ^ 1075)) * W)%Q
    with (scaled + scaled * (1 # 2 ^ 53) + (1 # 2 ^ 1075) * W)%Q by (unfold scaled; ring).
  rewrite E75. lra.
Qed.

Lemma roundDouble_nonneg (x : Q) : (0 <= x)%Q -> roundDouble x = roundMagnitude x.
Proof.
  intros Hx. unfold roundDouble. apply Qle_bool_iff in Hx. rewrite Hx. reflexivity.
Qed.

(** The doubles below 1 end at [1 - 2^-53]. *)
Lemma double_below_one (v : Q) :
  isDouble v -> (0 <= v)%Q -> (v < 1)%Q -> (v <= 1 - (1 # 2 ^ 53))%Q.
Proof.
  intros Hd H0 H1. change (2 ^ 53)%positive with 9007199254740992%positive.
  destruct (Qlt_le_dec v (1 # 2)) as [Hhalf | Hhalf]; [lra | ].
  destruct Hd as [Hd _]. rewrite (roundDouble_nonneg v H0) in Hd. unfold roundMagnitude in Hd.
  set (W := inject_Z (2 ^ 1074)) in *.
  set (scaled := (v * W)%Q) in *.
  assert (HS : (0 < W)%Q) by (apply pow2_pos; lia).
  assert (Hlo : 2 ^ 1073 <= Qfloor scaled).
  { rewrite <- (Qfloor_Z (2 ^ 1073)). apply Qfloor_resp_le.
    assert (E : (inject_Z (2 ^ 1073) == (1 # 2) * W)%Q) by reflexivity.
    rewrite E. unfold scaled. apply Qmult_le_compat_r; lra. }
  assert (Hhi : Qfloor scaled < 2 ^ 1074).
  { rewrite Zlt_Qlt. eapply Qle_lt_trans; [apply Qfloor_le | ].
    fold W. unfold scaled. setoid_replace W with (1 * W)%Q at 2 by ring.
    apply Qmult_lt_compat_r; assumption. }
  assert (Hlog : Z.log2 (Qfloor scaled) = 1073).
  { apply Z.log2_unique; [lia | ]. split; [exact Hlo | exact Hhi]. }
  rewrite Hlog in Hd. change (Z.max 0 (1073 - 52)) with 1021 in Hd.
  set (k := roundHalfEven (scaled / inject_Z (2 ^ 1021))) in *.
  assert (Hk : k * 2 ^ 1021 < 2 ^ 53 * 2 ^ 1021).
  { rewrite <- Z.pow_add_r by lia. change (53 + 1021) with 1074.
    rewrite Zlt_Qlt. fold W.
    assert (E : (inject_Z (k * 2 ^ 1021) == v * W)%Q).
    { rewrite <- Hd. field. lra. }
    rewrite E. setoid_replace W with (1 * W)%Q at 2 by ring.
    apply Qmult_lt_compat_r; assumption. }
  apply Z.mul_lt_mono_pos_r in Hk; [ | apply Z.pow_pos_nonneg; lia ].
  assert (Hk' : k * 2 ^ 1021 <= (2 ^ 53 - 1) * 2 ^ 1021).
  { apply Z.mul_le_mono_nonneg_r; [apply Z.pow_nonneg; lia | lia]. }
  rewrite Zle_Qle in Hk'.
  rewrite <- Hd. apply Qle_shift_div_r; [exact HS | ].
  eapply Qle_trans; [exact Hk' | ].
  assert (E : (inject_Z ((2 ^ 53 - 1) * 2 ^ 1021) == (1 - (1 # 9007199254740992)) * W)%Q)
    by reflexivity.
  rewrite E. apply Qle_refl.
Qed.

(** [Math.floor(v * n)] for a draw [v] and an array length [n]: the product
    of a double below 1 with [n] rounds to a number below [n]. *)
Lemma index_in_range (v : Q) (n : nat) :
  isDouble v -> (0 <= v)%Q -> (v < 1)%Q -> (0 < n)%nat ->
  0 <= Qfloor (times v (inject_Z (Z.of_nat n))) < Z.of_nat n.
Proof.
  intros Hd H0 H1 Hn. unfold times.
  pose proof (double_below_one v Hd H0 H1) as Hv.
  assert (HN : (1 <= inject_Z (Z.of_nat n))%Q).
  { change 1%Q with (inject_Z 1). rewrite <- Zle_Qle. lia. }
  set (N := inject_Z (Z.of_nat n)) in *.
  assert (Hx : (0 <= v * N)%Q) by (apply Qmult_le_0_compat; lra).
  rewrite (roundDouble_nonneg _ Hx).
  pose proof (roundMagnitude_nonneg _ Hx) as Hlo.
  pose proof (roundMagnitude_upper _ Hx) as Hhi.
  split.
  - change 0 with (Qfloor 0). apply Qfloor_resp_le. exact Hlo.
  - apply Z.lt_nge. intros Hge.
    assert (Hle : (N <= roundMagnitude (v * N))%Q).
    { eapply Qle_trans; [ | apply Qfloor_le ]. unfold N. rewrite <- Zle_Qle. exact Hge. }
    assert (HvN : (v * N <= (1 - (1 # 2 ^ 53)) * N)%Q) by (apply Qmult_le_compat_r; lra).
    assert (Hsmall : ((1 # 2 ^ 1075) < (1 # 2 ^ 53) * (1 # 2 ^ 53))%Q) by reflexivity.
    set (x := (v * N)%Q) in *. set (r := roundMagnitude x) in *.
    set (d := (1 # 2 ^ 1075)%Q) in *.
    change (2 ^ 53)%positive with 9007199254740992%positive in *.
    clearbody d r x N. clear - Hle Hhi HvN Hsmall HN. lra.
Qed.

Lemma index_of_empty (v : Q) : Qfloor (times v (inject_Z (Z.of_nat 0))) = 0.
Proof.
  unfold times. transitivity (Qfloor 0); [ | reflexivity ]. apply Qfloor_comp.
  rewrite (roundDouble_comp _ 0); [reflexivity | ]. cbn [Z.of_nat]. ring.
Qed.

Lemma item_in_range {A : Type} (arr : list A) (i : Z) :
  0 <= i < Z.of_nat (length arr) ->
  exists x, item arr i = Some x /\ nth_error arr (Z.to_nat i) = Some x /\ In x arr.
Proof.
  intros Hi. unfold item.
  destruct (i <? 0) eqn:E; [apply Z.ltb_lt in E; lia | ].
  destruct (nth_error arr (Z.to_nat i)) as [x | ] eqn:Hx.
  - exists x. repeat split; try reflexivity. eapply nth_error_In; eassumption.
  - apply nth_error_None in Hx. lia.
Qed.

Lemma item_Some {A : Type} (arr : list A) (i : Z) (x : A) :
  item arr i = Some x ->
  0 <= i < Z.of_nat (length arr) /\ nth_error arr (Z.to_nat i) = Some x /\ In x arr.
Proof.
  unfold item. destruct (i <? 0) eqn:E; [discriminate | ].
  apply Z.ltb_ge in E. intros Hx.
  assert (Hlen : (Z.to_nat i < length arr)%nat).
  { apply nth_error_Some. congruence. }
  repeat split; try lia; try assumption. eapply nth_error_In; eassumption.
Qed.

(** ** Rules of [spec] *)

Section SpecRules.

Variable md : mode.

Lemma spec_pure {A : Type} (m : M A) (c : nat) (a : A) (c' : nat) (Q : A -> nat -> Prop) :
  (forall fuel, m fuel c = (Return a, c')) -> Q a c' -> spec md m c Q.
Proof.
  intros Hm HQ. destruct md; simpl.
  - intros fuel. rewrite Hm. exact HQ.
  - exists a, c', 0%nat. split; [exact HQ | intros; apply Hm].
Qed.

Lemma spec_ret {A : Type} (a : A) (c : nat) (Q : A -> nat -> Prop) :
  Q a c -> spec md (ret a) c Q.
Proof. intros. eapply spec_pure; [ reflexivity | assumption ]. Qed.

Lemma spec_bind {A B : Type} (m : M A) (k : A -> M B) (c : nat) (Q : B -> nat -> Prop) :
  spec md m c (fun a c' => spec md (k a) c' Q) -> spec md (bind m k) c Q.
Proof.
  destruct md; simpl.
  - intros H fuel. specialize (H fuel). unfold bind.
    destruct (m fuel c) as [[a | e | | ] c']; try exact H. apply H.
  - intros (a & c' & f0 & (b & c'' & f1 & HQ & Hk) & Hm).
    exists b, c'', (Nat.max f0 f1). split; [exact HQ | ].
    intros fuel Hfuel. unfold bind. rewrite Hm by lia. apply Hk. lia.
Qed.

Lemma spec_conseq {A : Type} (m : M A) (c : nat) (Q Q' : A -> nat -> Prop) :
  spec md m c Q -> (forall a c', Q a c' -> Q' a c') -> spec md m c Q'.
Proof.
  destruct md; simpl.
  - intros H HQ fuel. specialize (H fuel).
    destruct (m fuel c) as [[a | e | | ] c']; auto.
  - intros (a & c' & f0 & H & Hm) HQ. exists a, c', f0. auto.
Qed.

Lemma spec_defined {A : Type} (o : option A) (a : A) (c : nat) (Q : A -> nat -> Prop) :
  o = Some a -> Q a c -> spec md (defined o) c Q.
Proof. intros -> HQ. apply spec_ret. exact HQ. Qed.

Lemma spec_lift {A : Type} (o : outcome A) (a : A) (c : nat) (Q : A -> nat -> Prop) :
  o = Return a -> Q a c -> spec md (lift o) c Q.
Proof. intros -> HQ. eapply spec_pure; [ reflexivity | assumption ]. Qed.

(** A loop over a list keeps an invariant that may mention what is left. *)
Lemma spec_foldM {A S : Type} (body : S -> A -> M S) (Inv : list A -> S -> nat -> Prop) :
  (forall x rest s c, Inv (x :: rest) s c ->
     spec md (body s x) c (fun s' c' => Inv rest s' c')) ->
  forall l s c, Inv l s c -> spec md (foldM body l s) c (fun s' c' => Inv [] s' c').
Proof.
  intros Hbody. induction l as [ | x rest IH]; intros s c HInv; simpl.
  - apply spec_ret. exact HInv.
  - apply spec_bind. eapply spec_conseq; [ apply Hbody; exact HInv | ].
    intros s' c' H'. apply IH. exact H'.
Qed.

End SpecRules.

(** What the two readings say about a single run. *)
Lemma spec_partial_run {A : Type} (m : M A) (c : nat) (Q : A -> nat -> Prop)
  (fuel : nat) (a : A) (c' : nat) :
  spec Partial m c Q -> m fuel c = (Return a, c') -> Q a c'.
Proof. intros H Hm. specialize (H fuel). rewrite Hm in H. exact H. Qed.

Lemma spec_total_run {A : Type} (m : M A) (c : nat) (Q : A -> nat -> Prop) :
  spec Total m c Q -> exists fuel a c', m fuel c = (Return a, c') /\ Q a c'.
Proof.
  intros (a & c' & f0 & HQ & Hm). exists f0, a, c'. split; [apply Hm; lia | exact HQ].
Qed.

(** ** Points objects *)

Lemma get_Some_In (o : pointsObj) (k : string) (v : Z) :
  get o k = Some v -> In k (map fst o).
Proof.
  induction o as [ | [k' v'] rest IH]; simpl; [discriminate | ].
  destruct (String.eqb_spec k k').
  - intros _. left. congruence.
  - intros H. right. auto.
Qed.

Lemma get_In (o : pointsObj) (k : string) :
  In k (map fst o) -> exists v, get o k = Some v.
Proof.
  induction o as [ | [k' v'] rest IH]; simpl; [tauto | ].
  intros H. destruct (String.eqb_spec k k').
  - eauto.
  - destruct H; [congruence | auto].
Qed.

Lemma pointsOf_get (o : pointsObj) (k : string) :
  In k (map fst o) -> get o k = Some (pointsOf o k).
Proof.
  intros H. destruct (get_In o k H) as [v Hv]. unfold pointsOf. rewrite Hv. reflexivity.
Qed.

Lemma hasOwn_In (o : pointsObj) (k : string) : hasOwn o k = true <-> In k (map fst o).
Proof.
  unfold hasOwn. split.
  - destruct (get o k) as [v | ] eqn:E; [intros _; eapply get_Some_In; exact E | discriminate].
  - intros H. destruct (get_In o k H) as [v ->]. reflexivity.
Qed.

Lemma hasOwn_keys (o o' : pointsObj) (k : string) :
  map fst o' = map fst o -> hasOwn o' k = hasOwn o k.
Proof.
  intros E. destruct (hasOwn o k) eqn:H.
  - apply hasOwn_In. rewrite E. apply hasOwn_In. exact H.
  - destruct (hasOwn o' k) eqn:H'; [ | reflexivity ].
    apply hasOwn_In in H'. rewrite E in H'. apply hasOwn_In in H'. congruence.
Qed.

Lemma get_None_notIn (o : pointsObj) (k : string) : get o k = None <-> ~ In k (map fst o).
Proof.
  split.
  - intros E H. destruct (get_In o k H) as [v Hv]. congruence.
  - intros H. destruct (get o k) as [v | ] eqn:E; [ | reflexivity ].
    exfalso. apply H. eapply get_Some_In. exact E.
Qed.

Lemma storable_true (k : string) : storable k = true <-> k <> "__proto__".
Proof.
  unfold storable. destruct (String.eqb_spec k "__proto__"); simpl; split; congruence.
Qed.

Lemma keys_setOwn_In (o : pointsObj) (k : string) (v : Z) :
  In k (map fst o) -> map fst (setOwn o k v) = map fst o.
Proof.
  induction o as [ | [k' v'] rest IH]; simpl; [tauto | ].
  intros H. destruct (String.eqb_spec k k'); simpl.
  - reflexivity.
  - f_equal. apply IH. destruct H; [congruence | assumption].
Qed.

Lemma keys_setOwn_new (o : pointsObj) (k : string) (v : Z) :
  ~ In k (map fst o) -> map fst (setOwn o k v) = map fst o ++ [k].
Proof.
  induction o as [ | [k' v'] rest IH]; simpl; [reflexivity | ].
  intros H. destruct (String.eqb_spec k k'); simpl.
  - exfalso. apply H. left. congruence.
  - f_equal. apply IH. tauto.
Qed.

Lemma get_setOwn_same (o : pointsObj) (k : string) (v : Z) : get (setOwn o k v) k = Some v.
Proof.
  induction o as [ | [k' v'] rest IH]; simpl.
  - rewrite String.eqb_refl. reflexivity.
  - destruct (String.eqb_spec k k') as [E | E]; simpl.
    + subst. rewrite String.eqb_refl. reflexivity.
    + destruct (String.eqb_spec k k'); [contradiction | exact IH].
Qed.

Lemma get_setOwn_other (o : pointsObj) (k q : string) (v : Z) :
  q <> k -> get (setOwn o k v) q = get o q.
Proof.
  intros Hq. induction o as [ | [k' v'] rest IH]; simpl.
  - destruct (String.eqb_spec q k); [contradiction | reflexivity].
  - destruct (String.eqb_spec k k') as [E | E]; simpl.
    + subst. destruct (String.eqb_spec q k'); [contradiction | reflexivity].
    + destruct (String.eqb_spec q k'); [reflexivity | exact IH].
Qed.

Lemma sumValues_setOwn (o : pointsObj) (k : string) (v w : Z) :
  get o k = Some v -> sumValues (setOwn o k w) = sumValues o - v + w.
Proof.
  induction o as [ | [k' v'] rest IH]; simpl; [discriminate | ].
  destruct (String.eqb_spec k k'); simpl.
  - intros [= ->]. lia.
  - intros H. rewrite (IH H). lia.
Qed.

(** An assignment stores on a name that is there or that can be stored, and
    nothing on [__proto__] otherwise. *)
Lemma set_stored (o : pointsObj) (k : string) (v : Z) :
  In k (map fst o) -> set o k v = setOwn o k v.
Proof. intros H. unfold set. destruct (get_In o k H) as [w ->]. reflexivity. Qed.

Lemma set_storable (o : pointsObj) (k : string) (v : Z) :
  storable k = true -> set o k v = setOwn o k v.
Proof. intros H. unfold set. rewrite H. destruct (get o k); reflexivity. Qed.

Lemma set_lost (o : pointsObj) (k : string) (v : Z) :
  ~ In k (map fst o) -> storable k = false -> set o k v = o.
Proof.
  intros H Hs. unfold set. apply get_None_notIn in H. rewrite H, Hs. reflexivity.
Qed.

Lemma keys_set_In (o : pointsObj) (k : string) (v : Z) :
  In k (map fst o) -> map fst (set o k v) = map fst o.
Proof. intros H. rewrite set_stored by exact H. apply keys_setOwn_In. exact H. Qed.

Lemma keys_set_new (o : pointsObj) (k : string) (v : Z) :
  ~ In k (map fst o) -> storable k = true -> map fst (set o k v) = map fst o ++ [k].
Proof. intros H Hs. rewrite set_storable by exact Hs. apply keys_setOwn_new. exact H. Qed.

Lemma get_set_same (o : pointsObj) (k : string) (v : Z) :
  In k (map fst o) \/ storable k = true -> get (set o k v) k = Some v.
Proof.
  intros [H | H]; [rewrite set_stored by exact H | rewrite set_storable by exact H];
    apply get_setOwn_same.
Qed.

Lemma get_set_other (o : pointsObj) (k q : string) (v : Z) :
  q <> k -> get (set o k v) q = get o q.
Proof.
  intros Hq. unfold set.
  destruct (get o k); [apply get_setOwn_other; exact Hq | ].
  destruct (storable k); [apply get_setOwn_other; exact Hq | reflexivity].
Qed.

Lemma sumValues_set (o : pointsObj) (k : string) (v w : Z) :
  get o k = Some v -> sumValues (set o k w) = sumValues o - v + w.
Proof.
  intros H. rewrite set_stored by (eapply get_Some_In; exact H).
  apply sumValues_setOwn. exact H.
Qed.

Lemma sumOver_skip (o : pointsObj) (k : string) (v : Z) (qs : list string) :
  ~ In k qs -> sumOver ((k, v) :: o) qs = sumOver o qs.
Proof.
  induction qs as [ | q rest IH]; simpl; [reflexivity | ].
  intros H. rewrite IH by tauto. unfold pointsOf. simpl.
  destruct (String.eqb_spec q k); [exfalso; apply H; left; congruence | reflexivity].
Qed.

Lemma sumOver_keys (o : pointsObj) :
  NoDup (map fst o) -> sumOver o (map fst o) = sumValues o.
Proof.
  induction o as [ | [k v] rest IH]; simpl; [reflexivity | ].
  intros H. inversion H as [ | ? ? Hk Hrest]; subst.
  rewrite sumOver_skip by assumption. rewrite IH by assumption.
  unfold pointsOf. simpl. rewrite String.eqb_refl. reflexivity.
Qed.

(** [zeroPoints]: one key per distinct name that can be stored, in order of
    first appearance, every value 0. *)
Lemma zero_fold_keys (qs : list string) (o : pointsObj) :
  forall q, In q (map fst (fold_left (fun o q => set o q 0) qs o))
            <-> In q (map fst o) \/ (In q qs /\ storable q = true).
Proof.
  revert o. induction qs as [ | x rest IH]; intros o q; simpl; [tauto | ].
  rewrite IH.
  destruct (in_dec string_dec x (map fst o)) as [Hx | Hx].
  - rewrite keys_set_In by assumption. intuition (subst; auto).
  - destruct (storable x) eqn:Hs.
    + rewrite keys_set_new by assumption. rewrite in_app_iff. simpl.
      intuition (subst; auto).
    + rewrite set_lost by assumption. intuition (subst; auto). congruence.
Qed.

Lemma zero_fold_NoDup (qs : list string) (o : pointsObj) :
  NoDup (map fst o) -> NoDup (map fst (fold_left (fun o q => set o q 0) qs o)).
Proof.
  revert o. induction qs as [ | x rest IH]; intros o H; simpl; [assumption | ].
  apply IH.
  destruct (in_dec string_dec x (map fst o)) as [Hx | Hx].
  - rewrite keys_set_In; assumption.
  - destruct (storable x) eqn:Hs; [ | rewrite set_lost; assumption ].
    rewrite keys_set_new by assumption.
    apply NoDup_app; [assumption | repeat constructor; simpl; tauto | ].
    intros y Hy [<- | []]. contradiction.
Qed.

Lemma zero_fold_values (qs : list string) (o : pointsObj) :
  (forall q v, get o q = Some v -> v = 0) ->
  forall q v, get (fold_left (fun o q => set o q 0) qs o) q = Some v -> v = 0.
Proof.
  revert o. induction qs as [ | x rest IH]; intros o H q v; simpl; [apply H | ].
  apply IH. intros q' v'. destruct (string_dec q' x) as [-> | Hne].
  - destruct (in_dec string_dec x (map fst o)) as [Hx | Hx].
    + rewrite get_set_same by (left; exact Hx). congruence.
    + destruct (storable x) eqn:Hs.
      * rewrite get_set_same by (right; exact Hs). congruence.
      * rewrite set_lost by assumption. apply H.
  - rewrite get_set_other by assumption. apply H.
Qed.

Lemma zero_fold_distinct (qs : list string) (o : pointsObj) :
  NoDup qs -> (forall q, In q qs -> ~ In q (map fst o)) ->
  map fst (fold_left (fun o q => set o q 0) qs o) = map fst o ++ filter storable qs.
Proof.
  revert o. induction qs as [ | x rest IH]; intros o Hnd Hfresh; simpl.
  - rewrite app_nil_r. reflexivity.
  - inversion Hnd as [ | ? ? Hx Hrest]; subst.
    assert (Hxo : ~ In x (map fst o)) by (apply Hfresh; left; reflexivity).
    destruct (storable x) eqn:Hs.
    + rewrite IH; [ | assumption | ].
      * rewrite keys_set_new by assumption. rewrite <- app_assoc. reflexivity.
      * intros q Hq. rewrite keys_set_new by assumption.
        rewrite in_app_iff. simpl. intros [H | [<- | []]].
        -- apply (Hfresh q); [right; assumption | assumption].
        -- contradiction.
    + rewrite set_lost by assumption. apply IH; [assumption | ].
      intros q Hq. apply Hfresh. right. exact Hq.
Qed.

Lemma zeroPoints_In (qs : list string) (q : string) :
  In q (map fst (zeroPoints qs)) <-> In q qs /\ storable q = true.
Proof. unfold zeroPoints. rewrite zero_fold_keys. simpl. tauto. Qed.

Lemma zeroPoints_NoDup (qs : list string) : NoDup (map fst (zeroPoints qs)).
Proof. apply zero_fold_NoDup. constructor. Qed.

Lemma zeroPoints_keys (qs : list string) :
  NoDup qs -> map fst (zeroPoints qs) = filter storable qs.
Proof. intros H. unfold zeroPoints. rewrite zero_fold_distinct; auto. Qed.

Lemma filter_storable (qs : list string) : ~ In "__proto__" qs -> filter storable qs = qs.
Proof.
  induction qs as [ | x rest IH]; simpl; intros H; [reflexivity | ].
  assert (Hx : storable x = true) by (apply storable_true; intros ->; apply H; auto).
  rewrite Hx. f_equal. apply IH. tauto.
Qed.

Lemma storable_In (qs : list string) (q : string) :
  ~ In "__proto__" qs -> In q qs -> storable q = true.
Proof. intros H Hq. apply storable_true. intros ->. contradiction. Qed.

Lemma zeroPoints_get (qs : list string) (q : string) :
  In q qs -> storable q = true -> get (zeroPoints qs) q = Some 0.
Proof.
  intros H Hs. assert (Hin : In q (map fst (zeroPoints qs))) by (apply zeroPoints_In; auto).
  destruct (get_In _ _ Hin) as [v Hv].
  rewrite Hv. f_equal. eapply (zero_fold_values qs []); [ | exact Hv ].
  simpl. discriminate.
Qed.

Lemma hasOwn_zeroPoints (qs : list string) (q : string) :
  In q qs -> hasOwn (zeroPoints qs) q = storable q.
Proof.
  intros H. destruct (storable q) eqn:Hs.
  - apply hasOwn_In, zeroPoints_In. auto.
  - destruct (hasOwn (zeroPoints qs) q) eqn:Ho; [ | reflexivity ].
    apply hasOwn_In, zeroPoints_In in Ho. destruct Ho. congruence.
Qed.

Lemma sumValues_zero (o : pointsObj) :
  (forall q v, get o q = Some v -> v = 0) -> NoDup (map fst o) -> sumValues o = 0.
Proof.
  induction o as [ | [k v] rest IH]; simpl; intros Hz Hnd; [reflexivity | ].
  inversion Hnd as [ | ? ? Hk Hrest]; subst.
  rewrite IH; [ | | assumption ].
  - specialize (Hz k v). rewrite String.eqb_refl in Hz. rewrite Hz; reflexivity.
  - intros q w Hq. apply (Hz q).
    destruct (String.eqb_spec q k) as [-> | ]; [ | assumption ].
    exfalso. apply Hk. eapply get_Some_In; eassumption.
Qed.

Lemma zeroPoints_sum (qs : list string) : sumValues (zeroPoints qs) = 0.
Proof.
  apply sumValues_zero; [ | apply zeroPoints_NoDup ].
  apply (zero_fold_values qs []). simpl. discriminate.
Qed.

(** ** The helpers that draw *)

Section Programs.

Variable rng : nat -> Q.
Variable md : mode.
Hypothesis Hcontract : contract rng.

Lemma indexAt_range (n c : nat) : (0 < n)%nat -> 0 <= indexAt rng n c < Z.of_nat n.
Proof. intros Hn. destruct (Hcontract c) as (Hd & H0 & H1). apply index_in_range; assumption. Qed.

Lemma spec_next (c : nat) (Q : Q -> nat -> Prop) :
  Q (rng c) (S c) -> spec md (next rng) c Q.
Proof. intros H. eapply spec_pure; [ reflexivity | exact H ]. Qed.

Lemma spec_pick {A : Type} (arr : list A) (c : nat) (Q : Z -> nat -> Prop) :
  Q (indexAt rng (length arr) c) (S c) -> spec md (pickRandomIndex rng arr) c Q.
Proof. intros H. eapply spec_pure; [ reflexivity | exact H ]. Qed.

(** One turn of the rejection loop. *)
Lemma redrawLoop_S (qn : list string) (a : Z) (n fuel c : nat) :
  redrawLoop rng (S n) qn a fuel c
  = if indexAt rng (length qn) c =? a then redrawLoop rng n qn a fuel (S c)
    else (Return (indexAt rng (length qn) c), S c).
Proof.
  simpl. unfold pickRandomIndex, next, ret, indexAt, bind.
  destruct (Qfloor (times (rng c) (inject_Z (Z.of_nat (length qn)))) =? a); reflexivity.
Qed.

(** The rejection loop answers with an index of the group other than [a]. *)
Lemma redrawLoop_partial (qn : list string) (a : Z) (n fuel : nat) :
  (0 < length qn)%nat ->
  forall c,
    match redrawLoop rng n qn a fuel c with
    | (Return b, c') => 0 <= b < Z.of_nat (length qn) /\ b <> a
    | (OutOfFuel, _) => True
    | _ => False
    end.
Proof.
  intros Hlen. induction n as [ | n IH]; intros c; [exact I | ].
  rewrite redrawLoop_S.
  destruct (Z.eqb_spec (indexAt rng (length qn) c) a) as [E | E].
  - apply IH.
  - split; [apply indexAt_range; assumption | exact E].
Qed.

(** It ends as soon as a draw selects another index. *)
Lemma redrawLoop_total (qn : list string) (a : Z) :
  (0 < length qn)%nat ->
  forall d c, indexAt rng (length qn) (c + d) <> a ->
    exists b c',
      (0 <= b < Z.of_nat (length qn) /\ b <> a) /\
      forall n fuel, (d < n)%nat -> redrawLoop rng n qn a fuel c = (Return b, c').
Proof.
  intros Hlen. induction d as [ | d IH]; intros c Hd.
  - rewrite Nat.add_0_r in Hd. exists (indexAt rng (length qn) c), (S c). split.
    + split; [apply indexAt_range; assumption | exact Hd].
    + intros [ | n] fuel Hn; [lia | ]. rewrite redrawLoop_S.
      destruct (Z.eqb_spec (indexAt rng (length qn) c) a); [contradiction | reflexivity].
  - destruct (Z.eq_dec (indexAt rng (length qn) c) a) as [E | E].
    + destruct (IH (S c)) as (b & c' & Hb & Hrun).
      { replace (S c + d)%nat with (c + S d)%nat by lia. exact Hd. }
      exists b, c'. split; [exact Hb | ].
      intros [ | n] fuel Hn; [lia | ]. rewrite redrawLoop_S.
      destruct (Z.eqb_spec (indexAt rng (length qn) c) a); [ | contradiction ].
      apply Hrun. lia.
    + exists (indexAt rng (length qn) c), (S c). split.
      * split; [apply indexAt_range; assumption | exact E].
      * intros [ | n] fuel Hn; [lia | ]. rewrite redrawLoop_S.
        destruct (Z.eqb_spec (indexAt rng (length qn) c) a); [contradiction | reflexivity].
Qed.

Lemma spec_redraw (qn : list string) (a : Z) (c : nat) (Q : Z -> nat -> Prop) :
  (0 < length qn)%nat ->
  (md = Total -> fair rng (length qn)) ->
  (forall b c', 0 <= b < Z.of_nat (length qn) -> b <> a -> Q b c') ->
  spec md (redraw rng qn a) c Q.
Proof.
  intros Hlen Hfair HQ. destruct md; simpl.
  - intros fuel. unfold redraw.
    pose proof (redrawLoop_partial qn a fuel fuel Hlen c) as H.
    destruct (redrawLoop rng fuel qn a fuel c) as [[b | e | | ] c']; try exact H.
    apply HQ; apply H.
  - destruct (Hfair eq_refl c a) as (q & Hq & Hne).
    destruct (redrawLoop_total qn a Hlen (q - c) c) as (b & c' & Hb & Hrun).
    { replace (c + (q - c))%nat with q by lia. exact Hne. }
    exists b, c', (S (q - c)). split; [apply HQ; apply Hb | ].
    intros fuel Hfuel. unfold redraw. apply Hrun. lia.
Qed.

Lemma spec_chooseTwoWinners (qn : list string) (c : nat) (Q : list string -> nat -> Prop) :
  (md = Total -> (2 <= length qn)%nat -> fair rng (length qn)) ->
  (forall ws c', twoWinners qn ws -> Q ws c') ->
  spec md (chooseTwoWinners rng qn) c Q.
Proof.
  intros Hfair HQ. unfold chooseTwoWinners.
  destruct (Nat.ltb_spec (length qn) 2) as [Hlt | Hge].
  - apply spec_ret. apply HQ. left. auto.
  - apply spec_bind, spec_pick.
    pose proof (indexAt_range (length qn) c ltac:(lia)) as Ha.
    set (a := indexAt rng (length qn) c) in *.
    apply spec_bind, spec_redraw; [lia | auto | ].
    intros b c' Hb Hne.
    destruct (item_in_range qn a Ha) as (wa & Hia & Hna & _).
    destruct (item_in_range qn b Hb) as (wb & Hib & Hnb & _).
    apply spec_bind. eapply spec_defined; [exact Hia | ].
    apply spec_bind. eapply spec_defined; [exact Hib | ].
    apply spec_ret. apply HQ. right.
    exists (Z.to_nat a), (Z.to_nat b), wa, wb. repeat split; try assumption. lia.
Qed.

Lemma twoWinners_incl (qs ws : list string) : twoWinners qs ws -> incl ws qs.
Proof.
  intros [[_ ->] | (a & b & wa & wb & _ & Ha & Hb & ->)]; [apply incl_refl | ].
  intros x [<- | [<- | []]]; eapply nth_error_In; eassumption.
Qed.

Lemma twoWinners_nonempty (qs ws : list string) : qs <> [] -> twoWinners qs ws -> ws <> [].
Proof.
  intros Hqs [[_ ->] | (a & b & wa & wb & _ & _ & _ & ->)]; [assumption | discriminate].
Qed.
Lemma spec_addTo (o : pointsObj) (k : string) (d : Z) (c : nat)
  (Q : pointsObj -> nat -> Prop) :
  In k (map fst o) -> Q (set o k (pointsOf o k + d)) c -> spec md (addTo o k d) c Q.
Proof.
  intros Hk HQ. unfold addTo. rewrite (pointsOf_get o k Hk).
  apply spec_ret. exact HQ.
Qed.

Lemma pointsOf_set_same (o : pointsObj) (k : string) (v : Z) :
  In k (map fst o) -> pointsOf (set o k v) k = v.
Proof. intros H. unfold pointsOf. rewrite get_set_same by (left; exact H). reflexivity. Qed.

Lemma pointsOf_set_other (o : pointsObj) (k q : string) (v : Z) :
  q <> k -> pointsOf (set o k v) q = pointsOf o q.
Proof. intros H. unfold pointsOf. rewrite get_set_other by assumption. reflexivity. Qed.

Lemma sumValues_add (o : pointsObj) (k : string) (d : Z) :
  In k (map fst o) -> sumValues (set o k (pointsOf o k + d)) = sumValues o + d.
Proof.
  intros H. rewrite (sumValues_set o k (pointsOf o k)) by (apply pointsOf_get; exact H). lia.
Qed.

(** [o[k] += d] on a name of the group: it is a key of the object, or it
    is [__proto__] and the award is lost. *)
Lemma spec_credit (o : pointsObj) (k : string) (d : Z) (c : nat)
  (Q : pointsObj -> nat -> Prop) :
  In k (map fst o) \/ storable k = false ->
  Q (credit o k d) c -> spec md (addTo o k d) c Q.
Proof.
  intros Hk HQ. unfold addTo. unfold credit in HQ.
  destruct (get o k) as [v | ] eqn:E; [apply spec_ret; exact HQ | ].
  destruct Hk as [Hk | Hk]; [apply get_None_notIn in E; contradiction | ].
  rewrite Hk. apply spec_ret. exact HQ.
Qed.

Lemma credit_stored (o : pointsObj) (k : string) (d : Z) :
  In k (map fst o) -> credit o k d = set o k (pointsOf o k + d).
Proof. intros H. unfold credit. rewrite (pointsOf_get o k H). reflexivity. Qed.

Lemma credit_lost (o : pointsObj) (k : string) (d : Z) :
  ~ In k (map fst o) -> credit o k d = o.
Proof. intros H. unfold credit. apply get_None_notIn in H. rewrite H. reflexivity. Qed.

Lemma keys_credit (o : pointsObj) (k : string) (d : Z) :
  map fst (credit o k d) = map fst o.
Proof.
  destruct (in_dec string_dec k (map fst o)) as [H | H].
  - rewrite credit_stored by exact H. apply keys_set_In. exact H.
  - rewrite credit_lost by exact H. reflexivity.
Qed.

Lemma pointsOf_credit (o : pointsObj) (k q : string) (d : Z) :
  In q (map fst o) ->
  pointsOf (credit o k d) q = pointsOf o q + (if String.eqb k q then d else 0).
Proof.
  intros Hq. destruct (String.eqb_spec k q) as [-> | Hne].
  - rewrite credit_stored by exact Hq. apply pointsOf_set_same. exact Hq.
  - destruct (in_dec string_dec k (map fst o)) as [H | H].
    + rewrite credit_stored by exact H. rewrite pointsOf_set_other by congruence. lia.
    + rewrite credit_lost by exact H. lia.
Qed.

Lemma sumValues_credit (o : pointsObj) (k : string) (d : Z) :
  sumValues (credit o k d) = sumValues o + (if hasOwn o k then d else 0).
Proof.
  destruct (hasOwn o k) eqn:H.
  - apply hasOwn_In in H. rewrite credit_stored by exact H. apply sumValues_add. exact H.
  - rewrite credit_lost; [lia | ]. intros Hin. apply hasOwn_In in Hin. congruence.
Qed.

Lemma filter_hasOwn_keys (o o' : pointsObj) {A : Type} (f : A -> string) (l : list A) :
  map fst o' = map fst o ->
  filter (fun x => hasOwn o' (f x)) l = filter (fun x => hasOwn o (f x)) l.
Proof. intros E. apply filter_ext. intros x. apply hasOwn_keys. exact E. Qed.

(** [ws.forEach(w => { points[w] += d; })] on names of the group. *)
Lemma spec_addAll (d : Z) (ws : list string) :
  forall (o : pointsObj) (c : nat) (Q : pointsObj -> nat -> Prop),
    (forall w, In w ws -> In w (map fst o) \/ storable w = false) ->
    (forall o',
        map fst o' = map fst o ->
        (forall q, In q (map fst o) ->
           get o' q = Some (pointsOf o q + d * Z.of_nat (count_occ string_dec ws q))) ->
        sumValues o' = sumValues o + d * Z.of_nat (length (filter (hasOwn o) ws)) ->
        Q o' c) ->
    spec md (foldM (fun p w => addTo p w d) ws o) c Q.
Proof.
  induction ws as [ | w rest IH]; intros o c Q Hincl HQ; simpl.
  - apply spec_ret. apply HQ; [reflexivity | | simpl; lia].
    intros q Hq. simpl. rewrite pointsOf_get by assumption. f_equal. lia.
  - apply spec_bind, spec_credit; [apply Hincl; left; reflexivity | ].
    pose proof (keys_credit o w d) as Hkeys.
    apply IH.
    + rewrite Hkeys. intros x Hx. apply Hincl. right. exact Hx.
    + intros o' Hk Hget Hsum. apply HQ.
      * congruence.
      * intros q Hq. rewrite Hget by (rewrite Hkeys; exact Hq). f_equal.
        rewrite pointsOf_credit by exact Hq.
        cbn [count_occ]. destruct (string_dec w q) as [-> | Hne].
        -- rewrite String.eqb_refl. lia.
        -- destruct (String.eqb_spec w q); [contradiction | lia].
      * rewrite Hsum, sumValues_credit.
        rewrite (filter_hasOwn_keys o (credit o w d) (fun x => x)) by exact Hkeys.
        change (fun x : string => hasOwn o x) with (hasOwn o).
        cbn [filter]. destruct (hasOwn o w); cbn [length]; unfold name in *; lia.
Qed.

Lemma received_nil (q : string) : received [] q = 0.
Proof. reflexivity. Qed.

Lemma received_cons (m : Mvq.t) (mvqs : list Mvq.t) (q : string) :
  received (m :: mvqs) q = (if String.eqb (Mvq.to m) q then 1 else 0) + received mvqs q.
Proof.
  unfold received. simpl. destruct (String.eqb (Mvq.to m) q); simpl length; lia.
Qed.

Lemma filter_other_In (qs : list string) (from x : string) :
  In x (filter (fun y => negb (String.eqb y from)) qs) <-> In x qs /\ x <> from.
Proof.
  rewrite filter_In. destruct (String.eqb_spec x from); simpl; intuition congruence.
Qed.

(** The peer awards of the queens [rest], each to one of the others. *)
Lemma spec_mvqLoop (qs winners : list string) :
  incl winners qs -> winners <> [] ->
  forall (rest : list string) (p : pointsObj) (mvqs0 : list Mvq.t) (c : nat)
         (Q : pointsObj * list Mvq.t -> nat -> Prop),
    (forall from, In from rest -> ~ In from winners) ->
    (forall q, In q qs -> In q (map fst p) \/ storable q = false) ->
    (forall p' mvqs' c',
        map fst p' = map fst p ->
        map Mvq.from mvqs' = rest ->
        (forall m, In m mvqs' -> Mvq.to m <> Mvq.from m /\ In (Mvq.to m) qs) ->
        (forall q, In q (map fst p) -> get p' q = Some (pointsOf p q + received mvqs' q)) ->
        sumValues p'
        = sumValues p + Z.of_nat (length (filter (fun m => hasOwn p (Mvq.to m)) mvqs')) ->
        Q (p', mvqs0 ++ mvqs') c') ->
    spec md (foldM (giveMvq rng qs) rest (p, mvqs0)) c Q.
Proof.
  intros Hincl Hne. induction rest as [ | from rest IH]; intros p mvqs0 c Q Hrest Hkeys HQ.
  - simpl. apply spec_ret. rewrite <- (app_nil_r mvqs0). apply HQ; try reflexivity.
    + intros m [].
    + intros q Hq. rewrite received_nil, pointsOf_get by assumption. f_equal. lia.
    + simpl. lia.
  - simpl. apply spec_bind. unfold giveMvq at 1. cbv zeta.
    set (possible := filter (fun x => negb (String.eqb x from)) qs).
    assert (Hposs : (0 < length possible)%nat).
    { destruct winners as [ | w ws]; [congruence | ].
      assert (Hw : In w possible).
      { apply filter_other_In. split; [apply Hincl; left; reflexivity | ].
        intros ->. apply (Hrest from); left; reflexivity. }
      destruct possible; [destruct Hw | simpl; lia]. }
    apply spec_bind, spec_pick.
    destruct (item_in_range possible _ (indexAt_range _ c Hposs)) as (to & Hto & _ & Hin).
    apply filter_other_In in Hin. destruct Hin as [Hin Hdiff].
    apply spec_bind. eapply spec_defined; [exact Hto | ].
    apply spec_bind, spec_credit; [apply Hkeys; exact Hin | ].
    pose proof (keys_credit p to 1) as Hk1.
    apply spec_ret. apply IH.
    + intros x Hx. apply Hrest. right. exact Hx.
    + intros q Hq. rewrite Hk1. auto.
    + intros p' mvqs' c' Hk Hfrom Hall Hget Hsum.
      rewrite <- app_assoc. cbn [app]. apply HQ.
      * congruence.
      * cbn [map Mvq.from]. congruence.
      * intros m [<- | Hm]; [cbn [Mvq.to Mvq.from]; auto | auto].
      * intros q Hq. rewrite Hget by (rewrite Hk1; exact Hq). f_equal.
        rewrite received_cons. cbn [Mvq.to]. rewrite pointsOf_credit by exact Hq. lia.
      * rewrite Hsum, sumValues_credit.
        rewrite (filter_hasOwn_keys p (credit p to 1) Mvq.to) by exact Hk1.
        cbn [filter Mvq.to]. destruct (hasOwn p to); cbn [length]; unfold name in *; lia.
Qed.

Lemma includes_In (arr : list string) (q : string) : includes arr q = true <-> In q arr.
Proof.
  unfold includes. rewrite existsb_exists. split.
  - intros (x & Hx & E). apply String.eqb_eq in E. congruence.
  - intros H. exists q. split; [assumption | apply String.eqb_refl].
Qed.

(** An episode. *)
Lemma spec_runEpisodeSix (qs : list string) (c : nat) (Q : EpisodeRes.t -> nat -> Prop) :
  qs <> [] ->
  (md = Total -> (2 <= length qs)%nat -> fair rng (length qs)) ->
  (forall r c', episodeSpec qs r -> Q r c') ->
  spec md (runEpisodeSix rng qs) c Q.
Proof.
  intros Hqs Hfair HQ. unfold runEpisodeSix.
  apply spec_bind, spec_chooseTwoWinners; [exact Hfair | ].
  intros ws c1 Hws.
  pose proof (twoWinners_incl _ _ Hws) as Hincl.
  pose proof (twoWinners_nonempty _ _ Hqs Hws) as Hne.
  assert (Hnames : forall (o : pointsObj) q, map fst o = map fst (zeroPoints qs) -> In q qs ->
                     In q (map fst o) \/ storable q = false).
  { intros o q Ho Hq. destruct (storable q) eqn:Hs; [left | right; reflexivity].
    rewrite Ho. apply zeroPoints_In. auto. }
  assert (Hown : forall (o : pointsObj) q, map fst o = map fst (zeroPoints qs) -> In q qs ->
                   hasOwn o q = storable q).
  { intros o q Ho Hq. rewrite (hasOwn_keys _ _ q Ho). apply hasOwn_zeroPoints. exact Hq. }
  apply spec_bind, spec_addAll.
  { intros w Hw. apply Hnames; auto. }
  intros o1 Hk1 Hget1 Hsum1.
  apply spec_bind, spec_pick.
  assert (Hlen : (0 < length ws)%nat) by (destruct ws; [congruence | simpl; lia]).
  destruct (item_in_range ws _ (indexAt_range _ c1 Hlen)) as (lip & Hlip & _ & Hlin).
  apply spec_bind. eapply spec_defined; [exact Hlip | ].
  apply spec_bind, spec_credit; [apply Hnames; auto | ].
  pose proof (keys_credit o1 lip 1) as Hk2.
  apply spec_bind. apply (spec_mvqLoop qs ws Hincl Hne).
  { intros from Hfrom Hin. apply filter_In in Hfrom. destruct Hfrom as [_ Hf].
    apply includes_In in Hin. rewrite Hin in Hf. discriminate. }
  { intros q Hq. apply Hnames; [congruence | exact Hq]. }
  intros p' mvqs c' Hk3 Hfrom Hall Hget3 Hsum3. cbn [app].
  apply spec_ret. apply HQ. constructor; cbn [EpisodeRes.points EpisodeRes.detail
    Detail.winners Detail.lipSyncWinner Detail.mvqAssignments].
  - congruence.
  - exact Hws.
  - exact Hlin.
  - exact Hfrom.
  - exact Hall.
  - intros q Hq Hs.
    assert (Hq0 : In q (map fst (zeroPoints qs))) by (apply zeroPoints_In; auto).
    rewrite Hget3 by (rewrite Hk2, Hk1; exact Hq0). f_equal.
    unfold basePoints. cbn [Detail.winners Detail.lipSyncWinner].
    assert (Ho1 : pointsOf o1 q = 2 * Z.of_nat (count_occ string_dec ws q)).
    { unfold pointsOf at 1. rewrite Hget1 by exact Hq0.
      unfold pointsOf. rewrite zeroPoints_get by assumption. lia. }
    rewrite pointsOf_credit by (rewrite Hk1; exact Hq0). lia.
  - rewrite Hsum3, sumValues_credit, Hsum1, zeroPoints_sum.
    rewrite (filter_ext_in (hasOwn (zeroPoints qs)) storable ws)
      by (intros w Hw; apply hasOwn_zeroPoints; auto).
    rewrite (filter_ext_in (fun m => hasOwn (credit o1 lip 1) (Mvq.to m))
               (fun m => storable (Mvq.to m)) mvqs)
      by (intros m Hm; apply Hown; [congruence | apply (Hall m Hm)]).
    rewrite (Hown o1 lip Hk1) by auto.
    cbn [filter]. destruct (storable lip); cbn [length]; unfold name in *; lia.
Qed.

End Programs.

(** ** Sorting *)

Section Sorting.

Context {A : Type}.
Variable cmp : A -> A -> Z.

Lemma insertBy_perm (x : A) (l : list A) : Permutation (insertBy cmp x l) (x :: l).
Proof.
  induction l as [ | y rest IH]; simpl; [reflexivity | ].
  destruct (0 <? cmp x y); [ | reflexivity ].
  rewrite IH. apply perm_swap.
Qed.

Lemma sortBy_perm (l : list A) : Permutation (sortBy cmp l) l.
Proof.
  induction l as [ | x rest IH]; simpl; [reflexivity | ].
  rewrite insertBy_perm. apply perm_skip. exact IH.
Qed.

(** On a comparator that is total and transitive the result is sorted. *)
Hypothesis cmp_total : forall x y, 0 < cmp x y -> cmp y x <= 0.
Hypothesis cmp_trans : forall x y z, cmp x y <= 0 -> cmp y z <= 0 -> cmp x z <= 0.

Lemma insertBy_sorted (x : A) (l : list A) :
  StronglySorted (fun a b => cmp a b <= 0) l ->
  StronglySorted (fun a b => cmp a b <= 0) (insertBy cmp x l).
Proof.
  induction l as [ | y rest IH]; simpl; intros Hs.
  - repeat constructor.
  - inversion Hs as [ | ? ? Hrest Hall]; subst.
    destruct (Z.ltb_spec 0 (cmp x y)) as [Hgt | Hle].
    + constructor; [apply IH; assumption | ].
      eapply Permutation_Forall; [symmetry; apply insertBy_perm | ].
      constructor; [apply cmp_total; assumption | assumption].
    + constructor; [assumption | ].
      constructor; [assumption | ].
      eapply Forall_impl; [ | exact Hall ].
      intros z Hz. eapply cmp_trans; eassumption.
Qed.

Lemma sortBy_sorted (l : list A) : StronglySorted (fun a b => cmp a b <= 0) (sortBy cmp l).
Proof.
  induction l as [ | x rest IH]; simpl; [constructor | ].
  apply insertBy_sorted. exact IH.
Qed.

End Sorting.

Lemma filter_split_perm {A : Type} (f : A -> bool) (l : list A) :
  Permutation (filter f l ++ filter (fun x => negb (f x)) l) l.
Proof.
  induction l as [ | x rest IH]; simpl; [reflexivity | ].
  destruct (f x); simpl.
  - apply perm_skip. exact IH.
  - rewrite <- Permutation_middle. apply perm_skip. exact IH.
Qed.

Lemma ownProperties_perm (o : pointsObj) : Permutation (ownProperties o) o.
Proof.
  unfold ownProperties. rewrite sortBy_perm. apply filter_split_perm.
Qed.

Lemma Object_keys_perm (o : pointsObj) : Permutation (Object_keys o) (map fst o).
Proof. unfold Object_keys. apply Permutation_map, ownProperties_perm. Qed.

(** ** Standings *)

Lemma get_of_entry (o : pointsObj) (k : string) (v : Z) :
  NoDup (map fst o) -> In (k, v) o -> get o k = Some v.
Proof.
  induction o as [ | [k' v'] rest IH]; simpl; intros Hnd Hin; [destruct Hin | ].
  inversion Hnd as [ | ? ? Hk Hrest]; subst.
  destruct Hin as [[= -> ->] | Hin].
  - rewrite String.eqb_refl. reflexivity.
  - destruct (String.eqb_spec k k') as [-> | _]; [ | auto ].
    exfalso. apply Hk. change k' with (fst (k', v)). apply in_map. exact Hin.
Qed.

Lemma rankByPoints_names (lc : string -> string -> Z) (o : pointsObj) :
  Permutation (map Standing.name (rankByPoints lc o)) (map fst o).
Proof.
  unfold rankByPoints. rewrite sortBy_perm, map_map. cbn [Standing.name].
  rewrite map_id. apply Object_keys_perm.
Qed.

(** The standings of an object hold its entries. *)
Lemma rankByPoints_entries (lc : string -> string -> Z) (o : pointsObj) :
  NoDup (map fst o) -> Permutation (map entryOf (rankByPoints lc o)) o.
Proof.
  intros Hnd. unfold rankByPoints, Object_keys. rewrite sortBy_perm, !map_map.
  rewrite <- (ownProperties_perm o) at 2.
  rewrite <- (map_id (ownProperties o)) at 2.
  apply Permutation_refl'. apply map_ext_in.
  intros [k v] Hin. unfold entryOf, pointsOf. cbn [Standing.name Standing.points fst].
  rewrite (get_of_entry o k v Hnd); [reflexivity | ].
  eapply Permutation_in; [apply ownProperties_perm | exact Hin].
Qed.

Lemma rankCompare_le (lc : string -> string -> Z) (a b : Standing.t) :
  rankCompare lc a b <= 0 <->
  Standing.points b < Standing.points a \/
  (Standing.points a = Standing.points b /\ lc (Standing.name a) (Standing.name b) <= 0).
Proof.
  unfold rankCompare.
  destruct (Z.eqb_spec (Standing.points b - Standing.points a) 0); lia.
Qed.

Lemma rankCompare_total (lc : string -> string -> Z) :
  (forall x y, 0 < lc x y -> lc y x <= 0) ->
  forall a b, 0 < rankCompare lc a b -> rankCompare lc b a <= 0.
Proof.
  intros Hlc a b. rewrite rankCompare_le. unfold rankCompare.
  destruct (Z.eqb_spec (Standing.points b - Standing.points a) 0) as [E | E].
  - intros H. right. split; [lia | apply Hlc; exact H].
  - intros H. left. lia.
Qed.

Lemma rankCompare_trans (lc : string -> string -> Z) :
  (forall x y z, lc x y <= 0 -> lc y z <= 0 -> lc x z <= 0) ->
  forall a b c, rankCompare lc a b <= 0 -> rankCompare lc b c <= 0 -> rankCompare lc a c <= 0.
Proof.
  intros Hlc a b c. rewrite !rankCompare_le.
  intros [H1 | [H1 L1]] [H2 | [H2 L2]]; try (left; lia).
  right. split; [lia | eapply Hlc; eassumption].
Qed.

(** ** Brackets *)

Section Brackets.

Variable rng : nat -> Q.
Variable md : mode.
Hypothesis Hcontract : contract rng.

(** [Object.keys(pts).forEach(q => { bp[q] += pts[q]; })] *)
Lemma spec_accumulate (pts : pointsObj) (ks : list string) :
  forall (bp : pointsObj) (c : nat) (Q : pointsObj -> nat -> Prop),
    incl ks (map fst pts) -> incl ks (map fst bp) ->
    (forall bp', map fst bp' = map fst bp -> Q bp' c) ->
    spec md (foldM (fun bp q => d <- defined (get pts q) ;; addTo bp q d) ks bp) c Q.
Proof.
  induction ks as [ | k rest IH]; intros bp c Q Hpts Hbp HQ; simpl.
  - apply spec_ret. apply HQ. reflexivity.
  - assert (Hk : In k (map fst bp)) by (apply Hbp; left; reflexivity).
    apply spec_bind, spec_bind.
    eapply spec_defined; [apply pointsOf_get, Hpts; left; reflexivity | ].
    apply spec_addTo; [exact Hk | ].
    pose proof (keys_set_In bp k (pointsOf bp k + pointsOf pts k) Hk) as Hkeys.
    apply IH.
    + intros x Hx. apply Hpts. right. exact Hx.
    + rewrite Hkeys. intros x Hx. apply Hbp. right. exact Hx.
    + intros bp' Hk'. apply HQ. congruence.
Qed.

Lemma spec_runBracketEpisode (qs : list string) (index : nat) (bp : pointsObj)
  (det eps : list EpRecord.t) (ep c : nat)
  (Q : pointsObj * list EpRecord.t * list EpRecord.t -> nat -> Prop) :
  qs <> [] ->
  (md = Total -> (2 <= length qs)%nat -> fair rng (length qs)) ->
  map fst bp = map fst (zeroPoints qs) ->
  (forall bp' rec c',
      map fst bp' = map fst bp ->
      recordSpec index qs rec ->
      EpRecord.episodeNumberInBracket rec = ep ->
      Q (bp', det ++ [rec], eps ++ [rec]) c') ->
  spec md (runBracketEpisode rng qs index (bp, det, eps) ep) c Q.
Proof.
  intros Hqs Hfair Hkeys HQ. unfold runBracketEpisode.
  apply spec_bind, spec_runEpisodeSix; try assumption.
  intros [pts detail] c1 Hep. pose proof (es_keys _ _ Hep) as Hk. cbn in Hk.
  apply spec_bind, spec_accumulate.
  - intros q Hq. cbn. eapply Permutation_in; [apply Object_keys_perm | exact Hq].
  - intros q Hq. cbn in Hq. rewrite Hkeys, <- Hk.
    eapply Permutation_in; [apply Object_keys_perm | exact Hq].
  - intros bp' Hk'. apply spec_ret. apply HQ; [exact Hk' | | reflexivity].
    constructor; cbn; auto.
Qed.

Variable localeCompare : string -> string -> Z.

Lemma spec_runBracket (results : list BracketResult.t) (eps : list EpRecord.t)
  (index : nat) (qs : list string) (c : nat)
  (Q : list BracketResult.t * list EpRecord.t -> nat -> Prop) :
  qs <> [] ->
  (md = Total -> (2 <= length qs)%nat -> fair rng (length qs)) ->
  (forall br c',
      bracketSpec localeCompare index qs br ->
      Q (results ++ [br], eps ++ BracketResult.episodes br) c') ->
  spec md (runBracket localeCompare rng (results, eps) (index, qs)) c Q.
Proof.
  intros Hqs Hfair HQ. unfold runBracket. cbn [foldM].
  apply spec_bind, spec_bind, spec_runBracketEpisode; try assumption; [reflexivity | ].
  intros bp1 r1 c1 Hk1 Hr1 Hn1.
  apply spec_bind, spec_runBracketEpisode; try assumption.
  intros bp2 r2 c2 Hk2 Hr2 Hn2.
  apply spec_bind, spec_runBracketEpisode; try assumption; [congruence | ].
  intros bp3 r3 c3 Hk3 Hr3 Hn3.
  apply spec_ret, spec_ret.
  repeat rewrite <- app_assoc. cbn [app].
  match goal with
  | |- Q (_ ++ [?b], _) _ =>
      replace [r1; r2; r3] with (BracketResult.episodes b) by reflexivity; apply HQ
  end.
  constructor; cbn; try reflexivity.
  - congruence.
  - congruence.
  - repeat (apply Forall_cons; [assumption | ]). apply Forall_nil.
Qed.

Lemma spec_brackets (indexed : list (nat * list string)) :
  forall (results : list BracketResult.t) (eps : list EpRecord.t) (c : nat)
         (Q : list BracketResult.t * list EpRecord.t -> nat -> Prop),
    (forall iq, In iq indexed ->
       snd iq <> [] /\ (md = Total -> (2 <= length (snd iq))%nat -> fair rng (length (snd iq)))) ->
    (forall new c',
        Forall2 (fun iq br => bracketSpec localeCompare (fst iq) (snd iq) br) indexed new ->
        Q (results ++ new, eps ++ flat_map BracketResult.episodes new) c') ->
    spec md (foldM (runBracket localeCompare rng) indexed (results, eps)) c Q.
Proof.
  induction indexed as [ | [index qs] rest IH]; intros results eps c Q Hall HQ; simpl.
  - apply spec_ret. rewrite <- (app_nil_r results), <- (app_nil_r eps).
    apply (HQ [] c). constructor.
  - destruct (Hall (index, qs) (or_introl eq_refl)) as [Hqs Hfair].
    apply spec_bind, spec_runBracket; try assumption.
    intros br c1 Hbr. apply IH.
    + intros iq Hiq. apply Hall. right. exact Hiq.
    + intros new c' Hnew. repeat rewrite <- app_assoc.
      apply (HQ (br :: new) c'). constructor; assumption.
Qed.

End Brackets.

(** ** The semifinal *)

Lemma firstn_1_skipn {A : Type} (l : list A) (k : nat) (x : A) :
  nth_error l k = Some x -> firstn 1 (skipn k l) = [x].
Proof.
  revert k. induction l as [ | y rest IH]; intros [ | k]; simpl; try discriminate.
  - intros [= ->]. reflexivity.
  - apply IH.
Qed.

Lemma splice1_in_range {A : Type} (arr : list A) (i : Z) (x : A) :
  nth_error arr (Z.to_nat i) = Some x -> 0 <= i ->
  splice1 arr i = ([x], removeAt (Z.to_nat i) arr).
Proof.
  intros Hx Hi. unfold splice1, removeAt.
  assert (Hlen : (Z.to_nat i < length arr)%nat) by (apply nth_error_Some; congruence).
  destruct (Z.ltb_spec i 0); [lia | ].
  rewrite Z.min_l by lia. rewrite (firstn_1_skipn _ _ _ Hx). reflexivity.
Qed.

Lemma removeAt_length {A : Type} (l : list A) (k : nat) :
  (k < length l)%nat -> length (removeAt k l) = (length l - 1)%nat.
Proof.
  intros H. unfold removeAt. rewrite length_app, firstn_length_le, length_skipn by lia. lia.
Qed.

Lemma removeAt_incl {A : Type} (l : list A) (k : nat) : incl (removeAt k l) l.
Proof.
  intros x Hx. unfold removeAt in Hx. apply in_app_or in Hx.
  destruct Hx as [Hx | Hx].
  - eapply In_nth_error in Hx. destruct Hx as [n Hn].
    rewrite <- (firstn_skipn k l). apply in_or_app. left.
    eapply nth_error_In; eassumption.
  - rewrite <- (firstn_skipn (S k) l). apply in_or_app. right. exact Hx.
Qed.

Section Stages.

Variable rng : nat -> Q.
Variable md : mode.
Hypothesis Hcontract : contract rng.

Lemma spec_eliminate (elims : list (option string)) (pool : list string) (i c : nat)
  (Q : list (option string) * list string -> nat -> Prop) :
  (forall x k, nth_error pool k = Some x -> Q (elims ++ [Some x], removeAt k pool) (S c)) ->
  (pool = [] -> Q (elims ++ [None], []) (S c)) ->
  spec md (eliminate rng (elims, pool) i) c Q.
Proof.
  intros Hcut Hnone. unfold eliminate. apply spec_bind, spec_pick.
  destruct pool as [ | q rest].
  - cbn [length]. unfold indexAt. rewrite index_of_empty. cbn. apply spec_ret. auto.
  - pose proof (indexAt_range rng Hcontract (length (q :: rest)) c ltac:(simpl; lia)) as Hi.
    destruct (item_in_range (q :: rest) _ Hi) as (x & _ & Hx & _).
    rewrite (splice1_in_range _ _ _ Hx) by lia.
    apply spec_ret. cbn [nth_error]. apply Hcut. exact Hx.
Qed.

Lemma spec_semifinal (pool : list string) (c : nat)
  (Q : list (option string) * list string -> nat -> Prop) :
  (forall elims fin c', semifinalSpec pool elims fin -> Q (elims, fin) c') ->
  spec md (foldM (eliminate rng) [0; 1]%nat ([], pool)) c Q.
Proof.
  intros HQ. cbn [foldM].
  apply spec_bind, spec_eliminate.
  - intros x1 i1 H1.
    assert (L1 : (i1 < length pool)%nat) by (apply nth_error_Some; congruence).
    apply spec_bind, spec_eliminate.
    + intros x2 i2 H2.
      assert (L2 : (i2 < length (removeAt i1 pool))%nat) by (apply nth_error_Some; congruence).
      apply spec_ret, HQ. constructor.
      * reflexivity.
      * rewrite removeAt_length in * by assumption. rewrite removeAt_length by lia. lia.
      * intros _. exists i1, i2, x1, x2. auto.
    + intros Hnil. apply spec_ret, HQ.
      pose proof (removeAt_length pool i1 L1) as Hl. rewrite Hnil in Hl. cbn in Hl.
      constructor; [reflexivity | cbn; lia | lia].
  - intros ->. apply spec_bind, spec_eliminate.
    + intros x k Hx. destruct k; discriminate.
    + intros _. apply spec_ret, HQ. constructor; [reflexivity | reflexivity | cbn; lia].
Qed.

(** ** The shuffle *)

Lemma assign_length {A : Type} (l : list A) (i : nat) (x : A) :
  length (assign l i x) = length l.
Proof.
  revert i. induction l as [ | y rest IH]; intros [ | i]; simpl; auto.
Qed.

Lemma nth_error_assign_same {A : Type} (l : list A) (i : nat) (x : A) :
  (i < length l)%nat -> nth_error (assign l i x) i = Some x.
Proof.
  revert i. induction l as [ | y rest IH]; intros [ | i]; simpl; try lia; auto.
  intros H. apply IH. lia.
Qed.

Lemma nth_error_assign_other {A : Type} (l : list A) (i j : nat) (x : A) :
  i <> j -> nth_error (assign l i x) j = nth_error l j.
Proof.
  revert i j. induction l as [ | y rest IH]; intros [ | i] [ | j]; simpl; try congruence; auto.
Qed.

Lemma assign_perm {A : Type} (l : list A) (i : nat) (x y : A) :
  nth_error l i = Some y -> Permutation (x :: l) (y :: assign l i x).
Proof.
  revert i. induction l as [ | z rest IH]; intros [ | i]; simpl; try discriminate.
  - intros [= ->]. apply perm_swap.
  - intros H. rewrite perm_swap, (IH i H). apply perm_swap.
Qed.

(** Exchanging two entries permutes the array. *)
Lemma swap_perm {A : Type} (l : list A) (i j : nat) (ai aj : A) :
  nth_error l i = Some ai -> nth_error l j = Some aj ->
  Permutation (assign (assign l i aj) j ai) l.
Proof.
  intros Hi Hj.
  assert (Li : (i < length l)%nat) by (apply nth_error_Some; congruence).
  assert (Hj' : nth_error (assign l i aj) j = Some aj).
  { destruct (Nat.eq_dec i j) as [<- | Hne].
    - apply nth_error_assign_same. exact Li.
    - rewrite nth_error_assign_other by assumption. exact Hj. }
  apply (Permutation_cons_inv (a := aj)).
  rewrite <- (assign_perm _ j ai aj Hj').
  symmetry. apply assign_perm. exact Hi.
Qed.

Lemma spec_shuffleLoop (i : nat) :
  forall (arr : list string) (c : nat) (Q : list string -> nat -> Prop),
    (i < length arr \/ i = 0)%nat ->
    (forall arr' c', Permutation arr' arr -> Q arr' c') ->
    spec md (shuffleLoop rng i arr) c Q.
Proof.
  induction i as [ | i IH]; intros arr c Q Hi HQ; cbn [shuffleLoop].
  - apply spec_ret, HQ. reflexivity.
  - destruct Hi as [Hi | Hi]; [ | discriminate ].
    apply spec_bind, spec_next.
    replace (Z.of_nat (S i) + 1) with (Z.of_nat (S (S i))) by lia.
    fold (indexAt rng (S (S i)) c).
    pose proof (indexAt_range rng Hcontract (S (S i)) c ltac:(lia)) as Hj.
    set (j := indexAt rng (S (S i)) c) in *.
    destruct (item_in_range arr (Z.of_nat (S i)) ltac:(lia)) as (ai & Hai & Hni & _).
    destruct (item_in_range arr j ltac:(lia)) as (aj & Haj & Hnj & _).
    rewrite Nat2Z.id in Hni.
    apply spec_bind. eapply spec_defined; [exact Hai | ].
    apply spec_bind. eapply spec_defined; [exact Haj | ].
    apply IH.
    + left. rewrite !assign_length. lia.
    + intros arr' c' Hp. apply HQ. rewrite Hp. apply swap_perm; assumption.
Qed.

Lemma spec_shuffle (arr : list string) (c : nat) (Q : list string -> nat -> Prop) :
  (forall arr' c', Permutation arr' arr -> Q arr' c') ->
  spec md (shuffle rng arr) c Q.
Proof.
  intros HQ. unfold shuffle. apply spec_shuffleLoop; [ | exact HQ ].
  destruct arr; simpl; lia.
Qed.

End Stages.

(** ** The finale *)

Lemma roundSizesFrom_stable (k : nat) :
  forall k' n, (n <= k)%nat -> (n <= k')%nat -> roundSizesFrom k n = roundSizesFrom k' n.
Proof.
  induction k as [ | k IH]; intros k' n Hk Hk'.
  - assert (n = 0)%nat as -> by lia. destruct k'; reflexivity.
  - destruct k' as [ | k'].
    + assert (n = 0)%nat as -> by lia. reflexivity.
    + cbn [roundSizesFrom]. destruct (Nat.ltb_spec 1 n) as [Hn | Hn]; [ | reflexivity ].
      f_equal. assert ((n + 1) / 2 < n)%nat by (apply Nat.Div0.div_lt_upper_bound; lia).
      apply IH; lia.
Qed.

Lemma roundSizes_step (n : nat) :
  (1 < n)%nat -> roundSizes n = n :: roundSizes ((n + 1) / 2).
Proof.
  intros Hn. unfold roundSizes. destruct n as [ | n]; [lia | ]. cbn [roundSizesFrom].
  destruct (Nat.ltb_spec 1 (S n)) as [_ | H]; [ | lia ].
  f_equal. assert ((S n + 1) / 2 < S n)%nat by (apply Nat.Div0.div_lt_upper_bound; lia).
  apply roundSizesFrom_stable; lia.
Qed.

Lemma roundSizes_done (n : nat) : (n <= 1)%nat -> roundSizes n = [].
Proof.
  intros Hn. unfold roundSizes. destruct n as [ | n]; [reflexivity | ]. cbn [roundSizesFrom].
  destruct (Nat.ltb_spec 1 (S n)); [lia | reflexivity].
Qed.

Lemma half_step (m : nat) : ((S (S m) + 1) / 2 = S ((m + 1) / 2))%nat.
Proof.
  replace (S (S m) + 1)%nat with (m + 1 + 1 * 2)%nat by lia.
  rewrite Nat.div_add by lia. lia.
Qed.

Lemma parity_step (m : nat) : (S (S m) mod 2 = m mod 2)%nat.
Proof.
  replace (S (S m)) with (m + 1 * 2)%nat by lia. apply Nat.Div0.mod_add.
Qed.

Lemma finaleSpec_done (cs : list string) : (length cs <= 1)%nat -> finaleSpec cs cs [].
Proof.
  intros H. constructor.
  - lia.
  - apply incl_refl.
  - rewrite roundSizes_done by assumption. reflexivity.
  - rewrite roundSizes_done by assumption. reflexivity.
Qed.

Lemma finaleSpec_step (cs next fc : list string) (pairs : list Pairing.t)
  (rounds : list (list Pairing.t)) :
  (1 < length cs)%nat ->
  length next = ((length cs + 1) / 2)%nat -> incl next cs ->
  participants pairs = length cs -> byes pairs = (length cs mod 2)%nat ->
  finaleSpec next fc rounds -> finaleSpec cs fc (pairs :: rounds).
Proof.
  intros Hcs Hlen Hincl Hpart Hbyes [H1 H2 H3 H4].
  assert (Hpos : (1 <= (length cs + 1) / 2)%nat).
  { apply Nat.div_le_lower_bound; lia. }
  constructor.
  - lia.
  - intros x Hx. auto.
  - rewrite roundSizes_step by assumption. cbn [map]. congruence.
  - rewrite roundSizes_step by assumption. cbn [map]. congruence.
Qed.

Section Finale.

Variable rng : nat -> Q.

(** A round draws once per pair and needs no fuel. *)
Lemma playRound_run (n : nat) :
  forall (cs : list string) (c : nat),
    (length cs <= n)%nat ->
    exists next pairs c',
      (forall fuel, playRound rng cs fuel c = (Return (next, pairs), c')) /\
      length next = ((length cs + 1) / 2)%nat /\ incl next cs /\
      participants pairs = length cs /\ byes pairs = (length cs mod 2)%nat.
Proof.
  induction n as [ | n IH]; intros cs c Hlen.
  - destruct cs; [ | simpl in Hlen; lia ].
    exists [], [], c. repeat split. apply incl_refl.
  - destruct cs as [ | a [ | b rest]].
    + exists [], [], c. repeat split. apply incl_refl.
    + exists [a], [{| Pairing.a := a; Pairing.b := None;
                     Pairing.winner := a; Pairing.bye := true |}], c.
      repeat split. apply incl_refl.
    + destruct (IH rest (S c)) as (adv & pairs & c' & Hrun & Hn & Hincl & Hp & Hb).
      { simpl in Hlen. lia. }
      set (winner := if Qltb (rng c) (1 # 2) then a else b).
      exists (winner :: adv),
        ({| Pairing.a := a; Pairing.b := Some b;
            Pairing.winner := winner; Pairing.bye := false |} :: pairs), c'.
      split; [ | repeat split ].
      * intros fuel. cbn [playRound]. unfold bind, next. rewrite Hrun. reflexivity.
      * cbn [length]. rewrite half_step. congruence.
      * intros x [<- | Hx].
        -- unfold winner. destruct (Qltb (rng c) (1 # 2)); simpl; auto.
        -- right. right. auto.
      * cbn [participants fold_right Pairing.b]. fold (participants pairs).
        rewrite Hp. reflexivity.
      * unfold byes. cbn [filter Pairing.bye]. fold (byes pairs).
        cbn [length]. rewrite parity_step. exact Hb.
Qed.

Lemma finaleLoop_partial (n : nat) :
  forall (cs : list string) (rounds : list (list Pairing.t)) (fuel c : nat),
    match finaleLoop rng n cs rounds fuel c with
    | (Return (fc, rs), _) => exists new, rs = rounds ++ new /\ finaleSpec cs fc new
    | (OutOfFuel, _) => True
    | _ => False
    end.
Proof.
  induction n as [ | n IH]; intros cs rounds fuel c.
  - cbn [finaleLoop]. destruct (Nat.ltb_spec 1 (length cs)) as [H | H]; [exact I | ].
    exists []. split; [symmetry; apply app_nil_r | apply finaleSpec_done; exact H].
  - cbn [finaleLoop]. destruct (Nat.ltb_spec 1 (length cs)) as [H | H].
    + destruct (playRound_run _ cs c (le_n _)) as (next & pairs & c' & Hrun & Hn & Hi & Hp & Hb).
      unfold bind. rewrite Hrun.
      specialize (IH next (rounds ++ [pairs]) fuel c').
      destruct (finaleLoop rng n next (rounds ++ [pairs]) fuel c') as [[[fc rs] | e | | ] c''];
        try exact IH.
      destruct IH as (new & -> & Hspec). exists (pairs :: new). split.
      * rewrite <- app_assoc. reflexivity.
      * eapply finaleSpec_step; eassumption.
    + exists []. split; [symmetry; apply app_nil_r | apply finaleSpec_done; exact H].
Qed.

Lemma finaleLoop_total (m : nat) :
  forall (cs : list string) (rounds : list (list Pairing.t)) (c : nat),
    (length cs <= m)%nat ->
    exists fc new c',
      finaleSpec cs fc new /\
      forall n fuel, (m <= n)%nat ->
        finaleLoop rng n cs rounds fuel c = (Return (fc, rounds ++ new), c').
Proof.
  induction m as [ | m IH]; intros cs rounds c Hlen.
  - exists cs, [], c. split; [apply finaleSpec_done; lia | ].
    intros n fuel _. rewrite app_nil_r.
    destruct n; cbn [finaleLoop];
      (destruct (Nat.ltb_spec 1 (length cs)); [lia | reflexivity]).
  - destruct (Nat.le_gt_cases (length cs) 1) as [H | H].
    + exists cs, [], c. split; [apply finaleSpec_done; lia | ].
      intros n fuel _. rewrite app_nil_r.
      destruct n; cbn [finaleLoop];
        (destruct (Nat.ltb_spec 1 (length cs)); [lia | reflexivity]).
    + destruct (playRound_run _ cs c (le_n _)) as (next & pairs & c' & Hrun & Hn & Hi & Hp & Hb).
      assert (Hhalf : ((length cs + 1) / 2 < length cs)%nat).
      { apply Nat.Div0.div_lt_upper_bound; lia. }
      destruct (IH next (rounds ++ [pairs]) c') as (fc & new & c'' & Hspec & Hloop); [lia | ].
      exists fc, (pairs :: new), c''. split.
      * eapply finaleSpec_step; eassumption.
      * intros [ | n] fuel Hnm; [lia | ]. cbn [finaleLoop].
        destruct (Nat.ltb_spec 1 (length cs)); [ | lia ].
        unfold bind. rewrite Hrun, Hloop by lia.
        rewrite <- app_assoc. reflexivity.
Qed.

Lemma spec_finale (md : mode) (cs : list string) (c : nat)
  (Q : list string * list (list Pairing.t) -> nat -> Prop) :
  (forall fc rounds c', finaleSpec cs fc rounds -> Q (fc, rounds) c') ->
  spec md (finale rng cs) c Q.
Proof.
  intros HQ. destruct md; simpl.
  - intros fuel. unfold finale.
    pose proof (finaleLoop_partial fuel cs [] fuel c) as H.
    destruct (finaleLoop rng fuel cs [] fuel c) as [[[fc rs] | e | | ] c']; try exact H.
    destruct H as (new & -> & Hspec). apply HQ. exact Hspec.
  - destruct (finaleLoop_total _ cs [] c (le_n _)) as (fc & new & c' & Hspec & Hloop).
    exists (fc, new), c', (length cs). split; [apply HQ; exact Hspec | ].
    intros fuel Hfuel. unfold finale. apply Hloop. exact Hfuel.
Qed.

End Finale.

(** ** Bracket formation *)

Lemma nth_assign {A : Type} (l : list A) (i k : nat) (x d : A) :
  (i < length l)%nat ->
  nth k (assign l i x) d = if (k =? i)%nat then x else nth k l d.
Proof.
  intros Hi. destruct (Nat.eqb_spec k i) as [-> | Hne].
  - apply nth_error_nth. apply nth_error_assign_same. exact Hi.
  - destruct (nth_error l k) as [y | ] eqn:Hy.
    + rewrite (nth_error_nth _ _ _ Hy). apply nth_error_nth.
      rewrite nth_error_assign_other by congruence. exact Hy.
    + apply nth_error_None in Hy.
      rewrite !nth_overflow; try reflexivity; rewrite ?assign_length; lia.
Qed.

Lemma sliceLoop_spec (count : nat) (queens : list string) :
  (0 < count)%nat ->
  forall (i : nat) (brackets : list (list string)),
    length brackets = count ->
    exists bs,
      sliceLoop i queens count brackets = Return bs /\
      length bs = count /\
      forall k, (k < count)%nat ->
        nth k bs [] =
        nth k brackets [] ++
        map snd (filter (fun p => (fst p mod count =? k)%nat)
                   (combine (seq i (length queens)) queens)).
Proof.
  intros Hcount. induction queens as [ | q rest IH]; intros i brackets Hlen.
  - exists brackets. repeat split; [exact Hlen | ].
    intros k _. cbn. rewrite app_nil_r. reflexivity.
  - cbn [sliceLoop].
    assert (Hmod : (i mod count < length brackets)%nat).
    { rewrite Hlen. apply Nat.mod_upper_bound. lia. }
    destruct (nth_error brackets (i mod count)) as [b | ] eqn:Hb;
      [ | apply nth_error_None in Hb; lia ].
    destruct (IH (S i) (assign brackets (i mod count) (b ++ [q]))) as (bs & Hrun & Hl & Hnth).
    { rewrite assign_length. exact Hlen. }
    exists bs. repeat split; [exact Hrun | exact Hl | ].
    intros k Hk. rewrite (Hnth k Hk), nth_assign by exact Hmod.
    cbn [length seq combine filter fst].
    rewrite (Nat.eqb_sym k (i mod count)).
    destruct (Nat.eqb_spec (i mod count) k) as [E | E].
    + rewrite <- E, (nth_error_nth _ _ _ Hb). cbn [map snd].
      rewrite <- app_assoc. reflexivity.
    + reflexivity.
Qed.

Lemma sliceIntoBrackets_spec (queens : list string) (count : nat) :
  (0 < count)%nat ->
  exists bs,
    sliceIntoBrackets queens count = Return bs /\
    length bs = count /\
    forall k, (k < count)%nat -> nth k bs [] = bracketMembers queens count k.
Proof.
  intros Hcount. unfold sliceIntoBrackets.
  destruct (sliceLoop_spec count queens Hcount 0 (repeat [] count)) as (bs & Hrun & Hl & Hnth).
  { apply repeat_length. }
  exists bs. repeat split; [exact Hrun | exact Hl | ].
  intros k Hk. rewrite (Hnth k Hk), nth_repeat. reflexivity.
Qed.

(** Among [count] consecutive indices from a multiple of [count] on, one
    leaves the remainder [k]. *)
Lemma remainder_in_block (count s k i : nat) :
  (k < count)%nat -> (count * s <= i < count * s + count)%nat ->
  (i mod count = k <-> i = count * s + k)%nat.
Proof.
  intros Hk Hi.
  assert (E : (i mod count = i - count * s)%nat).
  { replace i with ((i - count * s) + s * count)%nat at 1 by lia.
    rewrite Nat.Div0.mod_add. apply Nat.mod_small. lia. }
  rewrite E. lia.
Qed.

Lemma filter_block (count s k : nat) :
  (k < count)%nat ->
  forall len start,
    (count * s <= start)%nat -> (start + len <= count * s + count)%nat ->
    filter (fun i => (i mod count =? k)%nat) (seq start len)
    = if ((start <=? count * s + k) && (count * s + k <? start + len))%nat
      then [count * s + k]%nat else [].
Proof.
  intros Hk. induction len as [ | len IH]; intros start Hlo Hhi.
  - cbn [seq filter].
    destruct (Nat.leb_spec start (count * s + k)), (Nat.ltb_spec (count * s + k) (start + 0));
      cbn; try reflexivity; lia.
  - cbn [seq filter].
    pose proof (remainder_in_block count s k start Hk ltac:(lia)) as Hrem.
    destruct (Nat.eqb_spec (start mod count) k) as [E | E].
    + apply Hrem in E. rewrite IH by lia.
      destruct (Nat.leb_spec (S start) (count * s + k)); [lia | ].
      destruct (Nat.leb_spec start (count * s + k)); [ | lia ].
      destruct (Nat.ltb_spec (count * s + k) (start + S len)); [ | lia ].
      cbn. congruence.
    + rewrite IH by lia.
      assert (start <> count * s + k)%nat by tauto.
      destruct (Nat.leb_spec (S start) (count * s + k)),
        (Nat.leb_spec start (count * s + k)),
        (Nat.ltb_spec (count * s + k) (S start + len)),
        (Nat.ltb_spec (count * s + k) (start + S len)); cbn; try reflexivity; lia.
Qed.

(** The indices below [count * size] with remainder [k]. *)
Lemma filter_remainder (count size k : nat) :
  (k < count)%nat ->
  filter (fun i => (i mod count =? k)%nat) (seq 0 (count * size))
  = map (fun j => (count * j + k)%nat) (seq 0 size).
Proof.
  intros Hk. induction size as [ | s IH].
  - rewrite Nat.mul_0_r. reflexivity.
  - replace (count * S s)%nat with (count * s + count)%nat by lia.
    rewrite seq_app, filter_app, IH, seq_S, map_app. cbn [map Nat.add].
    f_equal. rewrite (filter_block count s k Hk) by lia.
    destruct (Nat.leb_spec (count * s) (count * s + k)); [ | lia ].
    destruct (Nat.ltb_spec (count * s + k) (count * s + count)); [ | lia ].
    reflexivity.
Qed.

Lemma filter_combine_fst {A : Type} (f : nat -> bool) (l1 : list nat) :
  forall l2 : list A, length l1 = length l2 ->
    map fst (filter (fun p => f (fst p)) (combine l1 l2)) = filter f l1.
Proof.
  induction l1 as [ | x rest IH]; intros [ | y l2] Hlen; simpl in *; try lia; [reflexivity | ].
  destruct (f x); simpl; rewrite IH by lia; reflexivity.
Qed.

Lemma bracketMembers_length (queens : list string) (count size k : nat) :
  length queens = (count * size)%nat -> (k < count)%nat ->
  length (bracketMembers queens count k) = size.
Proof.
  intros Hlen Hk. unfold bracketMembers.
  rewrite length_map, <- (length_map fst).
  rewrite (filter_combine_fst (fun i => (i mod count =? k)%nat))
    by (rewrite length_seq; reflexivity).
  rewrite Hlen, filter_remainder by assumption.
  rewrite length_map, length_seq. reflexivity.
Qed.

Lemma concat_assign_perm (bs : list (list string)) (k : nat) (b : list string) (q : string) :
  nth_error bs k = Some b ->
  Permutation (concat (assign bs k (b ++ [q]))) (q :: concat bs).
Proof.
  revert k. induction bs as [ | b0 rest IH]; intros [ | k]; simpl; try discriminate.
  - intros [= ->]. rewrite <- app_assoc. cbn [app].
    rewrite <- Permutation_middle. reflexivity.
  - intros H. rewrite (IH k H). rewrite <- Permutation_middle. reflexivity.
Qed.

Lemma sliceLoop_perm (count : nat) (queens : list string) :
  forall (i : nat) (brackets bs : list (list string)),
    sliceLoop i queens count brackets = Return bs ->
    Permutation (concat bs) (concat brackets ++ queens).
Proof.
  induction queens as [ | q rest IH]; intros i brackets bs; cbn [sliceLoop].
  - intros [= ->]. rewrite app_nil_r. reflexivity.
  - destruct (nth_error brackets (i mod count)) as [b | ] eqn:Hb; [ | discriminate ].
    intros Hrun. rewrite (IH _ _ _ Hrun), (concat_assign_perm _ _ _ _ Hb).
    rewrite <- Permutation_middle. reflexivity.
Qed.

(** The brackets hold every queen once. *)
Lemma sliceIntoBrackets_perm (queens : list string) (count : nat) (bs : list (list string)) :
  sliceIntoBrackets queens count = Return bs -> Permutation (concat bs) queens.
Proof.
  intros H. apply sliceLoop_perm in H. rewrite H.
  replace (concat (repeat [] count)) with (@nil string); [reflexivity | ].
  induction count; simpl; auto.
Qed.

(** ** The season *)

Lemma orDefault_pos (o : option nat) (d : nat) : (0 < d)%nat -> (0 < orDefault o d)%nat.
Proof. intros H. destruct o as [[ | n] | ]; simpl; lia. Qed.

Lemma in_combine_seq {A : Type} (l : list A) (i : nat) (x : A) :
  forall start, In (i, x) (combine (seq start (length l)) l) -> In x l.
Proof. intros start H. eapply in_combine_r. exact H. Qed.

Section SeasonSpec.

Variable localeCompare : string -> string -> Z.
Variable rng : nat -> Q.
Variable md : mode.
Hypothesis Hcontract : contract rng.

Lemma spec_simulateAllStars10 (initialQueens : list queen) (opts : options)
  (clock : string) (c : nat) (Q : Season.t -> nat -> Prop) :
  let count := orDefault (bracketCount opts) 3 in
  let size := orDefault (bracketSize opts) 6 in
  length initialQueens = (count * size)%nat ->
  (md = Total -> (2 <= size)%nat -> fair rng size) ->
  (forall r c',
      seasonSpec localeCompare (map queenName initialQueens) count clock r -> Q r c') ->
  spec md (simulateAllStars10 localeCompare rng initialQueens opts clock) c Q.
Proof.
  intros count size Hlen Hfair HQ. unfold simulateAllStars10.
  fold count. fold size. set (names := map queenName initialQueens).
  assert (Hnames : length names = (count * size)%nat).
  { unfold names. rewrite length_map. exact Hlen. }
  rewrite Hnames, Nat.eqb_refl. cbn [negb].
  assert (Hcount : (0 < count)%nat) by (apply orDefault_pos; lia).
  assert (Hsize : (0 < size)%nat) by (apply orDefault_pos; lia).
  destruct (sliceIntoBrackets_spec names count Hcount) as (bs & Hslice & Hbs & Hnth).
  apply spec_bind. eapply spec_lift; [exact Hslice | ].
  apply spec_bind. apply (spec_brackets rng md Hcontract localeCompare).
  { intros [i qs] Hin. cbn [snd]. apply in_combine_seq in Hin.
    destruct (In_nth _ _ [] Hin) as (k & Hk & <-).
    rewrite Hnth by lia.
    rewrite (bracketMembers_length names count size k Hnames) by lia.
    split; [ | exact Hfair ].
    intros E. apply (f_equal (@length string)) in E.
    rewrite (bracketMembers_length names count size k Hnames) in E by lia.
    simpl in E. lia. }
  intros results c1 Hresults. cbn [app].
  apply spec_bind, (spec_semifinal rng md Hcontract).
  intros elims fin c2 Hsemi.
  apply spec_bind, (spec_shuffle rng md Hcontract).
  intros shuffled c3 Hperm.
  apply spec_bind, spec_finale.
  intros fc rounds c4 Hfinale.
  apply spec_ret, HQ. constructor; cbn.
  - reflexivity.
  - exists bs. split; assumption.
  - reflexivity.
  - reflexivity.
  - exact Hsemi.
  - exists shuffled, fc. auto.
Qed.

End SeasonSpec.

(** ** From [spec] to statements about runs *)

Lemma spec_onReturn {A : Type} (m : M A) (P : A -> Prop) :
  (forall c, spec Partial m c (fun a _ => P a)) -> onReturn m P.
Proof. intros H fuel c. exact (H c fuel). Qed.

Lemma spec_returnsWith {A : Type} (m : M A) (P : A -> Prop) :
  (forall c, spec Total m c (fun a _ => P a)) -> returnsWith m P.
Proof.
  intros H c. destruct (spec_total_run _ _ _ (H c)) as (fuel & a & c' & Hrun & HP).
  exists fuel, a, c'. auto.
Qed.

(** ** Consequences of [episodeSpec] *)

Lemma NoDup_nth_error_neq (l : list string) (a b : nat) (x y : string) :
  NoDup l -> a <> b -> nth_error l a = Some x -> nth_error l b = Some y -> x <> y.
Proof.
  intros Hnd Hab Ha Hb E. subst y. apply Hab.
  apply (proj1 (NoDup_nth_error l) Hnd).
  - apply nth_error_Some. congruence.
  - congruence.
Qed.

Lemma twoWinners_distinct (qs ws : list string) :
  NoDup qs -> (2 <= length qs)%nat -> twoWinners qs ws ->
  exists w1 w2, ws = [w1; w2] /\ w1 <> w2 /\ In w1 qs /\ In w2 qs.
Proof.
  intros Hnd Hlen [[Hlt _] | (a & b & wa & wb & Hab & Ha & Hb & ->)]; [lia | ].
  exists wa, wb. repeat split.
  - eapply NoDup_nth_error_neq; eassumption.
  - eapply nth_error_In; eassumption.
  - eapply nth_error_In; eassumption.
Qed.

(** Taking two of its members out of a group without repetition. *)
Lemma filter_out_two (w1 w2 : string) (l : list string) :
  NoDup l -> w1 <> w2 ->
  (length (filter (fun q => negb (includes [w1; w2] q)) l)
   + (if in_dec string_dec w1 l then 1 else 0)
   + (if in_dec string_dec w2 l then 1 else 0) = length l)%nat.
Proof.
  intros Hnd Hne. induction l as [ | x rest IH]; [reflexivity | ].
  inversion Hnd as [ | ? ? Hx Hrest]; subst. specialize (IH Hrest).
  cbn [filter includes existsb]. rewrite orb_false_r.
  destruct (in_dec string_dec w1 (x :: rest)) as [H1 | H1],
    (in_dec string_dec w2 (x :: rest)) as [H2 | H2],
    (in_dec string_dec w1 rest) as [R1 | R1],
    (in_dec string_dec w2 rest) as [R2 | R2],
    (String.eqb_spec x w1) as [E1 | E1], (String.eqb_spec x w2) as [E2 | E2];
    cbn [orb negb length]; subst; simpl in *; try lia; try tauto; try congruence;
    exfalso; intuition congruence.
Qed.

Lemma filter_all {A : Type} (f : A -> bool) (l : list A) :
  (forall x, In x l -> f x = true) -> filter f l = l.
Proof.
  induction l as [ | a rest IH]; simpl; intros H; [reflexivity | ].
  rewrite (H a) by auto. f_equal. apply IH. auto.
Qed.

(** In a group without the name [__proto__] every award is stored. *)
Lemma episodeSpec_sum (qs : list string) (r : EpisodeRes.t) :
  ~ In "__proto__" qs -> episodeSpec qs r ->
  sumValues (EpisodeRes.points r)
  = 2 * Z.of_nat (length (Detail.winners (EpisodeRes.detail r))) + 1
    + Z.of_nat (length (Detail.mvqAssignments (EpisodeRes.detail r))).
Proof.
  intros Hproto Hep. rewrite (es_sum _ _ Hep).
  pose proof (twoWinners_incl _ _ (es_winners _ _ Hep)) as Hincl.
  rewrite (filter_all storable (Detail.winners (EpisodeRes.detail r)))
    by (intros w Hw; apply (storable_In qs); auto).
  rewrite (filter_all storable [Detail.lipSyncWinner (EpisodeRes.detail r)])
    by (intros w [<- | []]; apply (storable_In qs); auto; apply Hincl, (es_lip _ _ Hep)).
  rewrite (filter_all (fun m => storable (Mvq.to m))
             (Detail.mvqAssignments (EpisodeRes.detail r)))
    by (intros m Hm; apply (storable_In qs); auto; apply (es_to _ _ Hep m Hm)).
  cbn [length]. unfold name in *. lia.
Qed.


Lemma episodeSpec_winnersPoints (qs : list string) (r : EpisodeRes.t) :
  (2 <= length qs)%nat -> NoDup qs -> ~ In "__proto__" qs -> episodeSpec qs r ->
  winnersPoints r.
Proof.
  intros Hlen Hnd Hproto Hep.
  destruct (twoWinners_distinct qs _ Hnd Hlen (es_winners _ _ Hep))
    as (w1 & w2 & Hws & Hne & H1 & H2).
  exists w1, w2. split; [exact Hws | ]. split; [exact Hne | ]. cbv zeta.
  pose proof (es_lip _ _ Hep) as Hlip. rewrite Hws in Hlip.
  pose proof (es_points _ _ Hep) as Hpts. unfold basePoints in Hpts. rewrite Hws in Hpts.
  assert (Hvalue : forall q, In q qs ->
            pointsOf (EpisodeRes.points r) q
            = 2 * Z.of_nat (count_occ string_dec [w1; w2] q)
              + (if String.eqb (Detail.lipSyncWinner (EpisodeRes.detail r)) q then 1 else 0)
              + received (Detail.mvqAssignments (EpisodeRes.detail r)) q).
  { intros q Hq. unfold pointsOf. rewrite (Hpts q Hq (storable_In qs q Hproto Hq)).
    reflexivity. }
  destruct Hlip as [E | [E | []]]; rewrite <- E in *.
  - split; [left; reflexivity | ]. rewrite String.eqb_refl.
    rewrite (Hvalue w1 H1), (Hvalue w2 H2). rewrite String.eqb_refl.
    destruct (String.eqb_spec w1 w2); [contradiction | ].
    cbn [count_occ].
    destruct (string_dec w1 w1), (string_dec w2 w1), (string_dec w1 w2), (string_dec w2 w2);
      try congruence; split; lia.
  - split; [right; reflexivity | ].
    destruct (String.eqb_spec w2 w1) as [E' | _]; [congruence | ].
    rewrite (Hvalue w1 H1), (Hvalue w2 H2). rewrite String.eqb_refl.
    destruct (String.eqb_spec w2 w1); [congruence | ].
    cbn [count_occ].
    destruct (string_dec w1 w1), (string_dec w2 w1), (string_dec w1 w2), (string_dec w2 w2);
      try congruence; split; lia.
Qed.

Lemma episodeSpec_noSelfAward (qs : list string) (r : EpisodeRes.t) :
  episodeSpec qs r -> noSelfAward qs r.
Proof.
  intros Hep m Hm. destruct (es_to _ _ Hep m Hm) as [Hne Hto].
  repeat split; [congruence | | exact Hto].
  assert (Hfrom : In (Mvq.from m) (map Mvq.from (Detail.mvqAssignments (EpisodeRes.detail r))))
    by (apply in_map; exact Hm).
  rewrite (es_from _ _ Hep) in Hfrom. apply filter_In in Hfrom. tauto.
Qed.

(** ** Consequences of [seasonSpec] *)

Lemma firstn_incl {A : Type} (n : nat) (l : list A) : incl (firstn n l) l.
Proof.
  intros x Hx. rewrite <- (firstn_skipn n l). apply in_or_app. left. exact Hx.
Qed.

Lemma NoDup_firstn {A : Type} (n : nat) (l : list A) : NoDup l -> NoDup (firstn n l).
Proof.
  intros H. rewrite <- (firstn_skipn n l) in H. eapply NoDup_app_remove_r. exact H.
Qed.

Lemma NoDup_app_inv {A : Type} (l1 l2 : list A) :
  NoDup (l1 ++ l2) -> NoDup l1 /\ NoDup l2 /\ forall x, In x l1 -> ~ In x l2.
Proof.
  induction l1 as [ | a rest IH]; simpl; intros H.
  - repeat split; [constructor | exact H | intros x []].
  - inversion H as [ | ? ? Ha Hrest]; subst.
    destruct (IH Hrest) as (H1 & H2 & H3). repeat split.
    + constructor; [ | exact H1 ]. intros Hin. apply Ha. apply in_or_app. auto.
    + exact H2.
    + intros x [<- | Hx] Hx2; [apply Ha; apply in_or_app; auto | exact (H3 x Hx Hx2)].
Qed.

Lemma storable_length (qs : list string) :
  NoDup qs -> (length qs <= length (filter storable qs) + 1)%nat.
Proof.
  induction qs as [ | x rest IH]; intros Hnd; [simpl; lia | ].
  inversion Hnd as [ | ? ? Hx Hrest]; subst. cbn [filter].
  destruct (storable x) eqn:Hs; cbn [length].
  - specialize (IH Hrest). unfold name in *. lia.
  - rewrite filter_storable; [unfold name in *; lia | ].
    intros Hin. apply Hx. destruct (String.eqb_spec x "__proto__") as [-> | Hne].
    + exact Hin.
    + apply storable_true in Hne. congruence.
Qed.

(** The three leaders of a bracket are three of its queens. *)
Lemma bracketSpec_top3 (lc : string -> string -> Z) (i : nat) (qs : list string)
  (br : BracketResult.t) :
  bracketSpec lc i qs br ->
  NoDup (top3 br) /\ incl (top3 br) qs /\
  (NoDup qs -> length (top3 br) = Nat.min 3 (length (filter storable qs))).
Proof.
  intros Hbr. unfold top3. rewrite <- firstn_map.
  pose proof (rankByPoints_names lc (BracketResult.points br)) as Hperm.
  rewrite <- (bs_standings _ _ _ _ Hbr), (bs_keys _ _ _ _ Hbr) in Hperm.
  repeat split.
  - apply NoDup_firstn. eapply Permutation_NoDup; [symmetry; exact Hperm | ].
    apply zeroPoints_NoDup.
  - intros x Hx. apply firstn_incl in Hx. apply (zeroPoints_In qs).
    eapply Permutation_in; eassumption.
  - intros Hnd. rewrite length_firstn, (Permutation_length Hperm).
    rewrite (zeroPoints_keys qs Hnd). reflexivity.
Qed.

Lemma Forall2_combine_snd {A B C : Type} (R : A -> B -> C -> Prop) (l1 : list A) :
  forall (l2 : list B) (rs : list C),
    length l1 = length l2 ->
    Forall2 (fun iq r => R (fst iq) (snd iq) r) (combine l1 l2) rs ->
    Forall2 (fun q r => exists i, R i q r) l2 rs.
Proof.
  induction l1 as [ | i rest IH]; intros [ | q l2] rs Hlen H; simpl in *; try lia.
  - inversion H. constructor.
  - inversion H as [ | ? ? ? ? Hhead Htail]; subst. constructor.
    + exists i. exact Hhead.
    + apply IH; [lia | exact Htail].
Qed.

(** A group of four or more, or one without the name [__proto__], gives
    the pool as many leaders as a group of its size can. *)
Lemma pool_facts (lc : string -> string -> Z) (groups : list (list string))
  (results : list BracketResult.t) :
  Forall2 (fun qs br => exists i, bracketSpec lc i qs br) groups results ->
  incl (flat_map top3 results) (concat groups) /\
  (NoDup (concat groups) -> NoDup (flat_map top3 results)) /\
  (forall size, NoDup (concat groups) ->
     Forall (fun qs => length qs = size /\ ((4 <= size)%nat \/ ~ In "__proto__" qs)) groups ->
     length (flat_map top3 results) = (length groups * Nat.min 3 size)%nat) /\
  length results = length groups /\
  Forall (fun br => length (BracketResult.episodes br) = 3%nat) results.
Proof.
  induction 1 as [ | qs br groups results [i Hbr] Hrest IH]; cbn [flat_map concat length].
  - repeat split; try constructor. intros x [].
  - destruct IH as (Hincl & Hnd & Hlen & Hcount & Heps).
    destruct (bracketSpec_top3 _ _ _ _ Hbr) as (Tnd & Tincl & Tlen).
    repeat split.
    + intros x Hx. apply in_app_or in Hx. apply in_or_app.
      destruct Hx; [left | right]; auto.
    + intros Hall. destruct (NoDup_app_inv _ _ Hall) as (H1 & H2 & H3).
      apply NoDup_app; auto.
      intros x Hx Hx'. apply (H3 x); auto.
    + intros size Hall Hsize. destruct (NoDup_app_inv _ _ Hall) as (H1 & H2 & _).
      inversion Hsize as [ | ? ? [Hq Hfull] Hqs]; subst.
      rewrite length_app, (Hlen _ H2 Hqs), (Tlen H1).
      assert (E : Nat.min 3 (length (filter storable qs)) = Nat.min 3 (length qs)).
      { destruct Hfull as [Hfour | Hproto].
        - pose proof (storable_length qs H1). unfold name in *. lia.
        - rewrite (filter_storable qs Hproto). reflexivity. }
      lia.
    + lia.
    + constructor; [ | exact Heps ].
      rewrite <- (length_map EpRecord.episodeNumberInBracket), (bs_numbers _ _ _ _ Hbr).
      reflexivity.
Qed.

Lemma seasonSpec_pool (lc : string -> string -> Z) (names : list string)
  (count size : nat) (clock : string) (r : Season.t) :
  (0 < count)%nat -> length names = (count * size)%nat -> NoDup names ->
  seasonSpec lc names count clock r ->
  NoDup (Season.top9 r) /\ incl (Season.top9 r) names /\
  ((4 <= size)%nat \/ ~ In "__proto__" names ->
   length (Season.top9 r) = (count * Nat.min 3 size)%nat) /\
  length (Season.brackets r) = count /\
  Forall (fun br => length (BracketResult.episodes br) = 3%nat) (Season.brackets r).
Proof.
  intros Hcount Hlen Hnd Hs.
  destruct (ss_brackets _ _ _ _ _ Hs) as (bs & Hslice & Hall).
  apply Forall2_combine_snd in Hall; [ | apply length_seq ].
  destruct (pool_facts lc bs _ Hall) as (Hincl & Hnd9 & Hlen9 & Hres & Heps).
  pose proof (sliceIntoBrackets_perm _ _ _ Hslice) as Hperm.
  assert (Hndc : NoDup (concat bs)) by (eapply Permutation_NoDup; [symmetry | ]; eassumption).
  destruct (sliceIntoBrackets_spec names count Hcount) as (bs' & Hslice' & Hbs & Hnth).
  assert (bs' = bs) as -> by congruence.
  rewrite (ss_top9 _ _ _ _ _ Hs). repeat split.
  - auto.
  - intros x Hx. eapply Permutation_in; [exact Hperm | auto].
  - intros Hfull. rewrite (Hlen9 size Hndc); [congruence | ].
    apply Forall_forall. intros qs Hqs.
    destruct (In_nth _ _ [] Hqs) as (k & Hk & <-).
    rewrite Hnth by lia. split; [apply bracketMembers_length; [exact Hlen | lia] | ].
    destruct Hfull as [Hfour | Hproto]; [left; exact Hfour | right ].
    intros Hin. apply Hproto. eapply Permutation_in; [exact Hperm | ].
    apply in_concat. exists (bracketMembers names count k). split; [ | exact Hin ].
    rewrite <- Hnth by lia. apply nth_In. lia.
  - congruence.
  - exact Heps.
Qed.

Lemma removeAt_filter (l : list string) :
  forall (k : nat) (x : string),
    NoDup l -> nth_error l k = Some x ->
    removeAt k l = filter (fun q => negb (String.eqb q x)) l.
Proof.
  induction l as [ | y rest IH]; intros [ | k] x Hnd Hx; try discriminate;
    inversion Hnd as [ | ? ? Hy Hrest]; subst.
  - injection Hx as ->. unfold removeAt. cbn. rewrite String.eqb_refl. cbn.
    symmetry. apply filter_all. intros q Hq.
    destruct (String.eqb_spec q x); [subst; contradiction | reflexivity].
  - cbn in Hx. unfold removeAt in *. cbn [firstn skipn app filter].
    destruct (String.eqb_spec y x) as [-> | _].
    + exfalso. apply Hy. eapply nth_error_In. exact Hx.
    + cbn. f_equal. apply IH; assumption.
Qed.

Lemma filter_twice {A : Type} (f g : A -> bool) (l : list A) :
  filter g (filter f l) = filter (fun x => f x && g x) l.
Proof.
  induction l as [ | a rest IH]; simpl; [reflexivity | ].
  destruct (f a); simpl; [destruct (g a); simpl; congruence | exact IH].
Qed.

Lemma semifinalSpec_cut (pool : list string) (elims : list (option string))
  (fin : list string) :
  NoDup pool -> (2 <= length pool)%nat -> semifinalSpec pool elims fin ->
  exists e1 e2,
    elims = [Some e1; Some e2] /\ e1 <> e2 /\ In e1 pool /\ In e2 pool /\
    fin = filter (fun q => negb (String.eqb q e1) && negb (String.eqb q e2)) pool.
Proof.
  intros Hnd Hlen Hs.
  destruct (sf_cut _ _ _ Hs Hlen) as (i1 & i2 & x1 & x2 & H1 & H2 & -> & ->).
  rewrite (removeAt_filter pool i1 x1 Hnd H1) in *.
  assert (Hin2 : In x2 (filter (fun q => negb (String.eqb q x1)) pool))
    by (eapply nth_error_In; exact H2).
  apply filter_In in Hin2. destruct Hin2 as [Hin2 Hne].
  exists x1, x2. repeat split.
  - intros E. subst. rewrite String.eqb_refl in Hne. discriminate.
  - eapply nth_error_In. exact H1.
  - exact Hin2.
  - rewrite (removeAt_filter _ i2 x2 (NoDup_filter _ Hnd) H2). apply filter_twice.
Qed.

Lemma semifinalSpec_incl (pool : list string) (elims : list (option string))
  (fin : list string) :
  semifinalSpec pool elims fin -> incl fin pool.
Proof.
  intros Hs. destruct (Nat.le_gt_cases 2 (length pool)) as [Hlen | Hlen].
  - destruct (sf_cut _ _ _ Hs Hlen) as (i1 & i2 & x1 & x2 & _ & _ & _ & ->).
    intros x Hx. apply removeAt_incl in Hx. apply removeAt_incl in Hx. exact Hx.
  - pose proof (sf_left _ _ _ Hs) as H. destruct fin; [intros x [] | simpl in H; lia].
Qed.

(** The season of 18 queens in 3 brackets of 6. *)
Lemma seasonSpec_defaultShape (lc : string -> string -> Z) (names : list string)
  (clock : string) (r : Season.t) :
  length names = 18%nat -> NoDup names -> seasonSpec lc names 3 clock r ->
  defaultShape names r.
Proof.
  intros Hlen Hnd Hs.
  destruct (seasonSpec_pool lc names 3 6 clock r ltac:(lia) Hlen Hnd Hs)
    as (Hnd9 & Hincl9 & Hlen9 & Hbr & Heps).
  assert (Hfour : (4 <= 6)%nat) by lia. specialize (Hlen9 (or_introl Hfour)).
  pose proof (ss_semifinal _ _ _ _ _ Hs) as Hsemi.
  destruct (ss_finale _ _ _ _ _ Hs) as (shuffled & fc & Hperm & Hfin & Hch).
  assert (Hlen7 : length (Season.finalists r) = 7%nat).
  { rewrite (sf_left _ _ _ Hsemi), Hlen9. reflexivity. }
  assert (Hsh : length shuffled = 7%nat).
  { rewrite (Permutation_length Hperm). exact Hlen7. }
  constructor.
  - exact Hbr.
  - exact Heps.
  - rewrite (ss_episodes _ _ _ _ _ Hs), length_flat_map.
    destruct (Season.brackets r) as [ | b1 [ | b2 [ | b3 [ | ]]]]; try discriminate.
    inversion Heps as [ | ? ? E1 Heps1]; subst.
    inversion Heps1 as [ | ? ? E2 Heps2]; subst.
    inversion Heps2 as [ | ? ? E3 _]; subst.
    cbn. rewrite E1, E2, E3. reflexivity.
  - rewrite Hlen9. reflexivity.
  - exact (sf_two _ _ _ Hsemi).
  - exact Hlen7.
  - rewrite (fs_sizes _ _ _ Hfin), Hsh. reflexivity.
  - rewrite (fs_byes _ _ _ Hfin), Hsh. reflexivity.
  - pose proof (fs_one _ _ _ Hfin) as H1. rewrite Hsh in H1.
    destruct fc as [ | ch [ | ]]; try discriminate.
    exists ch. split; [exact Hch | ].
    apply Hincl9. eapply semifinalSpec_incl; [exact Hsemi | ].
    eapply Permutation_in; [exact Hperm | ].
    apply (fs_from _ _ _ Hfin). left. reflexivity.
Qed.

(** ** Exceptions *)









Section NoThrow.

Variable rng : nat -> Q.









Variable localeCompare : string -> string -> Z.






End NoThrow.

(** ** Sources that stay on one index *)

Lemma bind_stuck {A B : Type} (m : M A) (k : A -> M B) (fuel c : nat) :
  fst (m fuel c) = OutOfFuel -> fst (bind m k fuel c) = OutOfFuel.
Proof.
  unfold bind. destruct (m fuel c) as [[a | e | | ] c']; cbn; try discriminate. reflexivity.
Qed.

Section Stuck.

Variable rng : nat -> Q.

Lemma redrawLoop_stuck (qn : list string) (a : Z) :
  (forall q, indexAt rng (length qn) q = a) ->
  forall n fuel c, fst (redrawLoop rng n qn a fuel c) = OutOfFuel.
Proof.
  intros Hsame. induction n as [ | n IH]; intros fuel c; [reflexivity | ].
  rewrite redrawLoop_S, Hsame, Z.eqb_refl. apply IH.
Qed.

Lemma runEpisodeSix_stuck (qs : list string) (a : Z) :
  (2 <= length qs)%nat -> (forall q, indexAt rng (length qs) q = a) ->
  forall fuel c, fst (runEpisodeSix rng qs fuel c) = OutOfFuel.
Proof.
  intros Hlen Hsame fuel c. unfold runEpisodeSix. apply bind_stuck.
  unfold chooseTwoWinners. destruct (Nat.ltb_spec (length qs) 2); [lia | ].
  unfold bind at 1. unfold pickRandomIndex at 1, bind at 1, next, ret.
  apply bind_stuck. unfold redraw. fold (indexAt rng (length qs) c).
  rewrite Hsame. apply redrawLoop_stuck. exact Hsame.
Qed.

Variable localeCompare : string -> string -> Z.

(** On such a source the season never gets past its first episode. *)
Lemma simulateAllStars10_stuck (initialQueens : list queen) (opts : options)
  (clock : string) (a : Z) :
  length initialQueens
  = (orDefault (bracketCount opts) 3 * orDefault (bracketSize opts) 6)%nat ->
  (2 <= orDefault (bracketSize opts) 6)%nat ->
  (forall q, indexAt rng (orDefault (bracketSize opts) 6) q = a) ->
  forall fuel c,
    fst (simulateAllStars10 localeCompare rng initialQueens opts clock fuel c) = OutOfFuel.
Proof.
  intros Hlen Hsize Hsame fuel c. unfold simulateAllStars10.
  set (count := orDefault (bracketCount opts) 3) in *.
  set (size := orDefault (bracketSize opts) 6) in *.
  set (names := map queenName initialQueens).
  assert (Hnames : length names = (count * size)%nat).
  { unfold names. rewrite length_map. exact Hlen. }
  rewrite Hnames, Nat.eqb_refl. cbn [negb].
  assert (Hcount : (0 < count)%nat) by (apply orDefault_pos; lia).
  destruct (sliceIntoBrackets_spec names count Hcount) as (bs & Hslice & Hbs & Hnth).
  rewrite Hslice. unfold bind at 1, lift at 1.
  destruct bs as [ | b0 rest]; [simpl in Hbs; lia | ].
  assert (Hb0 : length b0 = size).
  { change b0 with (nth 0 (b0 :: rest) []). rewrite Hnth by lia.
    apply bracketMembers_length; [exact Hnames | lia]. }
  apply bind_stuck. cbn [length seq combine foldM]. apply bind_stuck.
  unfold runBracket. apply bind_stuck. cbn [foldM]. apply bind_stuck.
  unfold runBracketEpisode. apply bind_stuck.
  apply (runEpisodeSix_stuck b0 a); rewrite Hb0; assumption.
Qed.

End Stuck.

(** ** The sample sources *)

Lemma roundHalfEven_floor (q : Q) : Qfloor q <= roundHalfEven q.
Proof.
  unfold roundHalfEven.
  destruct (q - inject_Z (Qfloor q) ?= 1 # 2)%Q; [destruct (Z.even (Qfloor q)) | | ]; lia.
Qed.

(** Rounding does not take a number from 1 on below 1. *)
Lemma roundMagnitude_one (x : Q) : (1 <= x)%Q -> (1 <= roundMagnitude x)%Q.
Proof.
  intros Hx. unfold roundMagnitude.
  set (W := inject_Z (2 ^ 1074)).
  set (scaled := (x * W)%Q).
  assert (HW : (0 < W)%Q) by (apply pow2_pos; lia).
  assert (Hscaled : (W <= scaled)%Q).
  { unfold scaled. setoid_replace W with (1 * W)%Q at 1 by ring.
    apply Qmult_le_compat_r; [exact Hx | apply Qlt_le_weak; exact HW]. }
  assert (Hf : 2 ^ 1074 <= Qfloor scaled).
  { rewrite <- (Qfloor_Z (2 ^ 1074)). apply Qfloor_resp_le. exact Hscaled. }
  assert (Hpos : 0 < Qfloor scaled).
  { eapply Z.lt_le_trans; [ | exact Hf ]. apply Z.pow_pos_nonneg; lia. }
  assert (Hl : 1074 <= Z.log2 (Qfloor scaled)).
  { rewrite <- (Z.log2_pow2 1074) by lia. apply Z.log2_le_mono. exact Hf. }
  destruct (Z.log2_spec _ Hpos) as [Hlog _].
  set (l := Z.log2 (Qfloor scaled)) in *.
  replace (Z.max 0 (l - 52)) with (l - 52) by lia.
  set (s := l - 52).
  assert (HP : (0 < inject_Z (2 ^ s))%Q) by (apply pow2_pos; unfold s; lia).
  assert (Hk : 2 ^ 52 <= roundHalfEven (scaled / inject_Z (2 ^ s))).
  { eapply Z.le_trans; [ | apply roundHalfEven_floor ].
    rewrite <- (Qfloor_Z (2 ^ 52)). apply Qfloor_resp_le.
    apply Qle_shift_div_l; [exact HP | ].
    rewrite <- inject_Z_mult, <- Z.pow_add_r by (unfold s; lia).
    replace (52 + s) with l by (unfold s; lia).
    eapply Qle_trans; [ | apply Qfloor_le ]. rewrite <- Zle_Qle. exact Hlog. }
  apply Qle_shift_div_l; [exact HW | ]. rewrite Qmult_1_l. unfold W.
  rewrite <- Zle_Qle.
  apply (Z.le_trans _ (2 ^ l)); [apply Z.pow_le_mono_r; lia | ].
  replace l with (52 + s) at 1 by (unfold s; lia).
  rewrite Z.pow_add_r by (unfold s; lia).
  apply Z.mul_le_mono_nonneg_r; [apply Z.pow_nonneg; lia | exact Hk].
Qed.

Lemma index_of_zero (n : nat) : Qfloor (times 0 (inject_Z (Z.of_nat n))) = 0.
Proof.
  unfold times. transitivity (Qfloor 0); [ | reflexivity ]. apply Qfloor_comp.
  rewrite (roundDouble_comp _ 0); [reflexivity | ]. ring.
Qed.

Lemma index_of_half (n : nat) :
  (2 <= n)%nat -> 1 <= Qfloor (times (1 # 2) (inject_Z (Z.of_nat n))).
Proof.
  intros Hn. unfold times.
  assert (Hx : (1 <= (1 # 2) * inject_Z (Z.of_nat n))%Q).
  { assert (H2 : (2 <= inject_Z (Z.of_nat n))%Q).
    { change 2%Q with (inject_Z 2). rewrite <- Zle_Qle. lia. }
    lra. }
  rewrite roundDouble_nonneg by lra.
  rewrite <- (Qfloor_Z 1). apply Qfloor_resp_le. apply roundMagnitude_one. exact Hx.
Qed.

Lemma alternating_contract : contract alternating.
Proof.
  intros n. unfold alternating.
  destruct (Nat.even n);
    (split; [split; vm_compute; reflexivity | split; compute; congruence]).
Qed.

Lemma alwaysZero_contract : contract alwaysZero.
Proof.
  intros n. split; [split; vm_compute; reflexivity | split; compute; congruence].
Qed.

Lemma alternating_index (n q : nat) :
  (2 <= n)%nat ->
  if Nat.even q then indexAt alternating n q = 0 else 1 <= indexAt alternating n q.
Proof.
  intros Hn. unfold indexAt, alternating. destruct (Nat.even q).
  - apply index_of_zero.
  - apply index_of_half. exact Hn.
Qed.

Lemma alternating_fair (n : nat) : (2 <= n)%nat -> fair alternating n.
Proof.
  intros Hn c a.
  destruct (Z.eq_dec (indexAt alternating n c) a) as [E | E].
  - exists (S c). split; [lia | ].
    pose proof (alternating_index n c Hn) as Hc.
    pose proof (alternating_index n (S c) Hn) as Hs.
    rewrite Nat.even_succ, <- Nat.negb_even in Hs.
    destruct (Nat.even c); cbn [negb] in Hs; lia.
  - exists c. split; [lia | exact E].
Qed.

Lemma alwaysZero_index (n q : nat) : indexAt alwaysZero n q = 0.
Proof. unfold indexAt, alwaysZero. apply index_of_zero. Qed.

(** ** The orders on names *)

Lemma ascii_compare_refl (a : ascii) : Ascii.compare a a = Eq.
Proof. unfold Ascii.compare. apply N.compare_refl. Qed.

Lemma ascii_compare_lt_trans (a b c : ascii) :
  Ascii.compare a b = Lt -> Ascii.compare b c = Lt -> Ascii.compare a c = Lt.
Proof. unfold Ascii.compare. rewrite !N.compare_lt_iff. lia. Qed.

Lemma string_compare_refl (s : string) : String.compare s s = Eq.
Proof.
  induction s as [ | a s IH]; simpl; [reflexivity | ].
  rewrite ascii_compare_refl. exact IH.
Qed.

Lemma string_compare_lt_trans (x : string) :
  forall y z, String.compare x y = Lt -> String.compare y z = Lt -> String.compare x z = Lt.
Proof.
  induction x as [ | a x IH]; intros [ | b y] [ | c z]; simpl; try discriminate; auto.
  destruct (Ascii.compare a b) eqn:Eab; try discriminate;
    destruct (Ascii.compare b c) eqn:Ebc; try discriminate; intros Hxy Hyz.
  - apply Ascii.compare_eq_iff in Eab, Ebc. subst. rewrite ascii_compare_refl. eauto.
  - apply Ascii.compare_eq_iff in Eab. subst. rewrite Ebc. reflexivity.
  - apply Ascii.compare_eq_iff in Ebc. subst. rewrite Eab. reflexivity.
  - rewrite (ascii_compare_lt_trans _ _ _ Eab Ebc). reflexivity.
Qed.

Lemma string_compare_le_trans (x y z : string) :
  String.compare x y <> Gt -> String.compare y z <> Gt -> String.compare x z <> Gt.
Proof.
  intros Hxy Hyz.
  destruct (String.compare x y) eqn:Exy; [ | | congruence ];
    destruct (String.compare y z) eqn:Eyz; try congruence.
  - apply String.compare_eq_iff in Exy, Eyz. subst. rewrite string_compare_refl. discriminate.
  - apply String.compare_eq_iff in Exy. subst. rewrite Eyz. discriminate.
  - apply String.compare_eq_iff in Eyz. subst. rewrite Exy. discriminate.
  - rewrite (string_compare_lt_trans _ _ _ Exy Eyz). discriminate.
Qed.

Lemma lettersCompare_le (a b : string) :
  lettersCompare a b <= 0 <->
  String.compare (mapString lowerOf a) (mapString lowerOf b) = Lt \/
  (String.compare (mapString lowerOf a) (mapString lowerOf b) = Eq /\
   String.compare (mapString swapCase a) (mapString swapCase b) <> Gt).
Proof.
  unfold lettersCompare.
  destruct (String.compare (mapString lowerOf a) (mapString lowerOf b));
    destruct (String.compare (mapString swapCase a) (mapString swapCase b));
    cbn; intuition (try lia; try congruence).
Qed.

Lemma lettersCompare_total (a b : string) :
  0 < lettersCompare a b -> lettersCompare b a <= 0.
Proof.
  unfold lettersCompare.
  rewrite (String.compare_antisym (mapString lowerOf b)).
  rewrite (String.compare_antisym (mapString swapCase b)).
  destruct (String.compare (mapString lowerOf a) (mapString lowerOf b));
    destruct (String.compare (mapString swapCase a) (mapString swapCase b));
    cbn; lia.
Qed.

Lemma lettersCompare_trans (a b c : string) :
  lettersCompare a b <= 0 -> lettersCompare b c <= 0 -> lettersCompare a c <= 0.
Proof.
  rewrite !lettersCompare_le.
  intros [Hab | [Hab Sab]] [Hbc | [Hbc Sbc]].
  - left. eapply string_compare_lt_trans; eassumption.
  - left. apply String.compare_eq_iff in Hbc. rewrite <- Hbc. exact Hab.
  - left. apply String.compare_eq_iff in Hab. rewrite Hab. exact Hbc.
  - right. split.
    + apply String.compare_eq_iff in Hab, Hbc. rewrite Hab, Hbc. apply string_compare_refl.
    + eapply string_compare_le_trans; eassumption.
Qed.

Lemma swapCase_involutive (c : ascii) : swapCase (swapCase c) = c.
Proof. destruct c as [[] [] [] [] [] [] [] []]; reflexivity. Qed.

Lemma mapString_swapCase_inj (a b : string) :
  mapString swapCase a = mapString swapCase b -> a = b.
Proof.
  revert b. induction a as [ | x a IH]; intros [ | y b]; simpl; try discriminate; auto.
  intros [= Hxy Hab]. f_equal; [ | auto ].
  rewrite <- (swapCase_involutive x), Hxy. apply swapCase_involutive.
Qed.

Lemma lettersCompare_eq (a b : string) : lettersCompare a b = 0 -> a = b.
Proof.
  unfold lettersCompare.
  destruct (String.compare (mapString lowerOf a) (mapString lowerOf b)); cbn; try lia.
  destruct (String.compare (mapString swapCase a) (mapString swapCase b)) eqn:E;
    cbn; try lia.
  intros _. apply mapString_swapCase_inj, String.compare_eq_iff, E.
Qed.

(** ** Properties of every run *)

Lemma episode_property (rng : nat -> Q) (qs : list string) (P : EpisodeRes.t -> Prop) :
  contract rng -> qs <> [] ->
  (forall r, episodeSpec qs r -> P r) ->
  onReturn (runEpisodeSix rng qs) P /\
  (((2 <= length qs)%nat -> fair rng (length qs)) -> returnsWith (runEpisodeSix rng qs) P).
Proof.
  intros Hc Hqs HP. split.
  - apply spec_onReturn. intros c.
    apply spec_runEpisodeSix; [exact Hc | exact Hqs | intros H; discriminate H | auto].
  - intros Hfair. apply spec_returnsWith. intros c.
    apply spec_runEpisodeSix; [exact Hc | exact Hqs | auto | auto].
Qed.

Lemma season_property (lc : string -> string -> Z) (rng : nat -> Q)
  (initialQueens : list queen) (opts : options) (clock : string) (P : Season.t -> Prop) :
  contract rng ->
  length initialQueens
  = (orDefault (bracketCount opts) 3 * orDefault (bracketSize opts) 6)%nat ->
  (forall r,
      seasonSpec lc (map queenName initialQueens) (orDefault (bracketCount opts) 3) clock r ->
      P r) ->
  onReturn (simulateAllStars10 lc rng initialQueens opts clock) P /\
  (((2 <= orDefault (bracketSize opts) 6)%nat -> fair rng (orDefault (bracketSize opts) 6)) ->
   returnsWith (simulateAllStars10 lc rng initialQueens opts clock) P).
Proof.
  intros Hc Hlen HP. split.
  - apply spec_onReturn. intros c.
    apply spec_simulateAllStars10; [exact Hc | exact Hlen | intros H; discriminate H | auto].
  - intros Hfair. apply spec_returnsWith. intros c.
    apply spec_simulateAllStars10; [exact Hc | exact Hlen | auto | auto].
Qed.

(** No run whose draws stay in [0,1) reads what is not there. *)
Lemma no_undefined (lc : string -> string -> Z) (rng : nat -> Q)
  (initialQueens : list queen) (opts : options) (clock : string) (fuel c : nat) :
  contract rng ->
  length initialQueens
  = (orDefault (bracketCount opts) 3 * orDefault (bracketSize opts) 6)%nat ->
  fst (simulateAllStars10 lc rng initialQueens opts clock fuel c) <> Undefined.
Proof.
  intros Hc Hlen.
  destruct (season_property lc rng initialQueens opts clock (fun _ => True) Hc Hlen)
    as [H _]; [auto | ].
  specialize (H fuel c).
  destruct (simulateAllStars10 lc rng initialQueens opts clock fuel c) as [[ | | | ] c'];
    cbn; try discriminate. destruct H.
Qed.

Lemma in_combine_index {A : Type} (l : list A) :
  forall (start i : nat) (x : A),
    nth_error l i = Some x -> In ((start + i)%nat, x) (combine (seq start (length l)) l).
Proof.
  induction l as [ | y rest IH]; intros start [ | i] x; simpl; try discriminate.
  - intros [= ->]. left. f_equal. lia.
  - intros H. right. replace (start + S i)%nat with (S start + i)%nat by lia. apply IH. exact H.
Qed.

Lemma strict_ranking (lc : string -> string -> Z) (l : list Standing.t) :
  (forall x y, lc x y = 0 -> x = y) ->
  NoDup (map Standing.name l) ->
  StronglySorted (rankedBefore lc) l ->
  StronglySorted
    (fun a b => Standing.points b < Standing.points a \/
                (Standing.points a = Standing.points b /\
                 lc (Standing.name a) (Standing.name b) < 0)) l.
Proof.
  intros Hstrict Hnd Hs. induction Hs as [ | a l Hs IH Hall]; [constructor | ].
  cbn [map] in Hnd. inversion Hnd as [ | ? ? Ha Hrest]; subst.
  constructor; [apply IH; exact Hrest | ].
  rewrite Forall_forall in *. intros b Hb.
  destruct (Hall b Hb) as [Hlt | [Heq Hle]]; [left; exact Hlt | right].
  split; [exact Heq | ].
  destruct (Z.eq_dec (lc (Standing.name a) (Standing.name b)) 0) as [E | E]; [ | lia ].
  exfalso. apply Ha. rewrite (Hstrict _ _ E). apply in_map. exact Hb.
Qed.

Lemma StronglySorted_weaken {A : Type} (R R' : A -> A -> Prop) (l : list A) :
  (forall a b, R a b -> R' a b) -> StronglySorted R l -> StronglySorted R' l.
Proof.
  intros HR Hs. induction Hs as [ | a l Hs IH Hall]; constructor; [exact IH | ].
  eapply Forall_impl; [ | exact Hall ]. intros b. apply HR.
Qed.

Lemma sixQueens_NoDup : NoDup sixQueens.
Proof. repeat (constructor; [simpl; intuition discriminate | ]). constructor. Qed.

Lemma sixQueens_plain : ~ In "__proto__" sixQueens.
Proof. cbn. intuition discriminate. Qed.

Lemma eighteenQueens_NoDup : NoDup (map queenName eighteenQueens).
Proof. repeat (constructor; [simpl; intuition discriminate | ]). constructor. Qed.

Lemma eighteenQueens_plain : ~ In "__proto__" (map queenName eighteenQueens).
Proof. cbn. intuition discriminate. Qed.

(** * The properties of the specification *)

(** ** C1: determinism under a fixed sequence of draws *)

(** C1, in the form that holds of the code.  Two runs of the season on the
    same queens, the same options and the same sequence of draws have the
    same outcome, make the same number of draws and agree on every field of
    the result other than [meta.generatedAt]; that field holds the reading of
    the clock of each run. *)
Theorem season_determined_up_to_timestamp (lc : string -> string -> Z) (rng : nat -> Q)
  (initialQueens : list queen) (opts : options) (clock1 clock2 : string) (fuel c : nat) :
  withoutTimestamp (simulateAllStars10 lc rng initialQueens opts clock1 fuel c)
  = withoutTimestamp (simulateAllStars10 lc rng initialQueens opts clock2 fuel c).
Proof.
  unfold simulateAllStars10.
  destruct (negb (length (map queenName initialQueens)
                  =? orDefault (bracketCount opts) 3 * orDefault (bracketSize opts) 6)%nat);
    [reflexivity | ].
  unfold bind.
  repeat match goal with
         | |- context [match ?x with _ => _ end] =>
             match x with
             | context [clock1] => fail 1
             | context [clock2] => fail 1
             | _ => destruct x
             end
         end; reflexivity.
Qed.

(** C1, counterexample to the form of the specification.  The same 18
    queens and the same draws, and a clock that has moved on by a millisecond
    between the two runs: the two results differ. *)
Lemma season_timestamp_differs :
  simulateAllStars10 lettersCompare alternating eighteenQueens defaultOptions
    "2025-01-01T00:00:00.000Z" 10%nat 0%nat
  <> simulateAllStars10 lettersCompare alternating eighteenQueens defaultOptions
       "2025-01-01T00:00:00.001Z" 10%nat 0%nat.
Proof.
  intros H.
  apply (f_equal (fun r => match fst r with
                           | Return s => Some (Meta.generatedAt (Season.meta s))
                           | _ => None
                           end)) in H.
  vm_compute in H. discriminate H.
Qed.

(** ** C2: the points of an episode add up to 9 *)



(** ** C3: the points of the two winners *)

(** C3, in the form that holds of the code.  In an episode on six different
    queens, none of them with the name [__proto__], the two winners of the
    maxi challenge are two different queens and the lip-sync winner is one of
    them; the lip-sync winner ends the episode with 3 points plus one for
    each peer award received, the other winner with 2 points plus one for
    each peer award received. *)
Theorem episode_winners_points (rng : nat -> Q) (qs : list string) :
  contract rng -> length qs = 6%nat -> NoDup qs -> ~ In "__proto__" qs ->
  onReturn (runEpisodeSix rng qs) winnersPoints /\
  (fair rng 6 -> returnsWith (runEpisodeSix rng qs) winnersPoints).
Proof.
  intros Hc Hlen Hnd Hproto.
  destruct (episode_property rng qs winnersPoints Hc) as [Hon Hret].
  - intros ->. discriminate Hlen.
  - intros r Hr.
    apply (episodeSpec_winnersPoints qs r); [lia | exact Hnd | exact Hproto | exact Hr].
  - split; [exact Hon | ]. intros Hfair. apply Hret. rewrite Hlen. auto.
Qed.

(** An instance: the sample inputs meet the hypotheses. *)
Lemma episode_winners_points_witness :
  contract alternating /\ length sixQueens = 6%nat /\ NoDup sixQueens /\
  ~ In "__proto__" sixQueens /\ fair alternating 6 /\
  onReturn (runEpisodeSix alternating sixQueens) winnersPoints /\
  returnsWith (runEpisodeSix alternating sixQueens) winnersPoints.
Proof.
  pose proof (alternating_fair 6 ltac:(lia)) as Hfair.
  destruct (episode_winners_points alternating sixQueens
              alternating_contract eq_refl sixQueens_NoDup sixQueens_plain) as [Hon Hret].
  exact (conj alternating_contract (conj eq_refl (conj sixQueens_NoDup
          (conj sixQueens_plain (conj Hfair (conj Hon (Hret Hfair))))))).
Defined.

(** C3, counterexample to the form of the specification.  With the draws
    0, 0.5, 0, 0.5, ... on the queens A to F the winners are A and D and A
    wins the lip-sync; the peer awards of C and F go to A and the one of B
    goes to D: A ends the episode with 5 points and D with 3, not with 3 and
    2. *)
Lemma episode_winners_above_three_and_two :
  exists r c,
    runEpisodeSix alternating sixQueens 1%nat 0%nat = (Return r, c) /\
    Detail.winners (EpisodeRes.detail r) = ["A"; "D"] /\
    pointsOf (EpisodeRes.points r) "A" = 5 /\
    pointsOf (EpisodeRes.points r) "D" = 3 /\
    ~ winnersThreeAndTwo r.
Proof.
  eexists. eexists. split; [vm_compute; reflexivity | ].
  repeat split; try reflexivity.
  intros (w1 & w2 & Hw & H). cbn in Hw. injection Hw as <- <-.
  vm_compute in H. destruct H as [[H _] | [H _]]; discriminate H.
Qed.

(** ** C9: no peer award goes to its giver *)

(** C9.  In an episode on six queens, whatever the draws in [0,1), every
    recorded peer award goes from a queen of the group to another queen of
    the group; and the episode does come to its result when the draws do not
    select one index of six for ever. *)
Theorem episode_no_self_award (rng : nat -> Q) (qs : list string) :
  contract rng -> length qs = 6%nat ->
  onReturn (runEpisodeSix rng qs) (noSelfAward qs) /\
  (fair rng 6 -> returnsWith (runEpisodeSix rng qs) (noSelfAward qs)).
Proof.
  intros Hc Hlen.
  destruct (episode_property rng qs (noSelfAward qs) Hc) as [Hon Hret].
  - intros ->. discriminate Hlen.
  - apply episodeSpec_noSelfAward.
  - split; [exact Hon | ]. intros Hfair. apply Hret. rewrite Hlen. auto.
Qed.

(** An instance: the sample inputs meet the hypotheses. *)
Lemma episode_no_self_award_witness :
  contract alternating /\ length sixQueens = 6%nat /\ fair alternating 6 /\
  onReturn (runEpisodeSix alternating sixQueens) (noSelfAward sixQueens) /\
  returnsWith (runEpisodeSix alternating sixQueens) (noSelfAward sixQueens).
Proof.
  pose proof (alternating_fair 6 ltac:(lia)) as Hfair.
  destruct (episode_no_self_award alternating sixQueens alternating_contract eq_refl)
    as [Hon Hret].
  exact (conj alternating_contract (conj eq_refl (conj Hfair (conj Hon (Hret Hfair))))).
Defined.

(** ** C4: the check of the number of queens *)



(** ** C5: the shape of the default season *)

(** C5.  For 18 different names and the default options, whatever the draws
    in [0,1), the result holds 3 brackets of 3 episodes each, 9 episodes in
    all, a pool of 9, 2 semifinal eliminations, 7 finalists, finale rounds of
    7, 4 and 2 contestants with one bye, in the first round, and a champion
    who is one of the 18; and the season does come to its result when the
    draws do not select one index of six for ever. *)
Theorem default_season_shape (lc : string -> string -> Z) (rng : nat -> Q)
  (initialQueens : list queen) (clock : string) :
  contract rng -> length initialQueens = 18%nat -> NoDup (map queenName initialQueens) ->
  onReturn (simulateAllStars10 lc rng initialQueens defaultOptions clock)
    (defaultShape (map queenName initialQueens)) /\
  (fair rng 6 ->
   returnsWith (simulateAllStars10 lc rng initialQueens defaultOptions clock)
     (defaultShape (map queenName initialQueens))).
Proof.
  intros Hc Hlen Hnd.
  destruct (season_property lc rng initialQueens defaultOptions clock
              (defaultShape (map queenName initialQueens)) Hc Hlen) as [Hon Hret].
  - intros r Hr. apply (seasonSpec_defaultShape lc _ clock r); try assumption.
    rewrite length_map. exact Hlen.
  - split; [exact Hon | ]. intros Hfair. apply Hret. intros _. exact Hfair.
Qed.

(** An instance: the sample inputs meet the hypotheses. *)
Lemma default_season_shape_witness :
  contract alternating /\ length eighteenQueens = 18%nat /\
  NoDup (map queenName eighteenQueens) /\ fair alternating 6 /\
  onReturn (simulateAllStars10 lettersCompare alternating eighteenQueens defaultOptions "")
    (defaultShape (map queenName eighteenQueens)) /\
  returnsWith (simulateAllStars10 lettersCompare alternating eighteenQueens defaultOptions "")
    (defaultShape (map queenName eighteenQueens)).
Proof.
  pose proof (alternating_fair 6 ltac:(lia)) as Hfair.
  destruct (default_season_shape lettersCompare alternating eighteenQueens ""
              alternating_contract eq_refl eighteenQueens_NoDup) as [Hon Hret].
  exact (conj alternating_contract (conj eq_refl (conj eighteenQueens_NoDup
          (conj Hfair (conj Hon (Hret Hfair)))))).
Defined.

(** ** C10: the semifinal *)



(** ** C8: termination *)

(** C8, in the form that holds of the code.  For queens in a number that
    fits the brackets and draws in [0,1) that do not select one index of a
    bracket for ever, the season terminates: from some amount of fuel on
    every run ends in one and the same result. *)
Theorem season_terminates_on_fair_source (lc : string -> string -> Z) (rng : nat -> Q)
  (initialQueens : list queen) (opts : options) (clock : string) (c : nat) :
  let count := orDefault (bracketCount opts) 3 in
  let size := orDefault (bracketSize opts) 6 in
  contract rng -> length initialQueens = (count * size)%nat ->
  ((2 <= size)%nat -> fair rng size) ->
  exists r c' fuel0,
    forall fuel, (fuel0 <= fuel)%nat ->
      simulateAllStars10 lc rng initialQueens opts clock fuel c = (Return r, c').
Proof.
  intros count size Hc Hlen Hfair.
  assert (H : spec Total (simulateAllStars10 lc rng initialQueens opts clock) c
                (fun _ _ => True)).
  { apply spec_simulateAllStars10; auto. }
  destruct H as (r & c' & fuel0 & _ & Hrun). exists r, c', fuel0. exact Hrun.
Qed.

(** An instance: the sample inputs meet the hypotheses. *)
Lemma season_terminates_on_fair_source_witness :
  contract alternating /\ length eighteenQueens = (3 * 6)%nat /\
  ((2 <= 6)%nat -> fair alternating 6) /\
  exists r c' fuel0,
    forall fuel, (fuel0 <= fuel)%nat ->
      simulateAllStars10 lettersCompare alternating eighteenQueens defaultOptions ""
        fuel 0%nat = (Return r, c').
Proof.
  pose proof (alternating_fair 6) as Hfair.
  exact (conj alternating_contract (conj eq_refl (conj Hfair
          (season_terminates_on_fair_source lettersCompare alternating eighteenQueens
             defaultOptions "" 0%nat alternating_contract eq_refl Hfair)))).
Defined.

(** C8, counterexample to the form of the specification.  The source that
    answers 0 for ever keeps its contract, and on 18 queens with the default
    options no amount of fuel brings the season to a result: the second
    winner of the first episode is redrawn for ever. *)
Lemma season_diverges_on_constant_source :
  contract alwaysZero /\ length eighteenQueens = 18%nat /\
  forall fuel,
    fst (simulateAllStars10 lettersCompare alwaysZero eighteenQueens defaultOptions ""
           fuel 0%nat) = OutOfFuel.
Proof.
  split; [apply alwaysZero_contract | ]. split; [reflexivity | ].
  intros fuel. apply (simulateAllStars10_stuck alwaysZero lettersCompare _ _ _ 0).
  - reflexivity.
  - cbn. lia.
  - intros q. apply alwaysZero_index.
Qed.

(** ** C6: the order of the standings *)

(** C6, in the form that holds of the code.  When [localeCompare] is a
    consistent comparator, the standings of a points object hold its entries,
    sorted by points from high to low and, on equal points, by
    [localeCompare] on the names; when it answers 0 on equal names only, no
    two standings are left in a tie. *)
Theorem standings_order (lc : string -> string -> Z) (o : pointsObj) :
  (forall x y, 0 < lc x y -> lc y x <= 0) ->
  (forall x y z, lc x y <= 0 -> lc y z <= 0 -> lc x z <= 0) ->
  NoDup (map fst o) ->
  Permutation (map entryOf (rankByPoints lc o)) o /\
  StronglySorted (rankedBefore lc) (rankByPoints lc o) /\
  ((forall x y, lc x y = 0 -> x = y) ->
   StronglySorted
     (fun a b => Standing.points b < Standing.points a \/
                 (Standing.points a = Standing.points b /\
                  lc (Standing.name a) (Standing.name b) < 0))
     (rankByPoints lc o)).
Proof.
  intros Htotal Htrans Hnd.
  assert (Hsorted : StronglySorted (rankedBefore lc) (rankByPoints lc o)).
  { unfold rankByPoints.
    eapply StronglySorted_weaken;
      [ | apply sortBy_sorted;
          [apply rankCompare_total; exact Htotal | apply rankCompare_trans; exact Htrans] ].
    intros a b Hab. apply rankCompare_le. exact Hab. }
  split; [apply rankByPoints_entries; exact Hnd | ]. split; [exact Hsorted | ].
  intros Hstrict. apply strict_ranking; try assumption.
  eapply Permutation_NoDup; [symmetry; apply rankByPoints_names | exact Hnd].
Qed.

(** An instance: the sample inputs meet the hypotheses. *)
Lemma standings_order_witness :
  (forall x y, 0 < lettersCompare x y -> lettersCompare y x <= 0) /\
  (forall x y z, lettersCompare x y <= 0 -> lettersCompare y z <= 0 ->
                 lettersCompare x z <= 0) /\
  (forall x y, lettersCompare x y = 0 -> x = y) /\
  NoDup (map fst [("B", 1); ("a", 1); ("c", 3)]) /\
  Permutation (map entryOf (rankByPoints lettersCompare [("B", 1); ("a", 1); ("c", 3)]))
    [("B", 1); ("a", 1); ("c", 3)] /\
  StronglySorted (rankedBefore lettersCompare)
    (rankByPoints lettersCompare [("B", 1); ("a", 1); ("c", 3)]) /\
  StronglySorted
    (fun a b => Standing.points b < Standing.points a \/
                (Standing.points a = Standing.points b /\
                 lettersCompare (Standing.name a) (Standing.name b) < 0))
    (rankByPoints lettersCompare [("B", 1); ("a", 1); ("c", 3)]).
Proof.
  assert (Hnd : NoDup (map fst [("B", 1); ("a", 1); ("c", 3)])).
  { repeat (constructor; [simpl; intuition discriminate | ]). constructor. }
  destruct (standings_order lettersCompare [("B", 1); ("a", 1); ("c", 3)]
              lettersCompare_total lettersCompare_trans Hnd) as (Hperm & Hsorted & Hstrict).
  repeat split.
  - apply lettersCompare_total.
  - apply lettersCompare_trans.
  - apply lettersCompare_eq.
  - exact Hnd.
  - exact Hperm.
  - exact Hsorted.
  - apply Hstrict. apply lettersCompare_eq.
Defined.

(** C6, counterexample to the form of the specification.  B and a have one
    point each.  [localeCompare] puts a before B, as it does for names in
    ASCII letters wherever it follows the root collation of ICU, and so do
    the standings; by code points B (66) comes before a (97). *)
Lemma standings_not_in_code_point_order :
  rankByPoints lettersCompare [("B", 1); ("a", 1)]
  = [{| Standing.name := "a"; Standing.points := 1 |};
     {| Standing.name := "B"; Standing.points := 1 |}] /\
  codePointCompare "a" "B" = 1 /\
  ~ StronglySorted (rankedBefore codePointCompare)
      (rankByPoints lettersCompare [("B", 1); ("a", 1)]).
Proof.
  split; [reflexivity | ]. split; [reflexivity | ].
  intros H.
  change (rankByPoints lettersCompare [("B", 1); ("a", 1)])
    with [{| Standing.name := "a"; Standing.points := 1 |};
          {| Standing.name := "B"; Standing.points := 1 |}] in H.
  inversion H as [ | ? ? _ Hall]; subst.
  inversion Hall as [ | ? ? [Hlt | [_ Hle]] _]; subst.
  - cbn [Standing.points] in Hlt. lia.
  - cbn [Standing.name] in Hle. change (codePointCompare "a" "B") with 1 in Hle. lia.
Qed.

(** ** C7: bracket formation *)

(** C7.  With a positive number of brackets, [sliceIntoBrackets] answers
    that many groups; group [k] holds the queens whose index in the input
    leaves the remainder [k], in input order, so the queen at index [i] is in
    group [i mod bracketCount]; and for [bracketCount * bracketSize] queens
    every group has [bracketSize] members. *)
Theorem bracket_formation (queens : list string) (bracketCount : nat) :
  (0 < bracketCount)%nat ->
  exists brackets,
    sliceIntoBrackets queens bracketCount = Return brackets /\
    length brackets = bracketCount /\
    (forall k, (k < bracketCount)%nat ->
       nth k brackets [] = bracketMembers queens bracketCount k) /\
    (forall i q, nth_error queens i = Some q ->
       In q (nth (i mod bracketCount) brackets [])) /\
    (forall bracketSize, length queens = (bracketCount * bracketSize)%nat ->
       forall k, (k < bracketCount)%nat -> length (nth k brackets []) = bracketSize).
Proof.
  intros Hcount.
  destruct (sliceIntoBrackets_spec queens bracketCount Hcount) as (bs & Hrun & Hlen & Hnth).
  exists bs. repeat split; try assumption.
  - intros i q Hq.
    rewrite Hnth by (apply Nat.mod_upper_bound; lia).
    unfold bracketMembers.
    change q with (snd (i, q)). apply in_map. apply filter_In. split.
    + apply (in_combine_index queens 0 i q Hq).
    + cbn [fst]. apply Nat.eqb_refl.
  - intros size Hsize k Hk. rewrite Hnth by exact Hk.
    apply bracketMembers_length; assumption.
Qed.

(** An instance: the sample inputs meet the hypotheses. *)
Lemma bracket_formation_witness :
  (0 < 3)%nat /\
  exists brackets,
    sliceIntoBrackets (map queenName eighteenQueens) 3 = Return brackets /\
    length brackets = 3%nat /\
    (forall k, (k < 3)%nat ->
       nth k brackets [] = bracketMembers (map queenName eighteenQueens) 3 k) /\
    (forall i q, nth_error (map queenName eighteenQueens) i = Some q ->
       In q (nth (i mod 3) brackets [])) /\
    (forall bracketSize,
       length (map queenName eighteenQueens) = (3 * bracketSize)%nat ->
       forall k, (k < 3)%nat -> length (nth k brackets []) = bracketSize).
Proof.
  assert (H : (0 < 3)%nat) by lia.
  split; [exact H | ].
  exact (bracket_formation (map queenName eighteenQueens) 3 H).
Defined.

(** * Further properties of the code *)

(** ** Drawing an index *)

(** X2.  On a source that keeps its contract [pickRandomIndex] makes one
    draw and answers with a position of the array, when the array has
    entries. *)
Theorem pickRandomIndex_in_range {A : Type} (rng : nat -> Q) (arr : list A) (c : nat) :
  contract rng -> arr <> [] ->
  exists i x,
    (forall fuel, pickRandomIndex rng arr fuel c = (Return i, S c)) /\
    0 <= i < Z.of_nat (length arr) /\ item arr i = Some x /\ In x arr.
Proof.
  intros Hc Harr.
  assert (Hlen : (0 < length arr)%nat) by (destruct arr; [congruence | simpl; lia]).
  pose proof (indexAt_range rng Hc (length arr) c Hlen) as Hi.
  destruct (item_in_range arr _ Hi) as (x & Hx & _ & Hin).
  exists (indexAt rng (length arr) c), x. repeat split; try assumption; apply Hi.
Qed.

(** An instance: the sample inputs meet the hypotheses. *)
Lemma pickRandomIndex_in_range_witness :
  contract alternating /\ sixQueens <> [] /\
  exists i x,
    (forall fuel, pickRandomIndex alternating sixQueens fuel 1%nat = (Return i, 2%nat)) /\
    0 <= i < Z.of_nat (length sixQueens) /\ item sixQueens i = Some x /\ In x sixQueens.
Proof.
  assert (H : sixQueens <> []) by discriminate.
  split; [apply alternating_contract | ]. split; [exact H | ].
  exact (pickRandomIndex_in_range alternating sixQueens 1%nat alternating_contract H).
Defined.

(** ** The two winners *)

(** X3.  On a group of two or more different queens the two winners of the
    maxi challenge are two different queens of the group. *)
Theorem chooseTwoWinners_distinct (rng : nat -> Q) (qn : list string) :
  contract rng -> NoDup qn -> (2 <= length qn)%nat ->
  let distinctPair ws :=
    exists w1 w2, ws = [w1; w2] /\ w1 <> w2 /\ In w1 qn /\ In w2 qn in
  onReturn (chooseTwoWinners rng qn) distinctPair /\
  (fair rng (length qn) -> returnsWith (chooseTwoWinners rng qn) distinctPair).
Proof.
  intros Hc Hnd Hlen distinctPair. split.
  - apply spec_onReturn. intros c.
    apply spec_chooseTwoWinners; [exact Hc | intros H; discriminate H | ].
    intros ws _ Hws. apply twoWinners_distinct; assumption.
  - intros Hfair. apply spec_returnsWith. intros c.
    apply spec_chooseTwoWinners; [exact Hc | auto | ].
    intros ws _ Hws. apply twoWinners_distinct; assumption.
Qed.

(** An instance: the sample inputs meet the hypotheses. *)
Lemma chooseTwoWinners_distinct_witness :
  contract alternating /\ NoDup sixQueens /\ (2 <= length sixQueens)%nat /\
  fair alternating (length sixQueens) /\
  onReturn (chooseTwoWinners alternating sixQueens)
    (fun ws => exists w1 w2, ws = [w1; w2] /\ w1 <> w2 /\ In w1 sixQueens /\ In w2 sixQueens) /\
  returnsWith (chooseTwoWinners alternating sixQueens)
    (fun ws => exists w1 w2, ws = [w1; w2] /\ w1 <> w2 /\ In w1 sixQueens /\ In w2 sixQueens).
Proof.
  assert (Hlen : (2 <= length sixQueens)%nat) by (cbn; lia).
  pose proof (alternating_fair (length sixQueens) Hlen) as Hfair.
  destruct (chooseTwoWinners_distinct alternating sixQueens alternating_contract
              sixQueens_NoDup Hlen) as [Hon Hret].
  exact (conj alternating_contract (conj sixQueens_NoDup (conj Hlen
          (conj Hfair (conj Hon (Hret Hfair)))))).
Defined.

(** ** Episodes on groups of any size *)

Lemma received_bound (mvqs : list Mvq.t) (q : string) :
  0 <= received mvqs q <= Z.of_nat (length mvqs).
Proof.
  unfold received. pose proof (filter_length_le (fun m => String.eqb (Mvq.to m) q) mvqs). lia.
Qed.

Lemma received_below (mvqs : list Mvq.t) (q : string) (m : Mvq.t) :
  In m mvqs -> Mvq.to m <> q -> received mvqs q <= Z.of_nat (length mvqs) - 1.
Proof.
  intros Hin Hne. unfold received. induction mvqs as [ | x rest IH]; [destruct Hin | ].
  cbn [filter length]. destruct Hin as [-> | Hin].
  - destruct (String.eqb_spec (Mvq.to m) q); [contradiction | ].
    pose proof (filter_length_le (fun m => String.eqb (Mvq.to m) q) rest). lia.
  - specialize (IH Hin). destruct (String.eqb (Mvq.to x) q); cbn [length]; lia.
Qed.

Lemma episodeSpec_awards (qs : list string) (r : EpisodeRes.t) :
  (2 <= length qs)%nat -> NoDup qs -> episodeSpec qs r ->
  length (Detail.mvqAssignments (EpisodeRes.detail r)) = (length qs - 2)%nat.
Proof.
  intros Hlen Hnd Hep.
  destruct (twoWinners_distinct qs _ Hnd Hlen (es_winners _ _ Hep))
    as (w1 & w2 & Hws & Hne & H1 & H2).
  rewrite <- (length_map Mvq.from), (es_from _ _ Hep), Hws.
  pose proof (filter_out_two w1 w2 qs Hnd Hne) as Hcount.
  destruct (in_dec string_dec w1 qs); [ | contradiction ].
  destruct (in_dec string_dec w2 qs); [ | contradiction ]. unfold name in *. lia.
Qed.

(** X4.  In an episode on a group of [n >= 2] different queens, none of
    them with the name [__proto__], the keys of the points object are the
    queens of the group, there is one peer award per queen who did not win,
    [n - 2] in all, and the points add up to [n + 3]. *)
Theorem episode_totals (rng : nat -> Q) (qs : list string) :
  contract rng -> NoDup qs -> ~ In "__proto__" qs -> (2 <= length qs)%nat ->
  let ledger r :=
    Permutation (Object_keys (EpisodeRes.points r)) qs /\
    length (Detail.mvqAssignments (EpisodeRes.detail r)) = (length qs - 2)%nat /\
    sumValues (EpisodeRes.points r) = Z.of_nat (length qs) + 3 in
  onReturn (runEpisodeSix rng qs) ledger /\
  (fair rng (length qs) -> returnsWith (runEpisodeSix rng qs) ledger).
Proof.
  intros Hc Hnd Hproto Hlen ledger.
  destruct (episode_property rng qs ledger Hc) as [Hon Hret].
  - intros ->. simpl in Hlen. lia.
  - intros r Hr. unfold ledger.
    pose proof (episodeSpec_awards qs r Hlen Hnd Hr) as Hm.
    destruct (twoWinners_distinct qs _ Hnd Hlen (es_winners _ _ Hr)) as (w1 & w2 & Hws & _).
    split; [ | split ].
    + rewrite Object_keys_perm, (es_keys _ _ Hr), (zeroPoints_keys qs Hnd).
      rewrite (filter_storable qs Hproto). reflexivity.
    + exact Hm.
    + rewrite (episodeSpec_sum _ _ Hproto Hr), Hm, Hws. cbn [length]. lia.
  - split; [exact Hon | ]. intros Hfair. apply Hret. auto.
Qed.

(** An instance: the sample inputs meet the hypotheses. *)
Lemma episode_totals_witness :
  contract alternating /\ NoDup sixQueens /\ ~ In "__proto__" sixQueens /\
  (2 <= length sixQueens)%nat /\ fair alternating (length sixQueens) /\
  onReturn (runEpisodeSix alternating sixQueens)
    (fun r => Permutation (Object_keys (EpisodeRes.points r)) sixQueens /\
              length (Detail.mvqAssignments (EpisodeRes.detail r))
              = (length sixQueens - 2)%nat /\
              sumValues (EpisodeRes.points r) = Z.of_nat (length sixQueens) + 3) /\
  returnsWith (runEpisodeSix alternating sixQueens)
    (fun r => Permutation (Object_keys (EpisodeRes.points r)) sixQueens /\
              length (Detail.mvqAssignments (EpisodeRes.detail r))
              = (length sixQueens - 2)%nat /\
              sumValues (EpisodeRes.points r) = Z.of_nat (length sixQueens) + 3).
Proof.
  assert (Hlen : (2 <= length sixQueens)%nat) by (cbn; lia).
  pose proof (alternating_fair (length sixQueens) Hlen) as Hfair.
  destruct (episode_totals alternating sixQueens alternating_contract
              sixQueens_NoDup sixQueens_plain Hlen) as [Hon Hret].
  exact (conj alternating_contract (conj sixQueens_NoDup (conj sixQueens_plain
          (conj Hlen (conj Hfair (conj Hon (Hret Hfair))))))).
Defined.

(** X5.  In an episode on a group of [n >= 2] different queens, none of
    them with the name [__proto__], no queen loses points: a queen who did
    not win ends with between 0 and [n - 3] points, a winner with between 2
    and [n + 1]. *)
Theorem episode_points_bounds (rng : nat -> Q) (qs : list string) :
  contract rng -> NoDup qs -> ~ In "__proto__" qs -> (2 <= length qs)%nat ->
  let bounded r :=
    forall q, In q qs ->
      if includes (Detail.winners (EpisodeRes.detail r)) q
      then 2 <= pointsOf (EpisodeRes.points r) q <= Z.of_nat (length qs) + 1
      else 0 <= pointsOf (EpisodeRes.points r) q <= Z.of_nat (length qs) - 3 in
  onReturn (runEpisodeSix rng qs) bounded /\
  (fair rng (length qs) -> returnsWith (runEpisodeSix rng qs) bounded).
Proof.
  intros Hc Hnd Hproto Hlen bounded.
  destruct (episode_property rng qs bounded Hc) as [Hon Hret].
  - intros ->. simpl in Hlen. lia.
  - intros r Hr q Hq.
    pose proof (episodeSpec_awards qs r Hlen Hnd Hr) as Hm.
    destruct (twoWinners_distinct qs _ Hnd Hlen (es_winners _ _ Hr))
      as (w1 & w2 & Hws & Hne & H1 & H2).
    pose proof (received_bound (Detail.mvqAssignments (EpisodeRes.detail r)) q) as Hrec.
    assert (Hval : pointsOf (EpisodeRes.points r) q
                   = basePoints (EpisodeRes.detail r) q
                     + received (Detail.mvqAssignments (EpisodeRes.detail r)) q).
    { unfold pointsOf. rewrite (es_points _ _ Hr q Hq (storable_In qs q Hproto Hq)).
      reflexivity. }
    pose proof (es_lip _ _ Hr) as Hlip.
    unfold basePoints in Hval. rewrite Hws in *. rewrite Hval.
    destruct (includes [w1; w2] q) eqn:Hinc.
    + apply includes_In in Hinc. cbn [count_occ]. unfold name in *.
      destruct (string_dec w1 q), (string_dec w2 q),
        (String.eqb (Detail.lipSyncWinner (EpisodeRes.detail r)) q);
        try congruence; try lia;
        exfalso; destruct Hinc as [E | [E | []]]; congruence.
    + assert (Hnot : ~ In q [w1; w2]).
      { intros Hin. apply includes_In in Hin. congruence. }
      cbn [count_occ].
      destruct (string_dec w1 q) as [E | _]; [exfalso; apply Hnot; left; exact E | ].
      destruct (string_dec w2 q) as [E | _]; [exfalso; apply Hnot; right; left; exact E | ].
      destruct (String.eqb_spec (Detail.lipSyncWinner (EpisodeRes.detail r)) q) as [E | _].
      { exfalso. apply Hnot. rewrite <- E. exact Hlip. }
      assert (Hgiver : In q (map Mvq.from (Detail.mvqAssignments (EpisodeRes.detail r)))).
      { rewrite (es_from _ _ Hr), Hws. apply filter_In. rewrite Hinc. auto. }
      apply in_map_iff in Hgiver. destruct Hgiver as (m & Hfrom & Hm').
      destruct (es_to _ _ Hr m Hm') as [Hto _]. rewrite Hfrom in Hto.
      pose proof (received_below _ q m Hm' Hto). unfold name in *. lia.
  - split; [exact Hon | ]. intros Hfair. apply Hret. auto.
Qed.

(** An instance: the sample inputs meet the hypotheses. *)
Lemma episode_points_bounds_witness :
  contract alternating /\ NoDup sixQueens /\ ~ In "__proto__" sixQueens /\
  (2 <= length sixQueens)%nat /\ fair alternating (length sixQueens) /\
  returnsWith (runEpisodeSix alternating sixQueens)
    (fun r => forall q, In q sixQueens ->
       if includes (Detail.winners (EpisodeRes.detail r)) q
       then 2 <= pointsOf (EpisodeRes.points r) q <= Z.of_nat (length sixQueens) + 1
       else 0 <= pointsOf (EpisodeRes.points r) q <= Z.of_nat (length sixQueens) - 3).
Proof.
  assert (Hlen : (2 <= length sixQueens)%nat) by (cbn; lia).
  pose proof (alternating_fair (length sixQueens) Hlen) as Hfair.
  destruct (episode_points_bounds alternating sixQueens alternating_contract
              sixQueens_NoDup sixQueens_plain Hlen) as [Hon Hret].
  exact (conj alternating_contract (conj sixQueens_NoDup (conj sixQueens_plain
          (conj Hlen (conj Hfair (Hret Hfair)))))).
Defined.

(** X21.  In an episode on different queens the keys of the points object
    are the queens of the group other than [__proto__], a name that the
    object does not store.  An award to that name is recorded in the detail
    and adds nothing to the points: they add up to 2 for each winner, 1 for
    the lip-sync winner and 1 for each peer award, counting the receivers
    other than [__proto__] only. *)
Theorem episode_stored_points (rng : nat -> Q) (qs : list string) :
  contract rng -> NoDup qs -> qs <> [] ->
  let stored r :=
    Permutation (Object_keys (EpisodeRes.points r)) (filter storable qs) /\
    sumValues (EpisodeRes.points r)
    = 2 * Z.of_nat (length (filter storable (Detail.winners (EpisodeRes.detail r))))
      + Z.of_nat (length (filter storable [Detail.lipSyncWinner (EpisodeRes.detail r)]))
      + Z.of_nat (length (filter (fun m => storable (Mvq.to m))
                            (Detail.mvqAssignments (EpisodeRes.detail r)))) in
  onReturn (runEpisodeSix rng qs) stored /\
  (((2 <= length qs)%nat -> fair rng (length qs)) ->
   returnsWith (runEpisodeSix rng qs) stored).
Proof.
  intros Hc Hnd Hqs stored.
  apply episode_property; [exact Hc | exact Hqs | ].
  intros r Hr. split.
  - rewrite Object_keys_perm, (es_keys _ _ Hr), (zeroPoints_keys qs Hnd). reflexivity.
  - exact (es_sum _ _ Hr).
Qed.

(** An instance: the sample inputs meet the hypotheses. *)
Lemma episode_stored_points_witness :
  contract alternating /\ NoDup ["__proto__"; "B"; "C"] /\ ["__proto__"; "B"; "C"] <> [] /\
  ((2 <= 3)%nat -> fair alternating 3) /\
  returnsWith (runEpisodeSix alternating ["__proto__"; "B"; "C"])
    (fun r =>
       Permutation (Object_keys (EpisodeRes.points r)) ["B"; "C"] /\
       sumValues (EpisodeRes.points r)
       = 2 * Z.of_nat (length (filter storable (Detail.winners (EpisodeRes.detail r))))
         + Z.of_nat (length (filter storable [Detail.lipSyncWinner (EpisodeRes.detail r)]))
         + Z.of_nat (length (filter (fun m => storable (Mvq.to m))
                               (Detail.mvqAssignments (EpisodeRes.detail r))))).
Proof.
  assert (Hnd : NoDup ["__proto__"; "B"; "C"]).
  { repeat (constructor; [simpl; intuition discriminate | ]). constructor. }
  assert (Hne : ["__proto__"; "B"; "C"] <> []) by discriminate.
  pose proof (alternating_fair 3) as Hfair.
  destruct (episode_stored_points alternating ["__proto__"; "B"; "C"]
              alternating_contract Hnd Hne) as [_ Hret].
  exact (conj alternating_contract (conj Hnd (conj Hne (conj Hfair (Hret Hfair))))).
Defined.

(** ** The semifinal keeps the pool together *)

Lemma splice1_perm {A : Type} (arr : list A) (start : Z) :
  Permutation (fst (splice1 arr start) ++ snd (splice1 arr start)) arr.
Proof.
  unfold splice1. cbn [fst snd].
  set (k := Z.to_nat _).
  rewrite <- (firstn_skipn k arr) at 4.
  rewrite <- (firstn_skipn 1 (skipn k arr)) at 2.
  rewrite skipn_skipn. replace (1 + k)%nat with (S k) by lia.
  rewrite !app_assoc. apply Permutation_app_tail. apply Permutation_app_comm.
Qed.

Lemma splice1_removed {A : Type} (arr : list A) (start : Z) :
  fst (splice1 arr start) = firstn 1 (fst (splice1 arr start)).
Proof. unfold splice1. cbn [fst]. rewrite firstn_firstn. reflexivity. Qed.

Lemma definedOnes_head {A : Type} (l : list A) :
  definedOnes [nth_error (firstn 1 l) 0] = firstn 1 l.
Proof. destruct l; reflexivity. Qed.

Lemma definedOnes_app {A : Type} (l1 l2 : list (option A)) :
  definedOnes (l1 ++ l2) = definedOnes l1 ++ definedOnes l2.
Proof. unfold definedOnes. apply flat_map_app. Qed.

(** X6.  Whatever the draws, the two semifinal eliminations make two draws
    and record two entries, and the queens they name together with the
    queens that are left are the queens of the pool: nobody is lost and nobody
    is there twice. *)
Theorem semifinal_keeps_pool (rng : nat -> Q) (pool : list string) (fuel c : nat) :
  exists elims finalists,
    foldM (eliminate rng) [0; 1]%nat ([], pool) fuel c
    = (Return (elims, finalists), (c + 2)%nat) /\
    length elims = 2%nat /\
    Permutation (definedOnes elims ++ finalists) pool.
Proof.
  cbn [foldM]. unfold bind at 1. unfold eliminate at 1.
  unfold bind at 1. unfold pickRandomIndex at 1, bind at 1, next at 1, ret at 1.
  fold (indexAt rng (length pool) c).
  pose proof (splice1_perm pool (indexAt rng (length pool) c)) as P1.
  pose proof (splice1_removed pool (indexAt rng (length pool) c)) as R1.
  destruct (splice1 pool (indexAt rng (length pool) c)) as [removed1 pool1].
  cbn [fst snd app] in *. unfold ret at 1.
  unfold bind at 1. unfold eliminate at 1.
  unfold bind at 1. unfold pickRandomIndex at 1, bind at 1, next at 1, ret at 1.
  fold (indexAt rng (length pool1) (S c)).
  pose proof (splice1_perm pool1 (indexAt rng (length pool1) (S c))) as P2.
  pose proof (splice1_removed pool1 (indexAt rng (length pool1) (S c))) as R2.
  destruct (splice1 pool1 (indexAt rng (length pool1) (S c))) as [removed2 pool2].
  cbn [fst snd] in *. unfold ret.
  eexists. eexists. split; [f_equal; lia | ]. split; [reflexivity | ].
  change [nth_error removed1 0; nth_error removed2 0]
    with ([nth_error removed1 0] ++ [nth_error removed2 0]).
  rewrite definedOnes_app. rewrite R1, R2, !definedOnes_head, <- R1, <- R2.
  rewrite <- P1, <- P2. rewrite <- !app_assoc. reflexivity.
Qed.

(** ** The shuffle *)

Section Shuffle.

Variable rng : nat -> Q.
Hypothesis Hcontract : contract rng.

Lemma shuffleLoop_run (i : nat) :
  forall (arr : list string) (c : nat),
    (i < length arr \/ i = 0)%nat ->
    exists arr',
      (forall fuel, shuffleLoop rng i arr fuel c = (Return arr', (c + i)%nat)) /\
      Permutation arr' arr.
Proof.
  induction i as [ | i IH]; intros arr c Hi.
  - exists arr. split; [intros fuel; rewrite Nat.add_0_r; reflexivity | reflexivity].
  - destruct Hi as [Hi | Hi]; [ | discriminate ].
    assert (Ej : Qfloor (times (rng c) (inject_Z (Z.of_nat (S i) + 1))) = indexAt rng (S (S i)) c).
    { unfold indexAt. replace (Z.of_nat (S i) + 1) with (Z.of_nat (S (S i))) by lia.
      reflexivity. }
    pose proof (indexAt_range rng Hcontract (S (S i)) c ltac:(lia)) as Hj.
    destruct (item_in_range arr (Z.of_nat (S i)) ltac:(lia)) as (ai & Hai & Hni & _).
    destruct (item_in_range arr (indexAt rng (S (S i)) c) ltac:(lia)) as (aj & Haj & Hnj & _).
    rewrite Nat2Z.id in Hni.
    destruct (IH (assign (assign arr (S i) aj) (Z.to_nat (indexAt rng (S (S i)) c)) ai) (S c))
      as (arr' & Hrun & Hperm).
    { left. rewrite !assign_length. lia. }
    exists arr'. split.
    + intros fuel. cbn [shuffleLoop]. unfold bind at 1, next at 1.
      rewrite Ej. unfold bind at 1. rewrite Hai. cbn [defined ret].
      unfold bind at 1. rewrite Haj. cbn [defined ret].
      rewrite Hrun. replace (S c + i)%nat with (c + S i)%nat by lia. reflexivity.
    + rewrite Hperm. apply swap_perm; assumption.
Qed.

(** X7.  On a source that keeps its contract [shuffle] makes one draw for
    every entry but one, needs no fuel, and answers with a permutation of
    the array. *)
Theorem shuffle_permutes (arr : list string) (c : nat) :
  exists arr',
    (forall fuel, shuffle rng arr fuel c = (Return arr', (c + (length arr - 1))%nat)) /\
    Permutation arr' arr.
Proof.
  unfold shuffle. apply shuffleLoop_run. destruct arr; simpl; lia.
Qed.

End Shuffle.

(** An instance: the sample inputs meet the hypotheses. *)
Lemma shuffle_permutes_witness :
  contract alternating /\
  exists arr',
    (forall fuel, shuffle alternating sixQueens fuel 0%nat
                  = (Return arr', (0 + (length sixQueens - 1))%nat)) /\
    Permutation arr' sixQueens.
Proof.
  split; [apply alternating_contract | ].
  exact (shuffle_permutes alternating alternating_contract sixQueens 0%nat).
Defined.

(** ** The tournament of the finale *)

Lemma half_pair (m : nat) : (S (S m) / 2 = S (m / 2))%nat.
Proof.
  replace (S (S m)) with (m + 1 * 2)%nat by lia. rewrite Nat.div_add by lia. lia.
Qed.

Lemma halves_sum (n : nat) : (n / 2 + (n + 1) / 2 = n)%nat.
Proof.
  pose proof (Nat.div_mod_eq n 2). pose proof (Nat.div_mod_eq (n + 1) 2).
  pose proof (Nat.mod_upper_bound n 2). pose proof (Nat.mod_upper_bound (n + 1) 2). lia.
Qed.

Lemma log2_up_half (n : nat) :
  (2 <= n)%nat -> Nat.log2_up n = S (Nat.log2_up ((n + 1) / 2)).
Proof.
  intros Hn.
  pose proof (Nat.div_mod_eq n 2) as Hdiv. pose proof (Nat.mod_upper_bound n 2) as Hmod.
  pose proof (halves_sum n) as Hsum.
  destruct (Nat.eq_dec (n mod 2) 0) as [E | E].
  - assert (Hh : ((n + 1) / 2 = n / 2)%nat) by lia.
    rewrite Hh. replace n with (2 * (n / 2))%nat at 1 by lia.
    apply Nat.log2_up_double. lia.
  - assert (Hh : ((n + 1) / 2 = S (n / 2))%nat) by lia.
    rewrite Hh. replace n with (S (2 * (n / 2)))%nat at 1 by lia.
    rewrite (Nat.log2_up_eqn (S (2 * (n / 2)))), (Nat.log2_up_eqn (S (n / 2))) by lia.
    cbn [Nat.pred]. rewrite Nat.log2_double by lia. reflexivity.
Qed.

Section Tournament.

Variable rng : nat -> Q.

(** A round records one pairing per two contestants, in their order, and a
    bye for the last of an odd number; its winners go on in that order. *)
Lemma playRound_pairs (n : nat) :
  forall (cs : list string) (c : nat),
    (length cs <= n)%nat ->
    exists pairs,
      (forall fuel, playRound rng cs fuel c
                    = (Return (map Pairing.winner pairs, pairs), (c + length cs / 2)%nat)) /\
      flat_map contestantsOf pairs = cs /\
      Forall soundPairing pairs /\
      length pairs = ((length cs + 1) / 2)%nat.
Proof.
  induction n as [ | n IH]; intros cs c Hlen.
  - destruct cs; [ | simpl in Hlen; lia ].
    exists []. repeat split; [intros fuel; cbn; rewrite Nat.add_0_r; reflexivity | constructor].
  - destruct cs as [ | a [ | b rest]].
    + exists []. repeat split; [intros fuel; cbn; rewrite Nat.add_0_r; reflexivity | constructor].
    + exists [{| Pairing.a := a; Pairing.b := None;
                 Pairing.winner := a; Pairing.bye := true |}].
      repeat split.
      * intros fuel. cbn. rewrite Nat.add_0_r. reflexivity.
      * constructor; [ | constructor ]. split; reflexivity.
    + destruct (IH rest (S c)) as (pairs & Hrun & Hflat & Hsound & Hn).
      { simpl in Hlen. lia. }
      set (winner := if Qltb (rng c) (1 # 2) then a else b).
      exists ({| Pairing.a := a; Pairing.b := Some b;
                 Pairing.winner := winner; Pairing.bye := false |} :: pairs).
      repeat split.
      * intros fuel. cbn [playRound]. unfold bind, next. rewrite Hrun.
        cbn [length]. rewrite half_pair.
        replace (S c + length rest / 2)%nat with (c + S (length rest / 2))%nat by lia.
        reflexivity.
      * cbn [flat_map contestantsOf Pairing.a Pairing.b app]. rewrite Hflat. reflexivity.
      * constructor; [ | exact Hsound ]. split; [ | reflexivity ].
        cbn [Pairing.winner Pairing.a]. unfold winner.
        destruct (Qltb (rng c) (1 # 2)); auto.
      * cbn [length]. rewrite half_step. congruence.
Qed.

Lemma finaleLoop_tournament (m : nat) :
  forall (cs : list string) (rounds : list (list Pairing.t)) (c : nat),
    (length cs <= m)%nat ->
    exists fc new,
      tournament cs new fc /\
      length new = Nat.log2_up (length cs) /\
      forall n fuel, (Nat.log2_up (length cs) <= n)%nat ->
        finaleLoop rng n cs rounds fuel c
        = (Return (fc, rounds ++ new), (c + (length cs - 1))%nat).
Proof.
  induction m as [ | m IH]; intros cs rounds c Hlen.
  - exists cs, []. repeat split; try lia.
    + rewrite Nat.log2_up_eqn0 by lia. reflexivity.
    + intros n fuel _. rewrite app_nil_r.
      destruct n; cbn [finaleLoop];
        (destruct (Nat.ltb_spec 1 (length cs)); [lia | ]);
        unfold ret; f_equal; lia.
  - destruct (Nat.le_gt_cases (length cs) 1) as [H | H].
    + exists cs, []. repeat split; try lia.
      * rewrite Nat.log2_up_eqn0 by lia. reflexivity.
      * intros n fuel _. rewrite app_nil_r.
        destruct n; cbn [finaleLoop];
          (destruct (Nat.ltb_spec 1 (length cs)); [lia | ]);
          unfold ret; f_equal; lia.
    + destruct (playRound_pairs _ cs c (le_n _)) as (pairs & Hrun & Hflat & Hsound & Hn).
      pose proof (halves_sum (length cs)) as Hsum.
      assert (Hhalf : (1 <= length cs / 2)%nat) by (apply Nat.div_le_lower_bound; lia).
      assert (Hup : (1 <= (length cs + 1) / 2)%nat) by (apply Nat.div_le_lower_bound; lia).
      destruct (IH (map Pairing.winner pairs) (rounds ++ [pairs])
                  (c + length cs / 2)%nat) as (fc & new & Htour & Hrounds & Hloop).
      { rewrite length_map, Hn. lia. }
      rewrite length_map, Hn in Hrounds, Hloop.
      exists fc, (pairs :: new). repeat split; try assumption.
      * cbn [length]. rewrite Hrounds. symmetry. apply log2_up_half. lia.
      * intros [ | n] fuel Hfuel.
        -- rewrite log2_up_half in Hfuel by lia. lia.
        -- cbn [finaleLoop]. destruct (Nat.ltb_spec 1 (length cs)); [ | lia ].
           unfold bind. rewrite Hrun, Hloop.
           ++ rewrite <- app_assoc. cbn [app]. f_equal. lia.
           ++ rewrite log2_up_half in Hfuel by lia. lia.
Qed.

Lemma finaleLoop_rounds (n : nat) :
  forall (cs : list string) (rounds : list (list Pairing.t)) (fuel c : nat),
    match finaleLoop rng n cs rounds fuel c with
    | (Return (fc, rs), _) => exists new, rs = rounds ++ new /\ tournament cs new fc
    | (OutOfFuel, _) => True
    | _ => False
    end.
Proof.
  induction n as [ | n IH]; intros cs rounds fuel c.
  - cbn [finaleLoop]. destruct (Nat.ltb_spec 1 (length cs)) as [H | H]; [exact I | ].
    exists []. split; [symmetry; apply app_nil_r | split; [reflexivity | exact H]].
  - cbn [finaleLoop]. destruct (Nat.ltb_spec 1 (length cs)) as [H | H].
    + destruct (playRound_pairs _ cs c (le_n _)) as (pairs & Hrun & Hflat & Hsound & _).
      unfold bind. rewrite Hrun.
      specialize (IH (map Pairing.winner pairs) (rounds ++ [pairs]) fuel
                    (c + length cs / 2)%nat).
      destruct (finaleLoop rng n (map Pairing.winner pairs) (rounds ++ [pairs]) fuel
                  (c + length cs / 2)%nat) as [[[fc rs] | e | | ] c'']; try exact IH.
      destruct IH as (new & -> & Htour). exists (pairs :: new). split.
      * rewrite <- app_assoc. reflexivity.
      * cbn [tournament]. auto.
    + exists []. split; [symmetry; apply app_nil_r | split; [reflexivity | exact H]].
Qed.

(** The finale in both modes, with the tournament its rounds form. *)
Lemma spec_finale_tournament (md : mode) (cs : list string) (c : nat)
  (Q : list string * list (list Pairing.t) -> nat -> Prop) :
  (forall fc rounds c',
      finaleSpec cs fc rounds -> tournament cs rounds fc -> Q (fc, rounds) c') ->
  spec md (finale rng cs) c Q.
Proof.
  intros HQ. destruct md; simpl.
  - intros fuel. unfold finale.
    pose proof (finaleLoop_partial rng fuel cs [] fuel c) as H1.
    pose proof (finaleLoop_rounds fuel cs [] fuel c) as H2.
    destruct (finaleLoop rng fuel cs [] fuel c) as [[[fc rs] | e | | ] c']; try exact H1.
    destruct H1 as (new1 & E1 & Hspec). destruct H2 as (new2 & E2 & Htour).
    cbn [app] in E1, E2. subst new1 new2. apply HQ; assumption.
  - destruct (finaleLoop_total rng _ cs [] c (le_n _)) as (fc & new & c' & Hspec & Hloop).
    destruct (finaleLoop_tournament _ cs [] c (le_n _)) as (fc2 & new2 & Htour & _ & Hloop2).
    exists (fc, new), c', (length cs + Nat.log2_up (length cs))%nat.
    assert (E : (fc2, new2) = (fc, new)).
    { specialize (Hloop (length cs + Nat.log2_up (length cs))%nat 0%nat ltac:(lia)).
      specialize (Hloop2 (length cs + Nat.log2_up (length cs))%nat 0%nat ltac:(lia)).
      rewrite Hloop in Hloop2. cbn [app] in Hloop2. congruence. }
    injection E as -> ->.
    split; [apply HQ; assumption | ].
    intros fuel Hfuel. unfold finale. apply Hloop. lia.
Qed.

(** X8.  Whatever the draws, the finale ends: it plays as many rounds as
    the binary logarithm of the number of contestants, rounded up, makes one
    draw for every contestant but one, and its rounds form a tournament from
    the contestants to one survivor (to none when there is no contestant). *)
Theorem finale_tournament (cs : list string) (c : nat) :
  exists fc rounds,
    (forall fuel, (Nat.log2_up (length cs) <= fuel)%nat ->
       finale rng cs fuel c = (Return (fc, rounds), (c + (length cs - 1))%nat)) /\
    tournament cs rounds fc /\
    length rounds = Nat.log2_up (length cs) /\
    length fc = Nat.min 1 (length cs).
Proof.
  destruct (finaleLoop_tournament _ cs [] c (le_n _)) as (fc & new & Htour & Hrounds & Hloop).
  exists fc, new. repeat split; try assumption.
  - intros fuel Hfuel. unfold finale. apply Hloop. exact Hfuel.
  - destruct (finaleLoop_total rng _ cs [] c (le_n _)) as (fc' & new' & c' & Hspec & Hloop').
    specialize (Hloop (length cs + Nat.log2_up (length cs))%nat 0%nat ltac:(lia)).
    specialize (Hloop' (length cs + Nat.log2_up (length cs))%nat 0%nat ltac:(lia)).
    rewrite Hloop in Hloop'. injection Hloop' as -> _ _. exact (fs_one _ _ _ Hspec).
Qed.

(** X9.  In every round of the finale each recorded pairing is won by one
    of its two contestants, a bye by its only one, and the pairings list the
    contestants of the round two by two in their order. *)
Theorem playRound_sound (cs : list string) (c : nat) :
  exists pairs,
    (forall fuel, playRound rng cs fuel c
                  = (Return (map Pairing.winner pairs, pairs), (c + length cs / 2)%nat)) /\
    flat_map contestantsOf pairs = cs /\
    Forall soundPairing pairs /\
    byes pairs = (length cs mod 2)%nat.
Proof.
  destruct (playRound_pairs _ cs c (le_n _)) as (pairs & Hrun & Hflat & Hsound & _).
  exists pairs. repeat split; try assumption.
  destruct (playRound_run rng _ cs c (le_n _)) as (nxt & pairs' & c' & Hrun' & _ & _ & _ & Hb).
  specialize (Hrun 0%nat). rewrite Hrun' in Hrun. injection Hrun as _ -> _. exact Hb.
Qed.

End Tournament.

(** ** Bracket formation on any number of queens *)

Lemma filter_remainder_tail (count s r k : nat) :
  (k < count)%nat -> (r <= count)%nat ->
  filter (fun i => (i mod count =? k)%nat) (seq 0 (count * s + r))
  = map (fun j => (count * j + k)%nat) (seq 0 s)
    ++ (if (k <? r)%nat then [count * s + k]%nat else []).
Proof.
  intros Hk Hr. rewrite seq_app, filter_app, filter_remainder by assumption.
  f_equal. cbn [Nat.add]. rewrite (filter_block count s k Hk) by lia.
  destruct (Nat.leb_spec (count * s) (count * s + k)); [ | lia ].
  destruct (Nat.ltb_spec (count * s + k) (count * s + r)), (Nat.ltb_spec k r);
    cbn; try reflexivity; lia.
Qed.

(** X10.  With a positive number of brackets [sliceIntoBrackets] deals out
    every queen once, whatever the number of queens: the groups together hold
    the queens of the input, and group [k] has one member more than the
    quotient of the two numbers when [k] is below the remainder, and the
    quotient otherwise. *)
Theorem sliceIntoBrackets_deals_evenly (queens : list string) (bracketCount : nat) :
  (0 < bracketCount)%nat ->
  exists brackets,
    sliceIntoBrackets queens bracketCount = Return brackets /\
    Permutation (concat brackets) queens /\
    forall k, (k < bracketCount)%nat ->
      length (nth k brackets [])
      = (length queens / bracketCount
         + if (k <? length queens mod bracketCount)%nat then 1 else 0)%nat.
Proof.
  intros Hcount.
  destruct (sliceIntoBrackets_spec queens bracketCount Hcount) as (bs & Hrun & Hlen & Hnth).
  exists bs. split; [exact Hrun | ]. split; [apply (sliceIntoBrackets_perm _ _ _ Hrun) | ].
  intros k Hk. rewrite (Hnth k Hk). unfold bracketMembers.
  rewrite length_map, <- (length_map fst).
  rewrite (filter_combine_fst (fun i => (i mod bracketCount =? k)%nat))
    by (rewrite length_seq; reflexivity).
  rewrite (Nat.div_mod_eq (length queens) bracketCount) at 1.
  rewrite filter_remainder_tail;
    [ | exact Hk | apply Nat.lt_le_incl, Nat.mod_upper_bound; lia ].
  rewrite length_app, length_map, length_seq.
  destruct (k <? length queens mod bracketCount)%nat; reflexivity.
Qed.

(** An instance: the sample inputs meet the hypotheses. *)
Lemma sliceIntoBrackets_deals_evenly_witness :
  (0 < 4)%nat /\
  exists brackets,
    sliceIntoBrackets sixQueens 4 = Return brackets /\
    Permutation (concat brackets) sixQueens /\
    forall k, (k < 4)%nat ->
      length (nth k brackets [])
      = (length sixQueens / 4 + if (k <? length sixQueens mod 4)%nat then 1 else 0)%nat.
Proof.
  assert (H : (0 < 4)%nat) by lia.
  split; [exact H | ].
  exact (sliceIntoBrackets_deals_evenly sixQueens 4 H).
Defined.

(** ** Standings *)

Lemma StronglySorted_cut {A : Type} (R : A -> A -> Prop) (l : list A) :
  StronglySorted R l ->
  forall k a b, In a (firstn k l) -> In b (skipn k l) -> R a b.
Proof.
  induction 1 as [ | x l Hs IH Hall]; intros [ | k] a b Ha Hb; simpl in *; try tauto.
  destruct Ha as [<- | Ha].
  - rewrite Forall_forall in Hall. apply Hall.
    rewrite <- (firstn_skipn k l). apply in_or_app. right. exact Hb.
  - eapply IH; eassumption.
Qed.

Lemma sorted_unique {A : Type} (R : A -> A -> Prop) (l1 : list A) :
  (forall a b, R a b -> R b a -> False) ->
  forall l2, StronglySorted R l1 -> StronglySorted R l2 -> Permutation l1 l2 -> l1 = l2.
Proof.
  intros Hasym. induction l1 as [ | a t1 IH]; intros l2 H1 H2 Hperm.
  - apply Permutation_nil in Hperm. congruence.
  - destruct l2 as [ | b t2]; [apply Permutation_sym, Permutation_nil in Hperm; discriminate | ].
    inversion H1 as [ | ? ? H1t H1a]; subst. inversion H2 as [ | ? ? H2t H2b]; subst.
    rewrite Forall_forall in H1a, H2b.
    assert (E : a = b).
    { assert (Ha : In a (b :: t2)) by (eapply Permutation_in; [exact Hperm | left; reflexivity]).
      assert (Hb : In b (a :: t1))
        by (eapply Permutation_in; [symmetry; exact Hperm | left; reflexivity]).
      destruct Ha as [Ha | Ha]; [congruence | ].
      destruct Hb as [Hb | Hb]; [congruence | ].
      exfalso. exact (Hasym a b (H1a b Hb) (H2b a Ha)). }
    subst b. f_equal. apply IH; try assumption.
    eapply Permutation_cons_inv. exact Hperm.
Qed.

(** X11.  When [localeCompare] is a consistent comparator that tells any two
    different names apart, the standings of a points object depend on its
    entries only, not on the order in which the keys were inserted. *)
Theorem rankByPoints_ignores_insertion_order (lc : string -> string -> Z)
  (o1 o2 : pointsObj) :
  (forall x y, 0 < lc x y -> lc y x <= 0) ->
  (forall x y, lc x y < 0 -> 0 < lc y x) ->
  (forall x y z, lc x y <= 0 -> lc y z <= 0 -> lc x z <= 0) ->
  (forall x y, lc x y = 0 -> x = y) ->
  NoDup (map fst o1) -> Permutation o1 o2 ->
  rankByPoints lc o1 = rankByPoints lc o2.
Proof.
  intros Htotal Hanti Htrans Hstrict Hnd Hperm.
  assert (Hnd2 : NoDup (map fst o2)).
  { eapply Permutation_NoDup; [apply Permutation_map; exact Hperm | exact Hnd]. }
  assert (Hsorted : forall o, NoDup (map fst o) ->
            StronglySorted
              (fun a b => Standing.points b < Standing.points a \/
                          (Standing.points a = Standing.points b /\
                           lc (Standing.name a) (Standing.name b) < 0))
              (rankByPoints lc o)).
  { intros o Ho. apply strict_ranking; [exact Hstrict | | ].
    - eapply Permutation_NoDup; [symmetry; apply rankByPoints_names | exact Ho].
    - unfold rankByPoints.
      eapply StronglySorted_weaken;
        [ | apply sortBy_sorted;
            [apply rankCompare_total; exact Htotal | apply rankCompare_trans; exact Htrans] ].
      intros a b Hab. apply rankCompare_le. exact Hab. }
  eapply sorted_unique; [ | apply Hsorted; exact Hnd | apply Hsorted; exact Hnd2 | ].
  - intros a b [Hab | [Eab Lab]] [Hba | [Eba Lba]]; try lia.
    pose proof (Hanti _ _ Lab). lia.
  - assert (Hentries : Permutation (map entryOf (rankByPoints lc o1))
                         (map entryOf (rankByPoints lc o2))).
    { rewrite (rankByPoints_entries lc o1 Hnd), (rankByPoints_entries lc o2 Hnd2).
      exact Hperm. }
    apply (Permutation_map
             (fun e => {| Standing.name := fst e; Standing.points := snd e |})) in Hentries.
    rewrite !map_map in Hentries.
    erewrite (map_ext _ (fun s => s)), map_id in Hentries by (intros []; reflexivity).
    erewrite (map_ext _ (fun s => s)), map_id in Hentries by (intros []; reflexivity).
    exact Hentries.
Qed.

Lemma lettersCompare_anti (x y : string) : lettersCompare x y < 0 -> 0 < lettersCompare y x.
Proof.
  unfold lettersCompare.
  rewrite (String.compare_antisym (mapString lowerOf x)).
  rewrite (String.compare_antisym (mapString swapCase x)).
  destruct (String.compare (mapString lowerOf y) (mapString lowerOf x));
    destruct (String.compare (mapString swapCase y) (mapString swapCase x));
    cbn; lia.
Qed.

(** An instance: the sample inputs meet the hypotheses. *)
Lemma rankByPoints_ignores_insertion_order_witness :
  (forall x y, 0 < lettersCompare x y -> lettersCompare y x <= 0) /\
  (forall x y, lettersCompare x y < 0 -> 0 < lettersCompare y x) /\
  (forall x y z, lettersCompare x y <= 0 -> lettersCompare y z <= 0 ->
                 lettersCompare x z <= 0) /\
  (forall x y, lettersCompare x y = 0 -> x = y) /\
  NoDup (map fst [("B", 1); ("a", 1); ("c", 3)]) /\
  Permutation [("B", 1); ("a", 1); ("c", 3)] [("c", 3); ("a", 1); ("B", 1)] /\
  rankByPoints lettersCompare [("B", 1); ("a", 1); ("c", 3)]
  = rankByPoints lettersCompare [("c", 3); ("a", 1); ("B", 1)].
Proof.
  assert (Hnd : NoDup (map fst [("B", 1); ("a", 1); ("c", 3)])).
  { repeat (constructor; [simpl; intuition discriminate | ]). constructor. }
  assert (Hperm : Permutation [("B", 1); ("a", 1); ("c", 3)] [("c", 3); ("a", 1); ("B", 1)]).
  { apply (Permutation_rev [("B", 1); ("a", 1); ("c", 3)]). }
  exact (conj lettersCompare_total
          (conj lettersCompare_anti
          (conj lettersCompare_trans
          (conj lettersCompare_eq
          (conj Hnd
          (conj Hperm
             (rankByPoints_ignores_insertion_order lettersCompare _ _
                lettersCompare_total lettersCompare_anti lettersCompare_trans
                lettersCompare_eq Hnd Hperm))))))).
Defined.

(** ** The season's records *)

Lemma Forall2_Forall_r {A B : Type} (R : A -> B -> Prop) (P : B -> Prop)
  (l1 : list A) (l2 : list B) :
  (forall a b, R a b -> P b) -> Forall2 R l1 l2 -> Forall P l2.
Proof. intros HR H. induction H; constructor; eauto. Qed.

Lemma Forall2_in_r {A B : Type} (R : A -> B -> Prop) (l1 : list A) (l2 : list B) (b : B) :
  Forall2 R l1 l2 -> In b l2 -> exists a, In a l1 /\ R a b.
Proof.
  induction 1 as [ | x y l1 l2 Hxy Hrest IH]; intros Hin; [destruct Hin | ].
  destruct Hin as [<- | Hin].
  - exists x. split; [left; reflexivity | exact Hxy].
  - destruct (IH Hin) as (a & Ha & HR). exists a. split; [right; exact Ha | exact HR].
Qed.

Lemma bracketSpec_numbering (lc : string -> string -> Z) (i : nat) (qs : list string)
  (br : BracketResult.t) :
  bracketSpec lc i qs br ->
  map EpRecord.episodeGlobalNumber (BracketResult.episodes br)
  = [3 * i + 1; 3 * i + 2; 3 * i + 3]%nat /\
  Forall (fun rec =>
            EpRecord.bracket rec = ((EpRecord.episodeGlobalNumber rec - 1) / 3 + 1)%nat /\
            EpRecord.episodeNumberInBracket rec
            = ((EpRecord.episodeGlobalNumber rec - 1) mod 3 + 1)%nat)
    (BracketResult.episodes br).
Proof.
  intros Hbr. pose proof (bs_numbers _ _ _ _ Hbr) as Hn.
  pose proof (bs_records _ _ _ _ Hbr) as Hrec.
  assert (Hone : forall rec n,
            recordSpec i qs rec -> EpRecord.episodeNumberInBracket rec = S n -> (n < 3)%nat ->
            EpRecord.episodeGlobalNumber rec = (3 * i + S n)%nat /\
            EpRecord.bracket rec = ((EpRecord.episodeGlobalNumber rec - 1) / 3 + 1)%nat /\
            EpRecord.episodeNumberInBracket rec
            = ((EpRecord.episodeGlobalNumber rec - 1) mod 3 + 1)%nat).
  { intros rec n Hr En Hlt.
    pose proof (rs_global _ _ _ Hr) as Eg. pose proof (rs_bracket _ _ _ Hr) as Eb.
    rewrite En in Eg. rewrite Eg, Eb, En.
    replace (i * 3 + S n - 1)%nat with (3 * i + n)%nat by lia.
    rewrite <- (Nat.div_unique (3 * i + n) 3 i n) by lia.
    rewrite <- (Nat.mod_unique (3 * i + n) 3 i n) by lia.
    repeat split; lia. }
  destruct (BracketResult.episodes br) as [ | r1 [ | r2 [ | r3 [ | ]]]]; try discriminate.
  injection Hn as N1 N2 N3.
  inversion Hrec as [ | ? ? H1 Hrec1]; subst.
  inversion Hrec1 as [ | ? ? H2 Hrec2]; subst.
  inversion Hrec2 as [ | ? ? H3 _]; subst.
  destruct (Hone r1 0%nat H1 N1 ltac:(lia)) as (G1 & L1).
  destruct (Hone r2 1%nat H2 N2 ltac:(lia)) as (G2 & L2).
  destruct (Hone r3 2%nat H3 N3 ltac:(lia)) as (G3 & L3).
  split.
  - cbn [map]. rewrite G1, G2, G3. reflexivity.
  - repeat (constructor; [assumption | ]). constructor.
Qed.

Lemma brackets_numbering (lc : string -> string -> Z) (bs : list (list string)) :
  forall (results : list BracketResult.t) (start : nat),
    Forall2 (fun iq br => bracketSpec lc (fst iq) (snd iq) br)
      (combine (seq start (length bs)) bs) results ->
    map BracketResult.bracketIndex results = seq (start + 1) (length bs) /\
    map EpRecord.episodeGlobalNumber (flat_map BracketResult.episodes results)
    = seq (3 * start + 1) (3 * length bs) /\
    Forall (fun rec =>
              EpRecord.bracket rec = ((EpRecord.episodeGlobalNumber rec - 1) / 3 + 1)%nat /\
              EpRecord.episodeNumberInBracket rec
              = ((EpRecord.episodeGlobalNumber rec - 1) mod 3 + 1)%nat)
      (flat_map BracketResult.episodes results).
Proof.
  induction bs as [ | qs bs IH]; intros results start H; cbn [length seq combine] in H.
  - inversion H; subst. cbn. repeat split; constructor.
  - inversion H as [ | ? br ? rest Hbr Hrest]; subst. cbn [fst snd] in Hbr.
    destruct (IH rest (S start) Hrest) as (Hi & Hg & Hl).
    destruct (bracketSpec_numbering _ _ _ _ Hbr) as (Hg1 & Hl1).
    cbn [map flat_map length]. repeat split.
    + rewrite (bs_index _ _ _ _ Hbr), Hi. reflexivity.
    + rewrite map_app, Hg1, Hg.
      replace (3 * S (length bs))%nat with (3 + 3 * length bs)%nat by lia.
      rewrite seq_app. cbn [seq app].
      replace (3 * S start + 1)%nat with (3 * start + 1 + 3)%nat by lia.
      replace (3 * start + 2)%nat with (S (3 * start + 1)) by lia.
      replace (3 * start + 3)%nat with (S (S (3 * start + 1))) by lia.
      reflexivity.
    + apply Forall_app. split; assumption.
Qed.

Lemma seasonSpec_numbering (lc : string -> string -> Z) (names : list string)
  (count : nat) (clock : string) (r : Season.t) :
  (0 < count)%nat -> seasonSpec lc names count clock r -> seasonNumbering count r.
Proof.
  intros Hcount Hr.
  destruct (ss_brackets _ _ _ _ _ Hr) as (bs & Hslice & Hall).
  destruct (sliceIntoBrackets_spec names count Hcount) as (bs' & Hslice' & Hbs & _).
  assert (bs' = bs) as -> by congruence.
  destruct (brackets_numbering lc bs _ 0%nat Hall) as (Hi & Hg & Hl).
  rewrite Hbs in Hi, Hg. constructor.
  - exact Hi.
  - rewrite (ss_episodes _ _ _ _ _ Hr). exact Hg.
  - rewrite (ss_episodes _ _ _ _ _ Hr). exact Hl.
Qed.

(** X12.  In every season the brackets are numbered 1, 2, ... and the
    episodes 1, 2, ... through the season, three to a bracket: episode [g]
    belongs to bracket [(g - 1) / 3 + 1] and is episode [(g - 1) mod 3 + 1]
    of it; and the season does come to its result when the draws do not
    select one index of a bracket for ever. *)
Theorem season_numbering (lc : string -> string -> Z) (rng : nat -> Q)
  (initialQueens : list queen) (opts : options) (clock : string) :
  let count := orDefault (bracketCount opts) 3 in
  let size := orDefault (bracketSize opts) 6 in
  contract rng -> length initialQueens = (count * size)%nat ->
  onReturn (simulateAllStars10 lc rng initialQueens opts clock) (seasonNumbering count) /\
  (((2 <= size)%nat -> fair rng size) ->
   returnsWith (simulateAllStars10 lc rng initialQueens opts clock) (seasonNumbering count)).
Proof.
  intros count size Hc Hlen.
  apply season_property; [exact Hc | exact Hlen | ].
  intros r Hr. eapply seasonSpec_numbering; [ | exact Hr ].
  apply orDefault_pos. lia.
Qed.

(** An instance: the sample inputs meet the hypotheses. *)
Lemma season_numbering_witness :
  contract alternating /\ length eighteenQueens = (3 * 6)%nat /\
  ((2 <= 6)%nat -> fair alternating 6) /\
  onReturn (simulateAllStars10 lettersCompare alternating eighteenQueens defaultOptions "")
    (seasonNumbering 3) /\
  returnsWith (simulateAllStars10 lettersCompare alternating eighteenQueens defaultOptions "")
    (seasonNumbering 3).
Proof.
  pose proof (alternating_fair 6) as Hfair.
  destruct (season_numbering lettersCompare alternating eighteenQueens defaultOptions ""
              alternating_contract eq_refl) as [Hon Hret].
  exact (conj alternating_contract (conj eq_refl (conj Hfair (conj Hon (Hret Hfair))))).
Defined.

(** ** The leaders of a bracket *)

Lemma rankByPoints_points (lc : string -> string -> Z) (o : pointsObj) (s : Standing.t) :
  In s (rankByPoints lc o) -> Standing.points s = pointsOf o (Standing.name s).
Proof.
  unfold rankByPoints. intros H.
  apply (Permutation_in _ (sortBy_perm _ _)) in H.
  apply in_map_iff in H. destruct H as (k & <- & _). reflexivity.
Qed.

Lemma bracketSpec_leadersAhead (lc : string -> string -> Z) (i : nat) (qs : list string)
  (br : BracketResult.t) :
  (forall x y, 0 < lc x y -> lc y x <= 0) ->
  (forall x y z, lc x y <= 0 -> lc y z <= 0 -> lc x z <= 0) ->
  bracketSpec lc i qs br -> leadersAhead br.
Proof.
  intros Htotal Htrans Hbr q q' Hq Hq' Hout.
  pose proof (bs_standings _ _ _ _ Hbr) as Est.
  assert (Hsorted : StronglySorted
                      (fun a b => Standing.points b <= Standing.points a)
                      (BracketResult.standings br)).
  { rewrite Est. unfold rankByPoints.
    eapply StronglySorted_weaken;
      [ | apply sortBy_sorted;
          [apply rankCompare_total; exact Htotal | apply rankCompare_trans; exact Htrans] ].
    intros a b Hab. apply rankCompare_le in Hab. lia. }
  pose proof Hq' as Hall.
  unfold top3 in Hq, Hout.
  rewrite <- (firstn_skipn 3 (BracketResult.standings br)), map_app in Hall.
  apply in_app_or in Hall. destruct Hall as [Hall | Hall]; [contradiction | ].
  apply in_map_iff in Hq. destruct Hq as (s & <- & Hs).
  apply in_map_iff in Hall. destruct Hall as (t & <- & Ht).
  pose proof (StronglySorted_cut _ _ Hsorted 3%nat s t Hs Ht) as Hle.
  rewrite <- (rankByPoints_points lc (BracketResult.points br) s),
          <- (rankByPoints_points lc (BracketResult.points br) t).
  - exact Hle.
  - rewrite <- Est, <- (firstn_skipn 3 (BracketResult.standings br)).
    apply in_or_app. right. exact Ht.
  - rewrite <- Est, <- (firstn_skipn 3 (BracketResult.standings br)).
    apply in_or_app. left. exact Hs.
Qed.

(** X13.  When [localeCompare] is a consistent comparator, in every bracket
    of every season no queen of the standings left out of the three leaders
    has more points in the bracket than one of the three; and the season does come to its
    result when the draws do not select one index of a bracket for ever. *)
Theorem leaders_have_most_points (lc : string -> string -> Z) (rng : nat -> Q)
  (initialQueens : list queen) (opts : options) (clock : string) :
  let count := orDefault (bracketCount opts) 3 in
  let size := orDefault (bracketSize opts) 6 in
  (forall x y, 0 < lc x y -> lc y x <= 0) ->
  (forall x y z, lc x y <= 0 -> lc y z <= 0 -> lc x z <= 0) ->
  contract rng -> length initialQueens = (count * size)%nat ->
  onReturn (simulateAllStars10 lc rng initialQueens opts clock)
    (fun r => Forall leadersAhead (Season.brackets r)) /\
  (((2 <= size)%nat -> fair rng size) ->
   returnsWith (simulateAllStars10 lc rng initialQueens opts clock)
     (fun r => Forall leadersAhead (Season.brackets r))).
Proof.
  intros count size Htotal Htrans Hc Hlen.
  apply season_property; [exact Hc | exact Hlen | ].
  intros r Hr.
  destruct (ss_brackets _ _ _ _ _ Hr) as (bs & _ & Hall).
  eapply Forall2_Forall_r; [ | exact Hall ].
  intros [i qs] br Hbr. eapply bracketSpec_leadersAhead; eassumption.
Qed.

(** An instance: the sample inputs meet the hypotheses. *)
Lemma leaders_have_most_points_witness :
  (forall x y, 0 < lettersCompare x y -> lettersCompare y x <= 0) /\
  (forall x y z, lettersCompare x y <= 0 -> lettersCompare y z <= 0 ->
                 lettersCompare x z <= 0) /\
  contract alternating /\ length eighteenQueens = (3 * 6)%nat /\
  ((2 <= 6)%nat -> fair alternating 6) /\
  onReturn (simulateAllStars10 lettersCompare alternating eighteenQueens defaultOptions "")
    (fun r => Forall leadersAhead (Season.brackets r)) /\
  returnsWith (simulateAllStars10 lettersCompare alternating eighteenQueens defaultOptions "")
    (fun r => Forall leadersAhead (Season.brackets r)).
Proof.
  pose proof (alternating_fair 6) as Hfair.
  destruct (leaders_have_most_points lettersCompare alternating eighteenQueens defaultOptions ""
              lettersCompare_total lettersCompare_trans alternating_contract eq_refl)
    as [Hon Hret].
  exact (conj lettersCompare_total (conj lettersCompare_trans
          (conj alternating_contract (conj eq_refl (conj Hfair (conj Hon (Hret Hfair))))))).
Defined.

(** ** The champion *)

Lemma seasonSpec_champion (lc : string -> string -> Z) (names : list string)
  (count size : nat) (clock : string) (r : Season.t) :
  (0 < count)%nat -> length names = (count * size)%nat -> NoDup names ->
  seasonSpec lc names count clock r -> championStands r.
Proof.
  intros Hcount Hlen Hnd Hs.
  destruct (seasonSpec_pool lc names count size clock r Hcount Hlen Hnd Hs) as (Hnd9 & _).
  pose proof (ss_semifinal _ _ _ _ _ Hs) as Hsemi.
  destruct (ss_finale _ _ _ _ _ Hs) as (shuffled & fc & Hperm & Hfin & Hch).
  pose proof (fs_one _ _ _ Hfin) as Hone. pose proof (fs_from _ _ _ Hfin) as Hfrom.
  unfold championStands. rewrite Hch.
  destruct fc as [ | ch rest]; cbn [nth_error].
  - cbn [length] in Hone. apply Permutation_length in Hperm.
    destruct (Season.finalists r); [reflexivity | ].
    destruct shuffled; cbn [length] in *; lia.
  - assert (Hin : In ch (Season.finalists r)).
    { eapply Permutation_in; [exact Hperm | ]. apply Hfrom. left. reflexivity. }
    split; [exact Hin | ].
    destruct (Nat.le_gt_cases 2 (length (Season.top9 r))) as [Hpool | Hpool].
    + destruct (semifinalSpec_cut _ _ _ Hnd9 Hpool Hsemi) as (e1 & e2 & -> & _ & _ & _ & Efin).
      rewrite Efin in Hin. apply filter_In in Hin. destruct Hin as [_ Hne].
      intros [E | [E | []]]; injection E as ->;
        rewrite String.eqb_refl in Hne; cbn in Hne;
        try discriminate; rewrite Bool.andb_false_r in Hne; discriminate.
    + pose proof (sf_left _ _ _ Hsemi) as Hleft.
      destruct (Season.finalists r); [destruct Hin | cbn [length] in Hleft; lia].
Qed.

(** X14.  For different names in a number that fits the brackets, whatever
    the draws in [0,1), the champion of a season is one of its finalists and
    not a queen that the semifinal eliminated, and a season is without
    champion only when nobody is left after the semifinal; and the season does
    come to its result when the draws do not select one index of a bracket for
    ever. *)
Theorem champion_is_a_finalist (lc : string -> string -> Z) (rng : nat -> Q)
  (initialQueens : list queen) (opts : options) (clock : string) :
  let count := orDefault (bracketCount opts) 3 in
  let size := orDefault (bracketSize opts) 6 in
  contract rng -> length initialQueens = (count * size)%nat ->
  NoDup (map queenName initialQueens) ->
  onReturn (simulateAllStars10 lc rng initialQueens opts clock) championStands /\
  (((2 <= size)%nat -> fair rng size) ->
   returnsWith (simulateAllStars10 lc rng initialQueens opts clock) championStands).
Proof.
  intros count size Hc Hlen Hnd.
  apply season_property; [exact Hc | exact Hlen | ].
  intros r Hr.
  apply (seasonSpec_champion lc (map queenName initialQueens) count size clock r);
    try assumption.
  - apply orDefault_pos. lia.
  - rewrite length_map. exact Hlen.
Qed.

(** An instance: the sample inputs meet the hypotheses. *)
Lemma champion_is_a_finalist_witness :
  contract alternating /\ length eighteenQueens = (3 * 6)%nat /\
  NoDup (map queenName eighteenQueens) /\
  ((2 <= 6)%nat -> fair alternating 6) /\
  onReturn (simulateAllStars10 lettersCompare alternating eighteenQueens defaultOptions "")
    championStands /\
  returnsWith (simulateAllStars10 lettersCompare alternating eighteenQueens defaultOptions "")
    championStands.
Proof.
  pose proof (alternating_fair 6) as Hfair.
  destruct (champion_is_a_finalist lettersCompare alternating eighteenQueens defaultOptions ""
              alternating_contract eq_refl eighteenQueens_NoDup) as [Hon Hret].
  exact (conj alternating_contract (conj eq_refl (conj eighteenQueens_NoDup
          (conj Hfair (conj Hon (Hret Hfair)))))).
Defined.

(** ** The points of a bracket *)

Lemma sumOver_perm (o : pointsObj) (l l' : list string) :
  Permutation l l' -> sumOver o l = sumOver o l'.
Proof. induction 1; simpl; lia. Qed.

Lemma pointsOf_zeroPoints (qs : list string) (q : string) : pointsOf (zeroPoints qs) q = 0.
Proof.
  unfold pointsOf. destruct (get (zeroPoints qs) q) as [v | ] eqn:E; [ | reflexivity ].
  eapply (zero_fold_values qs []); [ | exact E ]. simpl. discriminate.
Qed.

Lemma NoDup_concat_In {A : Type} (ls : list (list A)) (l : list A) :
  NoDup (concat ls) -> In l ls -> NoDup l.
Proof.
  induction ls as [ | x rest IH]; simpl; intros Hnd Hin; [destruct Hin | ].
  destruct (NoDup_app_inv _ _ Hnd) as (H1 & H2 & _).
  destruct Hin as [-> | Hin]; auto.
Qed.

Section Ledger.

Variable rng : nat -> Q.
Variable md : mode.
Hypothesis Hcontract : contract rng.

(** [Object.keys(pts).forEach(q => { bp[q] += pts[q]; })], with the values. *)
Lemma spec_accumulate_values (pts : pointsObj) (ks : list string) :
  forall (bp : pointsObj) (c : nat) (Q : pointsObj -> nat -> Prop),
    NoDup ks -> incl ks (map fst pts) -> incl ks (map fst bp) ->
    (forall bp',
        map fst bp' = map fst bp ->
        (forall q, In q ks -> pointsOf bp' q = pointsOf bp q + pointsOf pts q) ->
        (forall q, ~ In q ks -> pointsOf bp' q = pointsOf bp q) ->
        sumValues bp' = sumValues bp + sumOver pts ks ->
        Q bp' c) ->
    spec md (foldM (fun bp q => d <- defined (get pts q) ;; addTo bp q d) ks bp) c Q.
Proof.
  induction ks as [ | k rest IH]; intros bp c Q Hnd Hpts Hbp HQ; simpl.
  - apply spec_ret. apply HQ; [reflexivity | intros q [] | reflexivity | cbn; lia].
  - assert (Hk : In k (map fst bp)) by (apply Hbp; left; reflexivity).
    inversion Hnd as [ | ? ? Hfresh Hrest]; subst.
    apply spec_bind, spec_bind.
    eapply spec_defined; [apply pointsOf_get, Hpts; left; reflexivity | ].
    apply spec_addTo; [exact Hk | ].
    pose proof (keys_set_In bp k (pointsOf bp k + pointsOf pts k) Hk) as Hkeys.
    apply IH.
    + exact Hrest.
    + intros x Hx. apply Hpts. right. exact Hx.
    + rewrite Hkeys. intros x Hx. apply Hbp. right. exact Hx.
    + intros bp' Hk' Hin Hout Hsum. apply HQ.
      * congruence.
      * intros q [<- | Hq].
        -- rewrite (Hout k Hfresh). apply pointsOf_set_same. exact Hk.
        -- rewrite (Hin q Hq), pointsOf_set_other; [reflexivity | ].
           intros ->. contradiction.
      * intros q Hq. rewrite Hout by (intros H; apply Hq; right; exact H).
        apply pointsOf_set_other. intros ->. apply Hq. left. reflexivity.
      * rewrite Hsum, sumValues_add by exact Hk. cbn [sumOver fold_right].
        fold (sumOver pts rest). lia.
Qed.

Lemma spec_runBracketEpisode_values (qs : list string) (index : nat) (bp : pointsObj)
  (det eps : list EpRecord.t) (ep c : nat)
  (Q : pointsObj * list EpRecord.t * list EpRecord.t -> nat -> Prop) :
  qs <> [] ->
  (md = Total -> (2 <= length qs)%nat -> fair rng (length qs)) ->
  map fst bp = map fst (zeroPoints qs) ->
  (forall bp' rec c',
      map fst bp' = map fst bp ->
      recordSpec index qs rec ->
      EpRecord.episodeNumberInBracket rec = ep ->
      (forall q, In q (map fst bp) ->
         pointsOf bp' q = pointsOf bp q + pointsOf (EpRecord.pointsThisEpisode rec) q) ->
      sumValues bp' = sumValues bp + sumValues (EpRecord.pointsThisEpisode rec) ->
      Q (bp', det ++ [rec], eps ++ [rec]) c') ->
  spec md (runBracketEpisode rng qs index (bp, det, eps) ep) c Q.
Proof.
  intros Hqs Hfair Hkeys HQ. unfold runBracketEpisode.
  apply spec_bind, spec_runEpisodeSix; try assumption.
  intros [pts detail] c1 Hep. pose proof (es_keys _ _ Hep) as Hk. cbn in Hk.
  assert (Hnd : NoDup (map fst pts)) by (rewrite Hk; apply zeroPoints_NoDup).
  apply spec_bind, spec_accumulate_values.
  - eapply Permutation_NoDup; [symmetry; apply Object_keys_perm | exact Hnd].
  - intros q Hq. cbn. eapply Permutation_in; [apply Object_keys_perm | exact Hq].
  - intros q Hq. cbn in Hq. rewrite Hkeys, <- Hk.
    eapply Permutation_in; [apply Object_keys_perm | exact Hq].
  - intros bp' Hk' Hin _ Hsum. apply spec_ret.
    apply HQ; [exact Hk' | | reflexivity | | ].
    + constructor; cbn; auto.
    + intros q Hq. cbn. apply Hin. cbn.
      eapply Permutation_in; [symmetry; apply Object_keys_perm | ].
      rewrite Hk, <- Hkeys. exact Hq.
    + cbn [EpRecord.pointsThisEpisode EpisodeRes.points] in *. rewrite Hsum. f_equal.
      rewrite (sumOver_perm pts _ _ (Object_keys_perm pts)). apply sumOver_keys. exact Hnd.
Qed.

Variable localeCompare : string -> string -> Z.

Lemma spec_runBracket_ledger (results : list BracketResult.t) (eps : list EpRecord.t)
  (index : nat) (qs : list string) (c : nat)
  (Q : list BracketResult.t * list EpRecord.t -> nat -> Prop) :
  qs <> [] ->
  (md = Total -> (2 <= length qs)%nat -> fair rng (length qs)) ->
  (forall br c',
      bracketSpec localeCompare index qs br -> bracketLedger br ->
      Q (results ++ [br], eps ++ BracketResult.episodes br) c') ->
  spec md (runBracket localeCompare rng (results, eps) (index, qs)) c Q.
Proof.
  intros Hqs Hfair HQ. unfold runBracket. cbn [foldM].
  apply spec_bind, spec_bind, spec_runBracketEpisode_values; try assumption; [reflexivity | ].
  intros bp1 r1 c1 Hk1 Hr1 Hn1 Hp1 Hs1.
  apply spec_bind, spec_runBracketEpisode_values; try assumption.
  intros bp2 r2 c2 Hk2 Hr2 Hn2 Hp2 Hs2.
  apply spec_bind, spec_runBracketEpisode_values; try assumption; [congruence | ].
  intros bp3 r3 c3 Hk3 Hr3 Hn3 Hp3 Hs3.
  apply spec_ret, spec_ret.
  repeat rewrite <- app_assoc. cbn [app].
  match goal with
  | |- Q (_ ++ [?b], _) _ =>
      replace [r1; r2; r3] with (BracketResult.episodes b) by reflexivity; apply HQ
  end.
  - constructor; cbn; try reflexivity.
    + congruence.
    + congruence.
    + repeat (apply Forall_cons; [assumption | ]). apply Forall_nil.
  - constructor;
      cbn [BracketResult.points BracketResult.episodes episodePointsOf episodeTotals fold_right].
    + intros q Hq.
      assert (Hq0 : In q (map fst (zeroPoints qs))).
      { rewrite <- Hk1, <- Hk2, <- Hk3.
        eapply Permutation_in; [apply Object_keys_perm | exact Hq]. }
      rewrite (Hp3 q), (Hp2 q), (Hp1 q), (pointsOf_zeroPoints qs q) by congruence.
      lia.
    + rewrite Hs3, Hs2, Hs1, zeroPoints_sum. lia.
Qed.

Lemma spec_brackets_ledger (indexed : list (nat * list string)) :
  forall (results : list BracketResult.t) (eps : list EpRecord.t) (c : nat)
         (Q : list BracketResult.t * list EpRecord.t -> nat -> Prop),
    (forall iq, In iq indexed ->
       snd iq <> [] /\ (md = Total -> (2 <= length (snd iq))%nat -> fair rng (length (snd iq)))) ->
    (forall new c',
        Forall2 (fun iq br => bracketSpec localeCompare (fst iq) (snd iq) br) indexed new ->
        Forall bracketLedger new ->
        Q (results ++ new, eps ++ flat_map BracketResult.episodes new) c') ->
    spec md (foldM (runBracket localeCompare rng) indexed (results, eps)) c Q.
Proof.
  induction indexed as [ | [index qs] rest IH]; intros results eps c Q Hall HQ; simpl.
  - apply spec_ret. rewrite <- (app_nil_r results), <- (app_nil_r eps).
    apply (HQ [] c); constructor.
  - destruct (Hall (index, qs) (or_introl eq_refl)) as [Hqs Hfair].
    apply spec_bind, spec_runBracket_ledger; try assumption.
    intros br c1 Hbr Hled. apply IH.
    + intros iq Hiq. apply Hall. right. exact Hiq.
    + intros new c' Hnew Hleds. repeat rewrite <- app_assoc.
      apply (HQ (br :: new) c'); constructor; assumption.
Qed.

Lemma spec_simulateAllStars10_records (initialQueens : list queen) (opts : options)
  (clock : string) (c : nat) (Q : Season.t -> nat -> Prop) :
  let count := orDefault (bracketCount opts) 3 in
  let size := orDefault (bracketSize opts) 6 in
  length initialQueens = (count * size)%nat ->
  (md = Total -> (2 <= size)%nat -> fair rng size) ->
  (forall r c',
      seasonSpec localeCompare (map queenName initialQueens) count clock r ->
      seasonLedger r -> seasonFinale r -> Q r c') ->
  spec md (simulateAllStars10 localeCompare rng initialQueens opts clock) c Q.
Proof.
  intros count size Hlen Hfair HQ. unfold simulateAllStars10.
  fold count. fold size. set (names := map queenName initialQueens).
  assert (Hnames : length names = (count * size)%nat).
  { unfold names. rewrite length_map. exact Hlen. }
  rewrite Hnames, Nat.eqb_refl. cbn [negb].
  assert (Hcount : (0 < count)%nat) by (apply orDefault_pos; lia).
  assert (Hsize : (0 < size)%nat) by (apply orDefault_pos; lia).
  destruct (sliceIntoBrackets_spec names count Hcount) as (bs & Hslice & Hbs & Hnth).
  apply spec_bind. eapply spec_lift; [exact Hslice | ].
  apply spec_bind. apply spec_brackets_ledger.
  { intros [i qs] Hin. cbn [snd]. apply in_combine_seq in Hin.
    destruct (In_nth _ _ [] Hin) as (k & Hk & <-).
    rewrite Hnth by lia.
    rewrite (bracketMembers_length names count size k Hnames) by lia.
    split; [ | exact Hfair ].
    intros E. apply (f_equal (@length string)) in E.
    rewrite (bracketMembers_length names count size k Hnames) in E by lia.
    simpl in E. lia. }
  intros results c1 Hresults Hledger. cbn [app].
  apply spec_bind, (spec_semifinal rng md Hcontract).
  intros elims fin c2 Hsemi.
  apply spec_bind, (spec_shuffle rng md Hcontract).
  intros shuffled c3 Hperm.
  apply spec_bind, spec_finale_tournament.
  intros fc rounds c4 Hfinale Htour.
  apply spec_ret, HQ; [ | exact Hledger | exists shuffled, fc; auto ]. constructor; cbn.
  - reflexivity.
  - exists bs. split; assumption.
  - reflexivity.
  - reflexivity.
  - exact Hsemi.
  - exists shuffled, fc. auto.
Qed.

End Ledger.

Lemma season_records_property (lc : string -> string -> Z) (rng : nat -> Q)
  (initialQueens : list queen) (opts : options) (clock : string) (P : Season.t -> Prop) :
  contract rng ->
  length initialQueens
  = (orDefault (bracketCount opts) 3 * orDefault (bracketSize opts) 6)%nat ->
  (forall r,
      seasonSpec lc (map queenName initialQueens) (orDefault (bracketCount opts) 3) clock r ->
      seasonLedger r -> seasonFinale r -> P r) ->
  onReturn (simulateAllStars10 lc rng initialQueens opts clock) P /\
  (((2 <= orDefault (bracketSize opts) 6)%nat -> fair rng (orDefault (bracketSize opts) 6)) ->
   returnsWith (simulateAllStars10 lc rng initialQueens opts clock) P).
Proof.
  intros Hc Hlen HP. split.
  - apply spec_onReturn. intros c.
    apply spec_simulateAllStars10_records;
      [exact Hc | exact Hlen | intros H; discriminate H | auto].
  - intros Hfair. apply spec_returnsWith. intros c.
    apply spec_simulateAllStars10_records; [exact Hc | exact Hlen | auto | auto].
Qed.

(** X15.  In every season the points of a bracket are the points of its
    three episodes added up, for each name of its points object and in total; and
    the season does come to its result when the draws do not select one index
    of a bracket for ever. *)
Theorem bracket_points_are_episode_points (lc : string -> string -> Z) (rng : nat -> Q)
  (initialQueens : list queen) (opts : options) (clock : string) :
  let count := orDefault (bracketCount opts) 3 in
  let size := orDefault (bracketSize opts) 6 in
  contract rng -> length initialQueens = (count * size)%nat ->
  onReturn (simulateAllStars10 lc rng initialQueens opts clock) seasonLedger /\
  (((2 <= size)%nat -> fair rng size) ->
   returnsWith (simulateAllStars10 lc rng initialQueens opts clock) seasonLedger).
Proof.
  intros count size Hc Hlen.
  apply season_records_property; [exact Hc | exact Hlen | ].
  intros r _ Hr _. exact Hr.
Qed.

(** An instance: the sample inputs meet the hypotheses. *)
Lemma bracket_points_are_episode_points_witness :
  contract alternating /\ length eighteenQueens = (3 * 6)%nat /\
  ((2 <= 6)%nat -> fair alternating 6) /\
  onReturn (simulateAllStars10 lettersCompare alternating eighteenQueens defaultOptions "")
    seasonLedger /\
  returnsWith (simulateAllStars10 lettersCompare alternating eighteenQueens defaultOptions "")
    seasonLedger.
Proof.
  pose proof (alternating_fair 6) as Hfair.
  destruct (bracket_points_are_episode_points lettersCompare alternating eighteenQueens
              defaultOptions "" alternating_contract eq_refl) as [Hon Hret].
  exact (conj alternating_contract (conj eq_refl (conj Hfair (conj Hon (Hret Hfair))))).
Defined.

Lemma seasonSpec_bracket_totals (lc : string -> string -> Z) (names : list string)
  (count size : nat) (clock : string) (r : Season.t) :
  (0 < count)%nat -> (2 <= size)%nat -> length names = (count * size)%nat -> NoDup names ->
  ~ In "__proto__" names ->
  seasonSpec lc names count clock r -> seasonLedger r ->
  Forall (fun br => sumValues (BracketResult.points br) = 3 * (Z.of_nat size + 3))
    (Season.brackets r).
Proof.
  intros Hcount Hsize Hlen Hnd Hproto Hs Hled.
  destruct (ss_brackets _ _ _ _ _ Hs) as (bs & Hslice & Hall).
  pose proof (sliceIntoBrackets_perm _ _ _ Hslice) as Hperm.
  assert (Hndc : NoDup (concat bs)) by (eapply Permutation_NoDup; [symmetry | ]; eassumption).
  destruct (sliceIntoBrackets_spec names count Hcount) as (bs' & Hslice' & Hbs & Hnth).
  assert (bs' = bs) as -> by congruence.
  unfold seasonLedger in Hled. rewrite Forall_forall in Hled.
  apply Forall_forall. intros br Hbr.
  destruct (Forall2_in_r _ _ _ _ Hall Hbr) as ([i qs] & Hiq & Hspec). cbn [fst snd] in Hspec.
  apply in_combine_r in Hiq.
  assert (Hqnd : NoDup qs) by (eapply NoDup_concat_In; eassumption).
  assert (Hqp : ~ In "__proto__" qs).
  { intros Hin. apply Hproto. eapply Permutation_in; [exact Hperm | ].
    apply in_concat. exists qs. split; assumption. }
  assert (Hqlen : length qs = size).
  { destruct (In_nth _ _ [] Hiq) as (k & Hk & <-).
    rewrite Hnth by lia. apply bracketMembers_length; [exact Hlen | lia]. }
  rewrite (bl_total _ (Hled br Hbr)).
  pose proof (bs_records _ _ _ _ Hspec) as Hrec.
  pose proof (bs_numbers _ _ _ _ Hspec) as Hn.
  assert (Hone : forall rec, recordSpec i qs rec ->
            sumValues (EpRecord.pointsThisEpisode rec) = Z.of_nat size + 3).
  { intros rec Hr. pose proof (rs_episode _ _ _ Hr) as Hep.
    pose proof (episodeSpec_awards qs _ ltac:(lia) Hqnd Hep) as Hm.
    destruct (twoWinners_distinct qs _ Hqnd ltac:(lia) (es_winners _ _ Hep))
      as (w1 & w2 & Hws & _).
    pose proof (episodeSpec_sum _ _ Hqp Hep) as Hsum.
    cbn [EpisodeRes.points EpisodeRes.detail] in Hsum, Hm, Hws.
    rewrite Hsum, Hm, Hws. cbn [length]. lia. }
  destruct (BracketResult.episodes br) as [ | r1 [ | r2 [ | r3 [ | ]]]]; try discriminate.
  inversion Hrec as [ | ? ? H1 Hrec1]; subst.
  inversion Hrec1 as [ | ? ? H2 Hrec2]; subst.
  inversion Hrec2 as [ | ? ? H3 _]; subst.
  cbn [episodeTotals fold_right].
  rewrite (Hone r1 H1), (Hone r2 H2), (Hone r3 H3). lia.
Qed.

(** X16.  For different names, none of them [__proto__], in brackets of
    [size >= 2], every bracket of every season hands out [3 * (size + 3)]
    points in all, 27 in a bracket of six; and the season does come to its result when the draws do not
    select one index of a bracket for ever. *)
Theorem bracket_point_total (lc : string -> string -> Z) (rng : nat -> Q)
  (initialQueens : list queen) (opts : options) (clock : string) :
  let count := orDefault (bracketCount opts) 3 in
  let size := orDefault (bracketSize opts) 6 in
  contract rng -> length initialQueens = (count * size)%nat ->
  NoDup (map queenName initialQueens) -> ~ In "__proto__" (map queenName initialQueens) ->
  (2 <= size)%nat ->
  onReturn (simulateAllStars10 lc rng initialQueens opts clock)
    (fun r => Forall (fun br => sumValues (BracketResult.points br) = 3 * (Z.of_nat size + 3))
                (Season.brackets r)) /\
  (fair rng size ->
   returnsWith (simulateAllStars10 lc rng initialQueens opts clock)
     (fun r => Forall (fun br => sumValues (BracketResult.points br) = 3 * (Z.of_nat size + 3))
                 (Season.brackets r))).
Proof.
  intros count size Hc Hlen Hnd Hproto Hsize.
  destruct (season_records_property lc rng initialQueens opts clock
              (fun r => Forall (fun br => sumValues (BracketResult.points br)
                                          = 3 * (Z.of_nat size + 3))
                          (Season.brackets r)) Hc Hlen) as [Hon Hret].
  - intros r Hr Hled _.
    apply (seasonSpec_bracket_totals lc (map queenName initialQueens) count size clock r);
      try assumption.
    + apply orDefault_pos. lia.
    + rewrite length_map. exact Hlen.
  - split; [exact Hon | ]. intros Hfair. apply Hret. intros _. exact Hfair.
Qed.

(** An instance: the sample inputs meet the hypotheses. *)
Lemma bracket_point_total_witness :
  contract alternating /\ length eighteenQueens = (3 * 6)%nat /\
  NoDup (map queenName eighteenQueens) /\
  ~ In "__proto__" (map queenName eighteenQueens) /\ (2 <= 6)%nat /\ fair alternating 6 /\
  onReturn (simulateAllStars10 lettersCompare alternating eighteenQueens defaultOptions "")
    (fun r => Forall (fun br => sumValues (BracketResult.points br) = 27)
                (Season.brackets r)) /\
  returnsWith (simulateAllStars10 lettersCompare alternating eighteenQueens defaultOptions "")
    (fun r => Forall (fun br => sumValues (BracketResult.points br) = 27)
                (Season.brackets r)).
Proof.
  assert (Hsize : (2 <= 6)%nat) by lia.
  pose proof (alternating_fair 6 Hsize) as Hfair.
  destruct (bracket_point_total lettersCompare alternating eighteenQueens defaultOptions ""
              alternating_contract eq_refl eighteenQueens_NoDup eighteenQueens_plain Hsize)
    as [Hon Hret].
  exact (conj alternating_contract (conj eq_refl (conj eighteenQueens_NoDup
          (conj eighteenQueens_plain (conj Hsize (conj Hfair (conj Hon (Hret Hfair)))))))).
Defined.

(** ** Groups and pools that are too small *)

Lemma indexAt_empty (rng : nat -> Q) (c : nat) : indexAt rng 0 c = 0.
Proof. unfold indexAt. apply index_of_empty. Qed.

Lemma indexAt_single (rng : nat -> Q) (c : nat) : contract rng -> indexAt rng 1 c = 0.
Proof. intros Hc. pose proof (indexAt_range rng Hc 1 c ltac:(lia)). lia. Qed.

Lemma eliminate_empty (rng : nat -> Q) (elims : list (option string)) (i fuel c : nat) :
  eliminate rng (elims, []) i fuel c = (Return (elims ++ [None], []), S c).
Proof.
  unfold eliminate, pickRandomIndex, bind, next, ret.
  change (Qfloor (times (rng c) (inject_Z (Z.of_nat (length (@nil string))))))
    with (indexAt rng 0 c).
  rewrite indexAt_empty. reflexivity.
Qed.

(** X17.  With draws in [0,1), the semifinal on a pool of fewer than two
    queens still records two eliminations: the queens of the pool, then
    [undefined] for each elimination that finds the pool empty; nobody is
    left, and two draws are made. *)
Theorem semifinal_short_pool (rng : nat -> Q) (pool : list string) (fuel c : nat) :
  contract rng -> (length pool < 2)%nat ->
  foldM (eliminate rng) [0; 1]%nat ([], pool) fuel c
  = (Return (map Some pool ++ repeat None (2 - length pool), []), (c + 2)%nat).
Proof.
  intros Hc Hlen. replace (c + 2)%nat with (S (S c)) by lia.
  destruct pool as [ | x [ | y rest]]; [ | | cbn [length] in Hlen; lia ].
  - cbn [foldM]. unfold bind at 1. rewrite eliminate_empty.
    unfold bind at 1. rewrite eliminate_empty. reflexivity.
  - cbn [foldM]. unfold bind at 1.
    assert (E : eliminate rng ([], [x]) 0%nat fuel c = (Return ([Some x], []), S c)).
    { unfold eliminate, pickRandomIndex, bind, next, ret.
      change (Qfloor (times (rng c) (inject_Z (Z.of_nat (length [x])))))
        with (indexAt rng 1 c).
      rewrite (indexAt_single rng c Hc). reflexivity. }
    rewrite E. unfold bind at 1. rewrite eliminate_empty. reflexivity.
Qed.

(** An instance: the sample inputs meet the hypotheses. *)
Lemma semifinal_short_pool_witness :
  contract alternating /\ (length ["A"] < 2)%nat /\
  foldM (eliminate alternating) [0; 1]%nat ([], ["A"]) 0%nat 0%nat
  = (Return ([Some "A"; None], []), 2%nat).
Proof.
  assert (Hlen : (length ["A"] < 2)%nat) by (cbn; lia).
  exact (conj alternating_contract
           (conj Hlen (semifinal_short_pool alternating ["A"] 0%nat 0%nat
                         alternating_contract Hlen))).
Defined.

Lemma bind_run {A B : Type} (m : M A) (k : A -> M B) (fuel c c' : nat) (a : A) :
  m fuel c = (Return a, c') -> bind m k fuel c = k a fuel c'.
Proof. intros H. unfold bind. rewrite H. reflexivity. Qed.

Lemma addTo_single (q : string) (v d : Z) (fuel c : nat) :
  addTo [(q, v)] q d fuel c = (Return [(q, v + d)], c).
Proof.
  unfold addTo, set. cbn [get]. rewrite String.eqb_refl.
  cbn [get setOwn]. rewrite String.eqb_refl. reflexivity.
Qed.

(** X18.  With draws in [0,1), the episode of a group of one, whose name
    is not [__proto__], makes one draw: the lone queen is the only winner
    and the lip-sync winner, ends with 3 points and no peer award is
    given. *)
Theorem episode_of_one (rng : nat -> Q) (q : string) (fuel c : nat) :
  contract rng -> q <> "__proto__" ->
  runEpisodeSix rng [q] fuel c
  = (Return {| EpisodeRes.points := [(q, 3)];
               EpisodeRes.detail :=
                 {| Detail.winners := [q];
                    Detail.lipSyncWinner := q;
                    Detail.mvqAssignments := [] |} |}, S c).
Proof.
  intros Hc Hq. unfold runEpisodeSix.
  assert (Hzero : zeroPoints [q] = [(q, 0)]).
  { unfold zeroPoints, set. cbn [fold_left get].
    apply storable_true in Hq. rewrite Hq. reflexivity. }
  rewrite Hzero.
  rewrite (bind_run _ _ fuel c c [q]) by reflexivity.
  rewrite (bind_run _ _ fuel c c [(q, 2)]).
  2: { cbn [foldM]. rewrite (bind_run _ _ fuel c c [(q, 2)]); [reflexivity | ].
       apply (addTo_single q 0 2). }
  rewrite (bind_run _ _ fuel c (S c) 0).
  2: { unfold pickRandomIndex. rewrite (bind_run _ _ fuel c (S c) (rng c)) by reflexivity.
       unfold ret. f_equal. f_equal. apply (indexAt_single rng c Hc). }
  rewrite (bind_run _ _ fuel (S c) (S c) q) by reflexivity.
  rewrite (bind_run _ _ fuel (S c) (S c) [(q, 3)]) by apply (addTo_single q 2 1).
  cbn [filter includes existsb]. rewrite String.eqb_refl. cbn [orb negb foldM].
  reflexivity.
Qed.

(** An instance: the sample inputs meet the hypotheses. *)
Lemma episode_of_one_witness :
  contract alternating /\ "A" <> "__proto__" /\
  runEpisodeSix alternating ["A"] 0%nat 0%nat
  = (Return {| EpisodeRes.points := [("A", 3)];
               EpisodeRes.detail :=
                 {| Detail.winners := ["A"];
                    Detail.lipSyncWinner := "A";
                    Detail.mvqAssignments := [] |} |}, 1%nat).
Proof.
  assert (Hname : "A" <> "__proto__") by discriminate.
  exact (conj alternating_contract
           (conj Hname (episode_of_one alternating "A" 0%nat 0%nat alternating_contract Hname))).
Defined.

(** ** The finale of the season *)

Lemma soundPairing_winner (p : Pairing.t) :
  soundPairing p -> In (Pairing.winner p) (contestantsOf p).
Proof.
  unfold soundPairing, contestantsOf. destruct (Pairing.b p) as [b | ].
  - intros [[-> | ->] _]; simpl; auto.
  - intros [-> _]. left. reflexivity.
Qed.

Lemma tournament_champion (rounds : list (list Pairing.t)) :
  forall (cs fc : list string) (ch : string),
    tournament cs rounds fc -> In ch fc ->
    In ch cs /\
    Forall (fun pairs => exists p, In p pairs /\ Pairing.winner p = ch) rounds.
Proof.
  induction rounds as [ | pairs rest IH]; intros cs fc ch Ht Hch; cbn [tournament] in Ht.
  - destruct Ht as [-> _]. split; [exact Hch | constructor].
  - destruct Ht as (_ & Hflat & Hsound & Hrest).
    destruct (IH _ _ ch Hrest Hch) as [Hin Hall].
    apply in_map_iff in Hin. destruct Hin as (p & Hp & Hin).
    split.
    + rewrite <- Hflat. apply in_flat_map. exists p. split; [exact Hin | ].
      rewrite <- Hp. apply soundPairing_winner.
      rewrite Forall_forall in Hsound. apply Hsound. exact Hin.
    + constructor; [ | exact Hall ]. exists p. split; assumption.
Qed.

Lemma tournament_survivor (rounds : list (list Pairing.t)) :
  forall (cs fc : list string), tournament cs rounds fc -> fc = [] -> rounds = [].
Proof.
  induction rounds as [ | pairs rest IH]; intros cs fc Ht Hfc; [reflexivity | ].
  cbn [tournament] in Ht. destruct Ht as (Hlen & Hflat & _ & Hrest).
  pose proof (IH _ _ Hrest Hfc) as ->. cbn [tournament] in Hrest.
  destruct Hrest as [E Hone]. subst fc.
  destruct pairs as [ | p pairs]; [ | discriminate ].
  cbn in Hflat. subst cs. cbn in Hlen. lia.
Qed.

(** X19.  In every season the recorded finale is a tournament on the
    finalists in some order: every round pairs the winners of the round
    before two by two, the last of an odd number getting a bye, and the
    champion is who is left; and the season does come to its result when the
    draws do not select one index of a bracket for ever. *)
Theorem season_finale_is_a_tournament (lc : string -> string -> Z) (rng : nat -> Q)
  (initialQueens : list queen) (opts : options) (clock : string) :
  let count := orDefault (bracketCount opts) 3 in
  let size := orDefault (bracketSize opts) 6 in
  contract rng -> length initialQueens = (count * size)%nat ->
  onReturn (simulateAllStars10 lc rng initialQueens opts clock) seasonFinale /\
  (((2 <= size)%nat -> fair rng size) ->
   returnsWith (simulateAllStars10 lc rng initialQueens opts clock) seasonFinale).
Proof.
  intros count size Hc Hlen.
  apply season_records_property; [exact Hc | exact Hlen | ].
  intros r _ _ Hr. exact Hr.
Qed.

(** An instance: the sample inputs meet the hypotheses. *)
Lemma season_finale_is_a_tournament_witness :
  contract alternating /\ length eighteenQueens = (3 * 6)%nat /\
  ((2 <= 6)%nat -> fair alternating 6) /\
  onReturn (simulateAllStars10 lettersCompare alternating eighteenQueens defaultOptions "")
    seasonFinale /\
  returnsWith (simulateAllStars10 lettersCompare alternating eighteenQueens defaultOptions "")
    seasonFinale.
Proof.
  pose proof (alternating_fair 6) as Hfair.
  destruct (season_finale_is_a_tournament lettersCompare alternating eighteenQueens
              defaultOptions "" alternating_contract eq_refl) as [Hon Hret].
  exact (conj alternating_contract (conj eq_refl (conj Hfair (conj Hon (Hret Hfair))))).
Defined.

(** X20.  In every season the champion is the winner of a pairing in every
    round of the finale, and when there is no champion no round was played;
    and the season does come to its result when the draws do not select one
    index of a bracket for ever. *)
Theorem champion_wins_every_round (lc : string -> string -> Z) (rng : nat -> Q)
  (initialQueens : list queen) (opts : options) (clock : string) :
  let count := orDefault (bracketCount opts) 3 in
  let size := orDefault (bracketSize opts) 6 in
  contract rng -> length initialQueens = (count * size)%nat ->
  onReturn (simulateAllStars10 lc rng initialQueens opts clock) championWinsThrough /\
  (((2 <= size)%nat -> fair rng size) ->
   returnsWith (simulateAllStars10 lc rng initialQueens opts clock) championWinsThrough).
Proof.
  intros count size Hc Hlen.
  apply season_records_property; [exact Hc | exact Hlen | ].
  intros r _ _ (shuffled & fc & _ & Htour & Hch).
  unfold championWinsThrough. rewrite Hch.
  destruct fc as [ | ch rest]; cbn [nth_error].
  - eapply tournament_survivor; [exact Htour | reflexivity].
  - eapply tournament_champion; [exact Htour | left; reflexivity].
Qed.

(** An instance: the sample inputs meet the hypotheses. *)
Lemma champion_wins_every_round_witness :
  contract alternating /\ length eighteenQueens = (3 * 6)%nat /\
  ((2 <= 6)%nat -> fair alternating 6) /\
  onReturn (simulateAllStars10 lettersCompare alternating eighteenQueens defaultOptions "")
    championWinsThrough /\
  returnsWith (simulateAllStars10 lettersCompare alternating eighteenQueens defaultOptions "")
    championWinsThrough.
Proof.
  pose proof (alternating_fair 6) as Hfair.
  destruct (champion_wins_every_round lettersCompare alternating eighteenQueens
              defaultOptions "" alternating_contract eq_refl) as [Hon Hret].
  exact (conj alternating_contract (conj eq_refl (conj Hfair (conj Hon (Hret Hfair))))).
Defined.
